(** * FractalEngine: the Buddhabrot heatmap engine of [buddhabrot.cpp]

    A shallow embedding of the heatmap core of [src/buddhabrot.cpp]
    (the [Complex] kernel, [buddhabrotPoints], [rowFromReal],
    [colFromImaginary], [GenerateHeatmap], [colorFromHeatmap] and the
    part of [main] that builds the vertex buffer) and the properties of
    the specification that can be settled on it.

    Numbers are modelled as the program has them on an IEEE-754 target
    with round-to-nearest-even and no fused or extended-precision
    evaluation (x86-64/SSE2):
    - [double] is Rocq's primitive binary64 [float];
    - [float] ([HeatmapType]) is binary32, given by the executable
      specification [SpecFloat] at precision 24 and exponent bound 128;
    - [int] is a [Z] kept inside the 32-bit range.
    Undefined behaviour (an index outside the heatmap allocation, a
    [double] to [int] conversion that does not fit) and the exception of
    [vector::reserve] are explicit faults of the [Result] monad.
    The random draws of [GenerateHeatmap] are an input list. *)

From Stdlib Require Import ZArith QArith Qpower Qround Bool Lia Lqa Floats Permutation.
From stdpp Require Import base list.

Local Open Scope Z_scope.

(** ** Faults and the result monad *)

Inductive Fault : Type :=
| LengthError   (* std::length_error thrown by vector::reserve *)
| BadIntCast    (* (int) of a double that is NaN, infinite or out of range *)
| OutOfBounds.  (* heatmap access outside the allocated rows and columns *)

Inductive Result (A : Type) : Type :=
| Ok (a : A)
| Err (f : Fault).

Arguments Ok {A} a.
Arguments Err {A} f.

Definition bind {A B : Type} (m : Result A) (k : A -> Result B) : Result B :=
  match m with
  | Ok a => k a
  | Err f => Err f
  end.

Notation "'do' x <- m ;; k" := (bind m (fun x => k))
  (at level 10, x pattern, m at level 99, k at level 200).

(** ** Machine numbers *)

Module Int.
Definition min_int : Z := -2147483648.
Definition max_int : Z := 2147483647.
Definition in_range (z : Z) : bool := (min_int <=? z) && (z <=? max_int).
End Int.

Abbreviation double := PrimFloat.float.

(** int -> double: exact for every 32-bit int. *)
Definition double_of_int (n : Z) : double :=
  if n <? 0 then (- of_uint63 (Uint63.of_Z (- n)))%float
  else of_uint63 (Uint63.of_Z n).

(** The integer part of a finite binary float, rounded toward zero. *)
Definition SFtrunc (x : spec_float) : option Z :=
  match x with
  | S754_zero _ => Some 0
  | S754_finite s m e =>
      Some (cond_Zopp s (match e with
                         | Zneg k => Zpos m / 2 ^ Zpos k
                         | _ => Zpos m * 2 ^ e
                         end))
  | _ => None
  end.

(** double -> int, the cast [(int)x]: truncation toward zero; undefined
    when the truncated value is not representable. *)
Definition int_of_double (x : double) : Result Z :=
  match SFtrunc (Prim2SF x) with
  | Some v => if Int.in_range v then Ok v else Err BadIntCast
  | None => Err BadIntCast
  end.

(** binary32, the type [float] of the program. *)
Module F32.
Definition prec : Z := 24.
Definition emax : Z := 128.
Definition t : Type := spec_float.

Definition add : t -> t -> t := SFadd prec emax.
Definition mul : t -> t -> t := SFmul prec emax.
Definition div : t -> t -> t := SFdiv prec emax.
Definition opp : t -> t := SFopp.
Definition ltb : t -> t -> bool := SFltb.
Definition leb : t -> t -> bool := SFleb.
Definition eqb : t -> t -> bool := SFeqb.

(** int -> float *)
Definition of_int (n : Z) : t := binary_normalize prec emax n 0 false.
Definition zero : t := Eval vm_compute in of_int 0.
Definition one : t := Eval vm_compute in of_int 1.

(** float -> double, exact *)
Definition to_double (x : t) : double := SF2Prim x.
(** double -> float, rounded to nearest even *)
Definition of_double (x : double) : t :=
  match Prim2SF x with
  | S754_finite s m e => binary_round prec emax s m e
  | y => y
  end.

Definition is_nan (x : t) : bool :=
  match x with S754_nan => true | _ => false end.
End F32.

(** typedef float HeatmapType; *)
Definition HeatmapType : Type := F32.t.

(** ** Settings *)

Definition IMAGE_HEIGHT : Z := 200.
Definition IMAGE_WIDTH : Z := 200.
Definition RED_ITERS : Z := 200.
Definition BLUE_ITERS : Z := 800.
Definition GREEN_ITERS : Z := 200.
Definition SAMPLE_COUNT : Z := IMAGE_WIDTH * IMAGE_HEIGHT * 100.

(** ** class Complex *)

Record Complex : Type := mkComplex { _r : double; _i : double }.

(** Complex(double r = 0.0, double i = 0.0) with both defaults *)
Definition Complex0 : Complex := mkComplex 0 0.

Definition Cmul (a other : Complex) : Complex :=
  mkComplex (_r a * _r other - _i a * _i other)%float
            (_r a * _i other + _i a * _r other)%float.

Definition Cadd (a other : Complex) : Complex :=
  mkComplex (_r a + _r other)%float (_i a + _i other)%float.

Definition sqmagnitude (a : Complex) : double :=
  (_r a * _r a + _i a * _i a)%float.

(** ** buddhabrotPoints *)

(** One pass of the body of the while loop: the state is (n, z, toReturn). *)
Definition loop_guard (nIterations n : Z) (z : Complex) : bool :=
  (n <? nIterations) && (sqmagnitude z <=? 2)%float.

Fixpoint buddhabrot_loop (fuel : nat) (c : Complex) (nIterations n : Z)
    (z : Complex) (toReturn : list Complex) : Z * Complex * list Complex :=
  match fuel with
  | O => (n, z, toReturn)
  | S fuel' =>
      if loop_guard nIterations n z then
        let z' := Cadd (Cmul z z) c in
        buddhabrot_loop fuel' c nIterations (n + 1) z' (toReturn ++ [z'])
      else (n, z, toReturn)
  end.

Definition buddhabrotPoints (c : Complex) (nIterations : Z) : Result (list Complex) :=
  if nIterations <? 0 then Err LengthError   (* toReturn.reserve(nIterations) *)
  else
    let '(n, _, toReturn) :=
      buddhabrot_loop (Z.to_nat nIterations) c nIterations 0 Complex0 [] in
    if n =? nIterations then Ok [] else Ok toReturn.

(** ** The coordinate mapper *)

Definition rowFromReal (real minR maxR : double) (imageHeight : Z) : Result Z :=
  int_of_double ((real - minR) * (double_of_int imageHeight / (maxR - minR)))%float.

Definition colFromImaginary (imag minI maxI : double) (imageWidth : Z) : Result Z :=
  int_of_double ((imag - minI) * (double_of_int imageWidth / (maxI - minI)))%float.

(** ** Heatmaps *)

(** HeatmapType **: [height] rows of [width] cells. *)
Abbreviation Heatmap := (list (list HeatmapType)).

Definition AllocHeatmap (width height : Z) : Heatmap :=
  replicate (Z.to_nat height) (replicate (Z.to_nat width) (F32.of_int 0)).

(** o_heatmap[row][col] as an rvalue *)
Definition heatmap_get (h : Heatmap) (row col : Z) : Result HeatmapType :=
  if (row <? 0) || (col <? 0) then Err OutOfBounds
  else
    match h !! Z.to_nat row with
    | Some cells =>
        match cells !! Z.to_nat col with
        | Some v => Ok v
        | None => Err OutOfBounds
        end
    | None => Err OutOfBounds
    end.

(** o_heatmap[row][col] = v, for a cell that [heatmap_get] found: the
    write goes through the row pointer into the row's cells. *)
Definition heatmap_set (h : Heatmap) (row col : Z) (v : HeatmapType) : Heatmap :=
  alter (fun cells => <[Z.to_nat col := v]> cells) (Z.to_nat row) h.

(** ** GenerateHeatmap *)

Definition in_rectangle (minimum maximum point : Complex) : bool :=
  (_r point <=? _r maximum)%float && (_r minimum <=? _r point)%float
  && (_i point <=? _i maximum)%float && (_i minimum <=? _i point)%float.

(** The body of the loop over [pointsList]; the state is the heatmap and
    [o_maxHeatmapValue]. *)
Definition accumulate (imageWidth imageHeight : Z) (minimum maximum : Complex)
    (st : Heatmap * HeatmapType) (point : Complex) : Result (Heatmap * HeatmapType) :=
  let '(o_heatmap, o_maxHeatmapValue) := st in
  if in_rectangle minimum maximum point then
    do row <- rowFromReal (_r point) (_r minimum) (_r maximum) imageHeight ;;
    do col <- colFromImaginary (_i point) (_i minimum) (_i maximum) imageWidth ;;
    do v <- heatmap_get o_heatmap row col ;;
    let v' := F32.add v F32.one in
    let o_heatmap' := heatmap_set o_heatmap row col v' in
    Ok (o_heatmap', if F32.ltb o_maxHeatmapValue v' then v' else o_maxHeatmapValue)
  else Ok st.

Fixpoint accumulate_points (imageWidth imageHeight : Z) (minimum maximum : Complex)
    (st : Heatmap * HeatmapType) (pointsList : list Complex)
    : Result (Heatmap * HeatmapType) :=
  match pointsList with
  | [] => Ok st
  | point :: rest =>
      do st' <- accumulate imageWidth imageHeight minimum maximum st point ;;
      accumulate_points imageWidth imageHeight minimum maximum st' rest
  end.

(** The body of the loop over the samples. *)
Definition process_sample (imageWidth imageHeight : Z) (minimum maximum : Complex)
    (nIterations : Z) (st : Heatmap * HeatmapType) (sample : Complex)
    : Result (Heatmap * HeatmapType) :=
  do pointsList <- buddhabrotPoints sample nIterations ;;
  accumulate_points imageWidth imageHeight minimum maximum st pointsList.

(** [samples] are the [nSamples] draws of the random generator, in the
    order they are drawn. *)
Fixpoint GenerateHeatmap (o_heatmap : Heatmap) (imageWidth imageHeight : Z)
    (minimum maximum : Complex) (nIterations : Z) (samples : list Complex)
    (o_maxHeatmapValue : HeatmapType) : Result (Heatmap * HeatmapType) :=
  match samples with
  | [] => Ok (o_heatmap, o_maxHeatmapValue)
  | sample :: rest =>
      do st' <- process_sample imageWidth imageHeight minimum maximum nIterations
                  (o_heatmap, o_maxHeatmapValue) sample ;;
      GenerateHeatmap (fst st') imageWidth imageHeight minimum maximum nIterations
        rest (snd st')
  end.

(** ** colorFromHeatmap *)

Definition colorFromHeatmap (inputValue maxHeatmapValue : HeatmapType) (maxColor : F32.t)
    : F32.t :=
  let scale : double :=
    F32.to_double (F32.div (F32.mul F32.one maxColor) (F32.mul F32.one maxHeatmapValue)) in
  F32.of_double (F32.to_double inputValue * scale)%float.

(** ** main, up to the vertex buffer handed to the renderer *)

Definition mapX (x : F32.t) : F32.t :=
  F32.of_double (F32.to_double x * 2 / double_of_int IMAGE_WIDTH - 1)%float.

Definition mapY (y : F32.t) : F32.t :=
  F32.of_double (F32.to_double y * 2 / double_of_int IMAGE_HEIGHT - 1)%float.

Definition MINIMUM : Complex := mkComplex (-2) (-2).
Definition MAXIMUM : Complex := mkComplex 2 2.

(** The three [GenerateHeatmap] calls of [main]: red, then blue, then
    green, sharing [maxHeatmapValue].  The state is
    (red, green, blue, maxHeatmapValue). *)
Definition Channels : Type := (Heatmap * Heatmap * Heatmap * HeatmapType)%type.

Definition main_generate (redSamples blueSamples greenSamples : list Complex)
    : Result Channels :=
  let maxHeatmapValue : HeatmapType := F32.of_int 0 in
  let red := AllocHeatmap IMAGE_WIDTH IMAGE_HEIGHT in
  let green := AllocHeatmap IMAGE_WIDTH IMAGE_HEIGHT in
  let blue := AllocHeatmap IMAGE_WIDTH IMAGE_HEIGHT in
  do (red, maxHeatmapValue) <-
     GenerateHeatmap red IMAGE_WIDTH IMAGE_HEIGHT MINIMUM MAXIMUM RED_ITERS
       redSamples maxHeatmapValue ;;
  do (blue, maxHeatmapValue) <-
     GenerateHeatmap blue IMAGE_WIDTH IMAGE_HEIGHT MINIMUM MAXIMUM BLUE_ITERS
       blueSamples maxHeatmapValue ;;
  do (green, maxHeatmapValue) <-
     GenerateHeatmap green IMAGE_WIDTH IMAGE_HEIGHT MINIMUM MAXIMUM GREEN_ITERS
       greenSamples maxHeatmapValue ;;
  Ok (red, green, blue, maxHeatmapValue).

(** The six floats pushed for one pixel. *)
Definition scale_cell (st : Channels) (row col : Z) : Result (list F32.t) :=
  let '(red, green, blue, maxHeatmapValue) := st in
  do r <- heatmap_get red row col ;;
  do b <- heatmap_get blue row col ;;
  do g <- heatmap_get green row col ;;
  Ok [ F32.opp (mapX (F32.of_int col)); F32.opp (mapY (F32.of_int row)); F32.of_int 0;
       colorFromHeatmap r maxHeatmapValue (F32.of_int 1);
       colorFromHeatmap g maxHeatmapValue (F32.of_int 1);
       colorFromHeatmap b maxHeatmapValue (F32.of_int 1) ].

Fixpoint collect {A : Type} (l : list (Result (list A))) : Result (list A) :=
  match l with
  | [] => Ok []
  | m :: rest => do a <- m ;; do b <- collect rest ;; Ok (a ++ b)
  end.

(** "Scale the heatmap down": the two nested loops over rows and columns. *)
Definition scale_heatmaps (st : Channels) : Result (list F32.t) :=
  collect (map (fun row =>
             collect (map (fun col => scale_cell st row col)
                        (seqZ 0 IMAGE_WIDTH)))
             (seqZ 0 IMAGE_HEIGHT)).

(** [vertices] as [main] hands it to [glBufferData]; nothing between the
    loops and the draw calls inspects it. *)
Definition main_vertices (redSamples blueSamples greenSamples : list Complex)
    : Result (list F32.t) :=
  do st <- main_generate redSamples blueSamples greenSamples ;;
  scale_heatmaps st.

(** * The fractal tree of [tree.cpp]

    [tree] appends the end points of line segments to the global
    [vertices]; here the vector is threaded through the calls.  [cos]
    and [sin] are the functions of the C library, taken as they come. *)

Module Tree.

(** push_back *)
Definition push_back (vertices : list F32.t) (x : F32.t) : list F32.t :=
  vertices ++ [x].

(** float - float *)
Definition fsub : F32.t -> F32.t -> F32.t := SFsub F32.prec F32.emax.

(** #define PI 3.145 *)
Definition PI : double := 0x1.928f5c28f5c29p+1%float.
(** float angle = 50 * PI / 180.0; *)
Definition angle : F32.t := F32.of_double (50 * PI / 180)%float.
Definition it : Z := 10.
(** float ratioT = .75; *)
Definition ratioT : F32.t := F32.of_double 0.75%float.

Definition SCR_WIDTH : Z := 800.
Definition SCR_HEIGHT : Z := 600.

Definition mapX (x : F32.t) : F32.t :=
  F32.of_double (F32.to_double x * 2 / double_of_int SCR_WIDTH - 1)%float.

Definition mapY (y : F32.t) : F32.t :=
  F32.of_double (F32.to_double y * 2 / double_of_int SCR_HEIGHT - 1)%float.

Section Libm.
Variables cos sin : double -> double.

(** The calls of [tree], for a depth [n] of at most [fuel]: the
    recursion is on [n], which loses 1 at each level and stops at 0, and
    [tree] below gives it the fuel [n] that it needs. *)
Fixpoint tree_calls (fuel : nat) (vertices : list F32.t) (x1 y1 x2 y2 angle : F32.t)
    (n : Z) {struct fuel} : list F32.t :=
  let vertices := push_back vertices (mapX x1) in
  let vertices := push_back vertices (mapY y1) in
  let vertices := push_back vertices (mapX x2) in
  let vertices := push_back vertices (mapY y2) in
  if n <=? 0 then vertices
  else
    match fuel with
    | O => vertices
    | S fuel' =>
        let newn := n - 1 in
        let t := F32.of_double (1 + F32.to_double ratioT)%float in
        let x3 := F32.add (F32.mul (fsub (F32.of_int 1) t) x1) (F32.mul t x2) in
        let y3 := F32.add (F32.mul (fsub (F32.of_int 1) t) y1) (F32.mul t y2) in
        let x3 := fsub x3 x2 in
        let y3 := fsub y3 y2 in
        let half := (F32.to_double angle / 2)%float in
        let vertices :=
          tree_calls fuel' vertices x2 y2
            (F32.of_double (F32.to_double x3 * cos half - F32.to_double y3 * sin half
                            + F32.to_double x2)%float)
            (F32.of_double (F32.to_double x3 * sin half + F32.to_double y3 * cos half
                            + F32.to_double y2)%float)
            angle newn in
        tree_calls fuel' vertices x2 y2
          (F32.of_double (F32.to_double x3 * cos half + F32.to_double y3 * sin half
                          + F32.to_double x2)%float)
          (F32.of_double (F32.to_double (F32.opp x3) * sin half
                          + F32.to_double y3 * cos half + F32.to_double y2)%float)
          angle newn
    end.

Definition tree (vertices : list F32.t) (x1 y1 x2 y2 angle : F32.t) (n : Z)
    : list F32.t :=
  tree_calls (Z.to_nat n) vertices x1 y1 x2 y2 angle n.

(** [main]: tree(400.0, 100.0, 400.0, 300.0, angle, it); points = vertices.size(); *)
Definition main_vertices : list F32.t :=
  tree [] (F32.of_int 400) (F32.of_int 100) (F32.of_int 400) (F32.of_int 300) angle it.

Definition points : Z := Z.of_nat (length main_vertices).
End Libm.

End Tree.

(** ** Vocabulary of the statements *)

(** The iteration z <- z^2 + c, and its j-th value from z = 0. *)
Definition step (c z : Complex) : Complex := Cadd (Cmul z z) c.
Definition orbit_from (c z : Complex) (j : nat) : Complex := Nat.iter j (step c) z.
Definition orbit (c : Complex) (j : nat) : Complex := orbit_from c Complex0 j.

(** "squared magnitude > 2.0" *)
Definition escaped (z : Complex) : bool := (2 <? sqmagnitude z)%float.

(** Classes of binary floating-point values. *)
Definition SFis_nan (x : spec_float) : bool :=
  match x with S754_nan => true | _ => false end.

Definition SFis_finite (x : spec_float) : bool :=
  match x with S754_zero _ | S754_finite _ _ _ => true | _ => false end.

Definition SFsign (x : spec_float) : option bool :=
  match x with
  | S754_nan => None
  | S754_zero s | S754_infinity s | S754_finite s _ _ => Some s
  end.

Definition Cis_nan (z : Complex) : bool := is_nan (_r z) || is_nan (_i z).

(** Two doubles that the program cannot tell apart with [==] or in
    arithmetic that ends in a comparison: identical, or zeros of either sign. *)
Definition same_double (x y : double) : Prop :=
  x = y \/ (is_zero x = true /\ is_zero y = true).

(** The same on the values of the specification, and on complex numbers. *)
Definition SFsame (a b : spec_float) : Prop :=
  a = b \/ (exists s s', a = S754_zero s /\ b = S754_zero s').

Definition Csame (z z' : Complex) : Prop :=
  same_double (_r z) (_r z') /\ same_double (_i z) (_i z').

(** The complex number 0, whatever the signs of its zeros. *)
Definition Cis_zero (z : Complex) : bool := is_zero (_r z) && is_zero (_i z).

Definition Cis_finite (z : Complex) : bool :=
  SFis_finite (Prim2SF (_r z)) && SFis_finite (Prim2SF (_i z)).

(** The binary64 value 2.0 as a specification float. *)
Definition two_SF : spec_float := Eval vm_compute in Prim2SF 2.

(** Heatmap cells are counts kept in a [float]: the integers that
    [++] reaches from 0.  At 2^24 the increment rounds back to 2^24. *)
Definition max_count : Z := 16777216.

Definition is_count (x : HeatmapType) : Prop :=
  exists n, 0 <= n <= max_count /\ x = F32.of_int n.

(** The cell of a heatmap, by position. *)
Definition cell (h : Heatmap) (row col : nat) : option HeatmapType :=
  match h !! row with
  | Some cells => cells !! col
  | None => None
  end.

Definition heatmap_counts (h : Heatmap) : Prop :=
  forall row col v, cell h row col = Some v -> is_count v.

(** The two halves of the body of the loop over the points: where a
    point goes (nowhere, when the filter rejects it), and the update of
    that cell and of the running maximum. *)
Definition target (imageWidth imageHeight : Z) (minimum maximum point : Complex)
    : Result (option (Z * Z)) :=
  if in_rectangle minimum maximum point then
    do row <- rowFromReal (_r point) (_r minimum) (_r maximum) imageHeight ;;
    do col <- colFromImaginary (_i point) (_i minimum) (_i maximum) imageWidth ;;
    Ok (Some (row, col))
  else Ok None.

Definition bump (st : Heatmap * HeatmapType) (row col : Z)
    : Result (Heatmap * HeatmapType) :=
  do v <- heatmap_get (fst st) row col ;;
  let v' := F32.add v F32.one in
  Ok (heatmap_set (fst st) row col v', if F32.ltb (snd st) v' then v' else snd st).

Definition hit (st : Heatmap * HeatmapType) (t : option (Z * Z))
    : Result (Heatmap * HeatmapType) :=
  match t with
  | Some (row, col) => bump st row col
  | None => Ok st
  end.

(** The three channels of [main] and the states its generation passes
    go through: from the freshly allocated heatmaps, one trajectory
    point at a time accumulated into one of the channels. *)
Inductive Channel : Type := Red | Green | Blue.

#[local] Instance Channel_eq_dec : EqDecision Channel.
Proof. solve_decision. Defined.

Definition channel (ch : Channel) (st : Channels) : Heatmap :=
  let '(red, green, blue, _) := st in
  match ch with Red => red | Green => green | Blue => blue end.

Definition with_channel (ch : Channel) (st : Channels) (h : Heatmap)
    (maxHeatmapValue : HeatmapType) : Channels :=
  let '(red, green, blue, _) := st in
  match ch with
  | Red => (h, green, blue, maxHeatmapValue)
  | Green => (red, h, blue, maxHeatmapValue)
  | Blue => (red, green, h, maxHeatmapValue)
  end.

Definition start_channels : Channels :=
  (AllocHeatmap IMAGE_WIDTH IMAGE_HEIGHT, AllocHeatmap IMAGE_WIDTH IMAGE_HEIGHT,
   AllocHeatmap IMAGE_WIDTH IMAGE_HEIGHT, F32.of_int 0).

Inductive generating : Channels -> Prop :=
| generating_start : generating start_channels
| generating_point ch st point h' M' :
    generating st ->
    accumulate IMAGE_WIDTH IMAGE_HEIGHT MINIMUM MAXIMUM (channel ch st, snd st) point
      = Ok (h', M') ->
    generating (with_channel ch st h' M').

(** [maxHeatmapValue] is the maximum over all cells of all channels. *)
Definition running_max (st : Channels) : Prop :=
  (forall ch row col v, cell (channel ch st) row col = Some v ->
     F32.leb v (snd st) = true) /\
  (exists ch row col, cell (channel ch st) row col = Some (snd st)).

Definition all_counts (st : Channels) : Prop :=
  (forall ch, heatmap_counts (channel ch st)) /\ is_count (snd st).

(** if (v > max) max = v *)
Definition fmax (M v : HeatmapType) : HeatmapType :=
  if F32.ltb M v then v else M.

(** The trajectory of a sample, for a budget that [reserve] accepts. *)
Definition trajectory (nIterations : Z) (sample : Complex) : list Complex :=
  match buddhabrotPoints sample nIterations with
  | Ok pointsList => pointsList
  | Err _ => []
  end.

(** The vertex buffer of an image whose three colour components are
    [colour] at every pixel. *)
Definition pixel (colour : F32.t) (row col : Z) : list F32.t :=
  [ F32.opp (mapX (F32.of_int col)); F32.opp (mapY (F32.of_int row)); F32.of_int 0;
    colour; colour; colour ].

Definition uniform_vertices (colour : F32.t) : list F32.t :=
  flat_map (fun row => flat_map (fun col => pixel colour row col) (seqZ 0 IMAGE_WIDTH))
    (seqZ 0 IMAGE_HEIGHT).

(** Every cell of the image exists in the heatmap. *)
Definition full_size (h : Heatmap) : Prop :=
  forall row col, (row < Z.to_nat IMAGE_HEIGHT)%nat -> (col < Z.to_nat IMAGE_WIDTH)%nat ->
    is_Some (cell h row col).

(** The rational number a finite binary float stands for, and the
    integer part of a rational, toward zero. *)
Definition SF2Q (x : spec_float) : Q :=
  match x with
  | S754_finite s m e => (inject_Z (cond_Zopp s (Zpos m)) * 2 ^ e)%Q
  | _ => 0%Q
  end.

Definition D2Q (x : double) : Q := SF2Q (Prim2SF x).

Definition Qtrunc (q : Q) : Z := if Qle_bool 0 q then Qfloor q else Qceiling q.

(** ** The accuracy of the coordinate mapper *)

(** The product that the mapper truncates. *)
Definition mapper_product (value minR maxR : double) (imageHeight : Z) : double :=
  ((value - minR) * (double_of_int imageHeight / (maxR - minR)))%float.

(** The real number whose integer part the mapper is meant to return. *)
Definition exact_index (value minR maxR : double) (imageHeight : Z) : Q :=
  ((D2Q value - D2Q minR) * inject_Z imageHeight / (D2Q maxR - D2Q minR))%Q.

(** Half a unit in the last place of a double, relative to its value:
    2^-53. *)
Definition unit_roundoff : Q := 1 # 9007199254740992.

(** [V] is [X] up to one rounding to nearest. *)
Definition near (X V : Q) : Prop :=
  ((1 - unit_roundoff) * X <= V <= (1 + unit_roundoff) * X)%Q.

(** Half of the smallest positive double: 2^-1075. *)
Definition half_tiny : Q := (2 ^ (-1075))%Q.

(** The accuracy of the mapper: imageHeight * 2^-50. *)
Definition mapper_slack (imageHeight : Z) : Q :=
  (inject_Z imageHeight * (1 # 1125899906842624))%Q.

(** ** Normalisation *)

(** Round to nearest, ties to even, of P / 2^n. *)
Definition rne (P n : Z) : Z :=
  round_nearest_even (Z.shiftr P n)
    (loc_of_shr_record
       (Build_shr_record (Z.shiftr P n) (Z.testbit P (n - 1))
          (negb (P mod 2 ^ (n - 1) =? 0)))).

(** The largest float below 1. *)
Definition F32_pred_one : F32.t := S754_finite false 16777215 (-24).

(** ** Vocabulary for the properties of the rest of the code *)

(** The dimensions of a heatmap: the length of each of its rows. *)
Definition shape (h : Heatmap) : list nat := map length h.

(** Every cell of [h] is still there in [h'] and holds at least as much. *)
Definition heatmap_le (h h' : Heatmap) : Prop :=
  forall row col v, cell h row col = Some v ->
    exists v', cell h' row col = Some v' /\ F32.leb v v' = true.

(** The value that [main] reads in a cell, and the six floats that it
    pushes for the pixel of that cell. *)
Definition cell_value (h : Heatmap) (row col : Z) : HeatmapType :=
  match heatmap_get h row col with
  | Ok v => v
  | Err _ => F32.of_int 0
  end.

Definition vertex (st : Channels) (row col : Z) : list F32.t :=
  let '(red, green, blue, maxHeatmapValue) := st in
  [ F32.opp (mapX (F32.of_int col)); F32.opp (mapY (F32.of_int row)); F32.of_int 0;
    colorFromHeatmap (cell_value red row col) maxHeatmapValue (F32.of_int 1);
    colorFromHeatmap (cell_value green row col) maxHeatmapValue (F32.of_int 1);
    colorFromHeatmap (cell_value blue row col) maxHeatmapValue (F32.of_int 1) ].

(** Between 0 and 1, and between -1 and 1. *)
Definition in_unit (x : F32.t) : bool :=
  F32.leb (F32.of_int 0) x && F32.leb x (F32.of_int 1).

Definition in_clip (x : F32.t) : bool :=
  F32.leb (F32.of_int (-1)) x && F32.leb x (F32.of_int 1).

(** The line segments of a vertex buffer of [tree.cpp]: four floats
    each, the two coordinates of the start and of the end point. *)
Fixpoint segments (l : list F32.t) : list (F32.t * F32.t * F32.t * F32.t) :=
  match l with
  | a :: b :: c :: d :: rest => (a, b, c, d) :: segments rest
  | _ => []
  end.

Definition seg_start (s : F32.t * F32.t * F32.t * F32.t) : F32.t * F32.t :=
  let '(a, b, _, _) := s in (a, b).

Definition seg_end (s : F32.t * F32.t * F32.t * F32.t) : F32.t * F32.t :=
  let '(_, _, c, d) := s in (c, d).

(** Every segment but the first starts where an earlier one ends. *)
Definition connected (segs : list (F32.t * F32.t * F32.t * F32.t)) : Prop :=
  forall i s, segs !! S i = Some s ->
    exists j s', (j <= i)%nat /\ segs !! j = Some s' /\ seg_end s' = seg_start s.

(** The mirror image of a point in the real axis. *)
Definition Cconj (z : Complex) : Complex := mkComplex (_r z) (- _i z)%float.

(** * Facts about binary floating-point rounding *)

Section Rounding.
Variables prec emax : Z.

Lemma iter_pos_invariant {A : Type} (P : A -> Prop) (f : A -> A) :
  (forall x, P x -> P (f x)) -> forall p x, P x -> P (SpecFloat.iter_pos f p x).
Proof.
  intros Hf. induction p as [p IH | p IH |]; intros x Hx; simpl; auto.
Qed.

Lemma shr_1_nonneg mrs : 0 <= shr_m mrs -> 0 <= shr_m (shr_1 mrs).
Proof.
  destruct mrs as [m r s]. simpl. intros Hm.
  destruct m as [| [p | p |] | p]; simpl; lia.
Qed.

Lemma shr_nonneg mrs e n : 0 <= shr_m mrs -> 0 <= shr_m (fst (shr mrs e n)).
Proof.
  intros Hm. unfold shr. destruct n; simpl; auto.
  apply (iter_pos_invariant (fun x => 0 <= shr_m x)); auto using shr_1_nonneg.
Qed.

Lemma shr_fexp_nonneg m e l : 0 <= m -> 0 <= shr_m (fst (shr_fexp prec emax m e l)).
Proof.
  intros Hm. unfold shr_fexp. apply shr_nonneg.
  destruct l as [| []]; simpl; auto.
Qed.

Lemma round_nearest_even_nonneg m l : 0 <= m -> 0 <= round_nearest_even m l.
Proof.
  intros Hm. destruct l as [| []]; simpl; try lia.
  destruct (Z.even m); lia.
Qed.

Lemma binary_round_aux_sign sx mx ex lx :
  0 <= mx -> SFsign (binary_round_aux prec emax sx mx ex lx) = Some sx.
Proof.
  intros Hm. unfold binary_round_aux.
  pose proof (shr_fexp_nonneg mx ex lx Hm) as H1.
  destruct (shr_fexp prec emax mx ex lx) as [mrs' e'].
  simpl in H1.
  pose proof (shr_fexp_nonneg _ e' loc_Exact
                (round_nearest_even_nonneg _ (loc_of_shr_record mrs') H1)) as H2.
  destruct (shr_fexp prec emax _ e' loc_Exact) as [mrs'' e''].
  simpl in H2.
  destruct (shr_m mrs'') as [| p | p]; try lia; simpl; auto.
  destruct (e'' <=? emax - prec); reflexivity.
Qed.

Lemma binary_round_sign sx mx ex :
  SFsign (binary_round prec emax sx mx ex) = Some sx.
Proof.
  unfold binary_round.
  destruct (shl_align mx ex _) as [mz ez].
  apply binary_round_aux_sign. lia.
Qed.

Lemma binary_normalize_not_nan m e szero :
  SFis_nan (binary_normalize prec emax m e szero) = false.
Proof.
  destruct m as [| p | p]; simpl; auto.
  - pose proof (binary_round_sign false p e). destruct (binary_round _ _ _ _ _); simpl in *; congruence.
  - pose proof (binary_round_sign true p e). destruct (binary_round _ _ _ _ _); simpl in *; congruence.
Qed.
End Rounding.

Lemma SFcompare_antisym x y : SFcompare y x = option_map CompOpp (SFcompare x y).
Proof.
  destruct x as [sx | sx | | sx mx ex], y as [sy | sy | | sy my ey]; simpl; auto;
    try (destruct sx; reflexivity); try (destruct sy; reflexivity);
    try (destruct sx, sy; reflexivity).
  f_equal. rewrite (Z.compare_antisym ex ey).
  pose proof (Pos.compare_cont_antisym mx my Eq) as Hm. simpl in Hm.
  destruct sx, sy; simpl; auto; destruct (ex ?= ey); simpl; auto;
    rewrite <- Hm; auto.
Qed.

Lemma SFltb_SFleb_false x y : SFltb y x = true -> SFleb x y = false.
Proof.
  unfold SFltb, SFleb. rewrite (SFcompare_antisym x y).
  destruct (SFcompare x y) as [[]|]; simpl; congruence.
Qed.

Lemma SFcompare_not_nan x y :
  SFis_nan x = false -> SFis_nan y = false -> exists c, SFcompare x y = Some c.
Proof.
  destruct x, y; simpl; intros; try discriminate; eauto.
Qed.

Lemma SFleb_total x y :
  SFis_nan x = false -> SFis_nan y = false -> SFltb y x = false -> SFleb x y = true.
Proof.
  intros Hx Hy. destruct (SFcompare_not_nan x y Hx Hy) as [c Hc].
  unfold SFltb, SFleb. rewrite (SFcompare_antisym x y), Hc.
  destruct c; simpl; congruence.
Qed.

(** ** NaN, sign and finiteness through the binary operations *)

Section Operations.
Variables prec emax : Z.

Lemma SFmul_comm x y : SFmul prec emax x y = SFmul prec emax y x.
Proof.
  destruct x as [sx | sx | | sx mx ex], y as [sy | sy | | sy my ey]; simpl;
    rewrite ?(xorb_comm sx sy); auto.
  now rewrite (Pos.mul_comm mx my), (Z.add_comm ex ey).
Qed.

Lemma SFmul_nan_l y : SFmul prec emax S754_nan y = S754_nan.
Proof. reflexivity. Qed.

Lemma SFmul_nan_r x : SFmul prec emax x S754_nan = S754_nan.
Proof. now destruct x. Qed.

Lemma SFadd_nan_l y : SFadd prec emax S754_nan y = S754_nan.
Proof. reflexivity. Qed.

Lemma SFadd_nan_r x : SFadd prec emax x S754_nan = S754_nan.
Proof. now destruct x. Qed.

Lemma SFsub_nan_l y : SFsub prec emax S754_nan y = S754_nan.
Proof. reflexivity. Qed.

Lemma SFsub_nan_r x : SFsub prec emax x S754_nan = S754_nan.
Proof. now destruct x. Qed.

(** A product has the exclusive-or of the signs, unless it is NaN. *)
Lemma SFmul_sign x y sx sy :
  SFsign x = Some sx -> SFsign y = Some sy ->
  SFis_nan (SFmul prec emax x y) = false ->
  SFsign (SFmul prec emax x y) = Some (xorb sx sy).
Proof.
  destruct x as [s1 | s1 | | s1 mx ex], y as [s2 | s2 | | s2 my ey]; simpl;
    intros H1 H2 Hn; try discriminate; inversion H1; inversion H2; subst; auto.
  apply binary_round_aux_sign. lia.
Qed.

Lemma SFmul_finite_not_nan x y :
  SFis_finite x = true -> SFis_finite y = true ->
  SFis_nan (SFmul prec emax x y) = false.
Proof.
  destruct x as [s1 | s1 | | s1 mx ex], y as [s2 | s2 | | s2 my ey]; simpl;
    intros H1 H2; try discriminate; auto.
  pose proof (binary_round_aux_sign prec emax (xorb s1 s2)
                (Zpos (mx * my)) (ex + ey) loc_Exact) as H.
  destruct (binary_round_aux _ _ _ _ _ _); simpl in *; auto.
  discriminate H. lia.
Qed.

(** A square is NaN only for NaN, and is never negative. *)
Lemma SFmul_self_nan x : SFis_nan (SFmul prec emax x x) = SFis_nan x.
Proof.
  destruct x as [s | s | | s m e]; simpl; auto.
  pose proof (binary_round_aux_sign prec emax (xorb s s)
                (Zpos (m * m)) (e + e) loc_Exact) as H.
  destruct (binary_round_aux _ _ _ _ _ _); simpl in *; auto.
  discriminate H. lia.
Qed.

Lemma SFmul_self_sign x :
  SFis_nan x = false -> SFsign (SFmul prec emax x x) = Some false.
Proof.
  intros Hx. destruct (SFsign x) as [s|] eqn:Hs.
  - rewrite (SFmul_sign x x s s Hs Hs), xorb_nilpotent; auto.
    now rewrite SFmul_self_nan.
  - destruct x; simpl in *; discriminate.
Qed.

Lemma SFadd_finite_not_nan x y :
  SFis_nan x = false -> SFis_nan y = false ->
  SFis_finite x = true \/ SFis_finite y = true \/ SFsign x = SFsign y ->
  SFis_nan (SFadd prec emax x y) = false.
Proof.
  destruct x as [s1 | s1 | | s1 mx ex], y as [s2 | s2 | | s2 my ey]; simpl;
    intros H1 H2 H; try discriminate; auto;
    try (destruct s1, s2; reflexivity).
  - destruct H as [H | [H | H]]; try discriminate.
    inversion H; subst. now destruct s2.
  - apply binary_normalize_not_nan.
Qed.

Lemma SFsub_finite_not_nan x y :
  SFis_finite x = true -> SFis_finite y = true ->
  SFis_nan (SFsub prec emax x y) = false.
Proof.
  destruct x as [s1 | s1 | | s1 mx ex], y as [s2 | s2 | | s2 my ey]; simpl;
    intros H1 H2; try discriminate; auto;
    try (destruct s1, s2; reflexivity).
  apply binary_normalize_not_nan.
Qed.

(** The sum of two values that are not negative is not negative. *)
Lemma SFadd_sign_false x y :
  SFsign x = Some false -> SFsign y = Some false ->
  SFsign (SFadd prec emax x y) = Some false.
Proof.
  destruct x as [s1 | s1 | | s1 mx ex], y as [s2 | s2 | | s2 my ey]; simpl;
    intros H1 H2; try discriminate; inversion H1; inversion H2; subst; auto.
  destruct (shl_align mx ex _) as [m1 e1], (shl_align my ey _) as [m2 e2]; simpl.
  apply binary_round_sign.
Qed.
End Operations.

(** ** The same facts on [double], through the specification of the
    primitive operations *)

Lemma Prim2SF_is_nan x : SFis_nan (Prim2SF x) = is_nan x.
Proof.
  unfold Prim2SF. destruct (is_nan x); [reflexivity|].
  destruct (is_zero x); [reflexivity|].
  destruct (is_infinity x); [reflexivity|].
  destruct (Z.frexp x) as [r e].
  destruct (shr_fexp _ _ _ _ _) as [mrs e'].
  destruct (shr_m mrs); reflexivity.
Qed.

Lemma Prim2SF_two : Prim2SF 2 = two_SF.
Proof. reflexivity. Qed.

Lemma sqmagnitude_spec z :
  Prim2SF (sqmagnitude z) =
  SF64add (SF64mul (Prim2SF (_r z)) (Prim2SF (_r z)))
          (SF64mul (Prim2SF (_i z)) (Prim2SF (_i z))).
Proof. unfold sqmagnitude. now rewrite add_spec, !mul_spec. Qed.

Lemma sqmagnitude_is_nan z : is_nan (sqmagnitude z) = Cis_nan z.
Proof.
  unfold Cis_nan. rewrite <- !Prim2SF_is_nan, sqmagnitude_spec.
  unfold SF64add, SF64mul.
  destruct (SFis_nan (Prim2SF (_r z))) eqn:Hr.
  { destruct (Prim2SF (_r z)); try discriminate. reflexivity. }
  destruct (SFis_nan (Prim2SF (_i z))) eqn:Hi.
  { destruct (Prim2SF (_i z)); try discriminate.
    now rewrite SFmul_nan_l, SFadd_nan_r. }
  simpl. apply SFadd_finite_not_nan.
  - now rewrite SFmul_self_nan.
  - now rewrite SFmul_self_nan.
  - right; right. now rewrite !SFmul_self_sign.
Qed.

Lemma step_is_nan c z : Cis_nan z = true -> Cis_nan (step c z) = true.
Proof.
  unfold Cis_nan, step, Cadd, Cmul; simpl.
  rewrite <- !Prim2SF_is_nan, !add_spec, !sub_spec, !mul_spec.
  unfold SF64add, SF64sub, SF64mul.
  intros H. apply orb_true_iff in H. apply orb_true_iff. left.
  destruct H as [H | H].
  - destruct (Prim2SF (_r z)); try discriminate. reflexivity.
  - destruct (Prim2SF (_i z)); try discriminate.
    now rewrite SFmul_nan_l, SFsub_nan_r.
Qed.

Lemma orbit_from_is_nan c z j :
  Cis_nan z = true -> Cis_nan (orbit_from c z j) = true.
Proof.
  intros H. induction j; simpl; auto using step_is_nan.
Qed.

Lemma escaped_not_le z : escaped z = true -> (sqmagnitude z <=? 2)%float = false.
Proof.
  unfold escaped. rewrite ltb_spec, leb_spec. apply SFltb_SFleb_false.
Qed.

Lemma not_escaped_le z :
  Cis_nan z = false -> escaped z = false -> (sqmagnitude z <=? 2)%float = true.
Proof.
  unfold escaped. rewrite ltb_spec, leb_spec. intros Hn.
  apply SFleb_total; [|reflexivity].
  now rewrite Prim2SF_is_nan, sqmagnitude_is_nan.
Qed.

Lemma escaped_not_nan z : escaped z = true -> Cis_nan z = false.
Proof.
  unfold escaped. rewrite ltb_spec, <- sqmagnitude_is_nan, <- Prim2SF_is_nan.
  destruct (Prim2SF (sqmagnitude z)); simpl; auto.
Qed.

(** ** The loop of [buddhabrotPoints] *)

Lemma orbit_from_S c z j : orbit_from c z (S j) = orbit_from c (step c z) j.
Proof. unfold orbit_from. apply Nat.iter_succ_r. Qed.

Lemma orbit_from_add c z j k :
  orbit_from c z (j + k) = orbit_from c (orbit_from c z j) k.
Proof.
  unfold orbit_from. rewrite Nat.add_comm. apply Nat.iter_add.
Qed.

Lemma buddhabrot_loop_continue k : forall fuel c B n z acc,
  (k <= fuel)%nat -> n + Z.of_nat k <= B ->
  (forall j, (j < k)%nat -> (sqmagnitude (orbit_from c z j) <=? 2)%float = true) ->
  buddhabrot_loop fuel c B n z acc =
  buddhabrot_loop (fuel - k) c B (n + Z.of_nat k) (orbit_from c z k)
    (acc ++ map (orbit_from c z) (seq 1 k)).
Proof.
  induction k as [|k IH]; intros fuel c B n z acc Hf Hn Hb.
  - simpl. now rewrite Nat.sub_0_r, Z.add_0_r, app_nil_r.
  - destruct fuel as [|fuel]; [lia|]. simpl buddhabrot_loop at 1.
    unfold loop_guard.
    replace (n <? B) with true by (symmetry; apply Z.ltb_lt; lia).
    assert (H0 : (sqmagnitude z <=? 2)%float = true) by (apply (Hb 0%nat); lia).
    rewrite H0. simpl andb. cbv iota.
    change (Cadd (Cmul z z) c) with (step c z).
    rewrite (IH fuel c B (n + 1) (step c z)); try lia.
    + replace (S fuel - S k)%nat with (fuel - k)%nat by lia.
      replace (n + 1 + Z.of_nat k) with (n + Z.of_nat (S k)) by lia.
      rewrite orbit_from_S. f_equal.
      rewrite <- app_assoc. f_equal.
      change (seq 1 (S k)) with (1%nat :: seq 2 k).
      rewrite <- (seq_shift k 1), map_cons, map_map. f_equal.
      apply map_ext. intros j. symmetry. apply orbit_from_S.
    + intros j Hj. rewrite <- (orbit_from_S c z j). apply Hb. lia.
Qed.

(** The fuel [nIterations] is enough: the loop always stops on a false guard. *)
Lemma buddhabrot_loop_exits fuel : forall c B n z acc,
  B - n <= Z.of_nat fuel ->
  let '(n', z', _) := buddhabrot_loop fuel c B n z acc in
  loop_guard B n' z' = false.
Proof.
  induction fuel as [|fuel IH]; intros c B n z acc Hf; simpl.
  - unfold loop_guard. replace (n <? B) with false; auto.
    symmetry. apply Z.ltb_ge. lia.
  - destruct (loop_guard B n z) eqn:Hg; auto.
    apply IH. lia.
Qed.

Lemma buddhabrotPoints_bounded c B :
  0 <= B ->
  (forall j, (j < Z.to_nat B)%nat -> (sqmagnitude (orbit c j) <=? 2)%float = true) ->
  buddhabrotPoints c B = Ok [].
Proof.
  intros HB Hb. unfold buddhabrotPoints.
  replace (B <? 0) with false by (symmetry; apply Z.ltb_ge; lia).
  rewrite (buddhabrot_loop_continue (Z.to_nat B)); auto; try lia.
  rewrite Nat.sub_diag. simpl.
  replace (0 + Z.of_nat (Z.to_nat B) =? B) with true; auto.
  symmetry. apply Z.eqb_eq. lia.
Qed.

Lemma buddhabrotPoints_escaping c B k :
  Z.of_nat k < B ->
  (forall j, (j < k)%nat -> (sqmagnitude (orbit c j) <=? 2)%float = true) ->
  (sqmagnitude (orbit c k) <=? 2)%float = false ->
  buddhabrotPoints c B = Ok (map (orbit c) (seq 1 k)).
Proof.
  intros HB Hb He. unfold buddhabrotPoints.
  replace (B <? 0) with false by (symmetry; apply Z.ltb_ge; lia).
  rewrite (buddhabrot_loop_continue k); auto; try lia.
  destruct (Z.to_nat B - k)%nat as [|fuel] eqn:Hfuel; [lia|].
  simpl. unfold loop_guard. fold (orbit c k). rewrite He, andb_false_r.
  replace (0 + Z.of_nat k =? B) with false; auto.
  symmetry. apply Z.eqb_neq. lia.
Qed.

(** Every run of the loop is a prefix of the orbit. *)
Lemma buddhabrot_loop_result fuel : forall c B n z acc,
  exists k, (k <= fuel)%nat /\
    buddhabrot_loop fuel c B n z acc =
      (n + Z.of_nat k, orbit_from c z k, acc ++ map (orbit_from c z) (seq 1 k)) /\
    forall j, (j < k)%nat -> (sqmagnitude (orbit_from c z j) <=? 2)%float = true.
Proof.
  induction fuel as [|fuel IH]; intros c B n z acc.
  - exists 0%nat. simpl. rewrite Z.add_0_r, app_nil_r. repeat split; auto. lia.
  - simpl. destruct (loop_guard B n z) eqn:Hg.
    + destruct (IH c B (n + 1) (step c z) (acc ++ [step c z])) as (k & Hk & Heq & Hb).
      exists (S k). split; [lia|]. split.
      * change (Cadd (Cmul z z) c) with (step c z). rewrite Heq.
        rewrite orbit_from_S. f_equal; [f_equal; lia|].
        rewrite <- app_assoc. f_equal.
        change (seq 1 (S k)) with (1%nat :: seq 2 k).
        rewrite <- (seq_shift k 1), map_cons, map_map. f_equal.
        apply map_ext. intros j. symmetry. apply orbit_from_S.
      * intros [|j] Hj.
        -- unfold loop_guard in Hg. apply andb_true_iff in Hg. apply Hg.
        -- rewrite orbit_from_S. apply Hb. lia.
    + exists 0%nat. simpl. rewrite Z.add_0_r, app_nil_r. repeat split; auto; lia.
Qed.

(** What a non-empty result of [buddhabrotPoints] is. *)
Lemma buddhabrotPoints_inv c B l :
  buddhabrotPoints c B = Ok l -> l <> [] ->
  exists k, (1 <= k)%nat /\ Z.of_nat k < B /\ l = map (orbit c) (seq 1 k) /\
    (forall j, (j < k)%nat -> (sqmagnitude (orbit c j) <=? 2)%float = true) /\
    (sqmagnitude (orbit c k) <=? 2)%float = false.
Proof.
  unfold buddhabrotPoints. destruct (B <? 0) eqn:HB; [discriminate|].
  apply Z.ltb_ge in HB.
  pose proof (buddhabrot_loop_exits (Z.to_nat B) c B 0 Complex0 []) as Hex.
  destruct (buddhabrot_loop_result (Z.to_nat B) c B 0 Complex0 []) as (k & Hk & Heq & Hb).
  rewrite Heq in *. rewrite Z.add_0_l in *. simpl in Hex |- *.
  destruct (Z.of_nat k =? B) eqn:HkB; intros Hl Hne; inversion Hl; subst;
    [now destruct Hne|].
  apply Z.eqb_neq in HkB.
  exists k. repeat split; auto; try lia.
  - destruct k; [|lia]. contradiction.
  - specialize (Hex ltac:(lia)). unfold loop_guard in Hex.
    replace (Z.of_nat k <? B) with true in Hex by (symmetry; apply Z.ltb_lt; lia).
    exact Hex.
Qed.

(** ** The first iterate *)

Lemma step_Complex0 c : step c Complex0 = mkComplex (0 + _r c) (0 + _i c).
Proof. reflexivity. Qed.

Lemma is_zero_spec x :
  is_zero x = match Prim2SF x with S754_zero _ => true | _ => false end.
Proof.
  unfold is_zero. rewrite FloatAxioms.eqb_spec.
  change (Prim2SF zero) with (S754_zero false).
  destruct (Prim2SF x) as [s | s | | s m e]; try reflexivity; now destruct s.
Qed.

Lemma add_zero_l x : same_double (0 + x) x.
Proof.
  unfold same_double. rewrite !is_zero_spec.
  pose proof (add_spec 0 x) as H. change (Prim2SF 0) with (S754_zero false) in H.
  destruct (Prim2SF x) as [s | s | | s m e] eqn:Hx.
  - right. rewrite H. simpl. now destruct s.
  - left. apply Prim2SF_inj. now rewrite H, Hx.
  - left. apply Prim2SF_inj. now rewrite H, Hx.
  - left. apply Prim2SF_inj. now rewrite H, Hx.
Qed.

(** ** Bounded iterates are finite *)

Lemma SFis_finite_not_nan x : SFis_finite x = true -> SFis_nan x = false.
Proof. now destruct x. Qed.

Lemma SFsquares_le_two_finite prec emax a b :
  SFleb (SFadd prec emax (SFmul prec emax a a) (SFmul prec emax b b)) two_SF = true ->
  SFis_finite a = true /\ SFis_finite b = true /\
  SFis_finite (SFmul prec emax a a) = true /\ SFis_finite (SFmul prec emax b b) = true.
Proof.
  intros H.
  destruct (SFis_nan a) eqn:Ha.
  { destruct a; discriminate. }
  destruct (SFis_nan b) eqn:Hb.
  { destruct b; try discriminate. rewrite SFmul_nan_l, SFadd_nan_r in H. discriminate H. }
  pose proof (SFmul_self_sign prec emax a Ha) as Sa.
  pose proof (SFmul_self_sign prec emax b Hb) as Sb.
  assert (Fa : SFis_finite (SFmul prec emax a a) = true /\
               SFis_finite (SFmul prec emax b b) = true).
  { destruct (SFmul prec emax a a) as [s1 | s1 | | s1 m1 e1],
             (SFmul prec emax b b) as [s2 | s2 | | s2 m2 e2];
      simpl in Sa, Sb; try discriminate; auto;
      inversion Sa; inversion Sb; subst; discriminate H. }
  destruct Fa as [Fa Fb]. repeat split; auto.
  - destruct a; try discriminate; auto.
  - destruct b; try discriminate; auto.
Qed.

Lemma le_two_finite z : (sqmagnitude z <=? 2)%float = true -> Cis_finite z = true.
Proof.
  rewrite leb_spec, sqmagnitude_spec, Prim2SF_two. intros H.
  apply SFsquares_le_two_finite in H. unfold Cis_finite.
  destruct H as (-> & -> & _). reflexivity.
Qed.

Lemma step_not_nan c z :
  Cis_finite c = true -> (sqmagnitude z <=? 2)%float = true ->
  Cis_nan (step c z) = false.
Proof.
  unfold Cis_finite. intros Hc. apply andb_true_iff in Hc. destruct Hc as [Hcr Hci].
  rewrite leb_spec, sqmagnitude_spec, Prim2SF_two. intros H.
  apply SFsquares_le_two_finite in H. destruct H as (Hr & Hi & Hrr & Hii).
  unfold Cis_nan, step, Cadd, Cmul; simpl.
  rewrite <- !Prim2SF_is_nan, !add_spec, !sub_spec, !mul_spec.
  unfold SF64add, SF64sub, SF64mul in *.
  apply orb_false_iff. split.
  - apply SFadd_finite_not_nan; auto using SFis_finite_not_nan.
    apply SFsub_finite_not_nan; auto.
  - apply SFadd_finite_not_nan; auto using SFis_finite_not_nan.
    rewrite (SFmul_comm prec emax (Prim2SF (_i z))).
    apply SFadd_finite_not_nan; auto using SFmul_finite_not_nan.
Qed.

Lemma first_iterate_not_nan c : Cis_nan c = false -> Cis_nan (step c Complex0) = false.
Proof.
  rewrite step_Complex0. unfold Cis_nan; simpl.
  rewrite <- !Prim2SF_is_nan, !add_spec. change (Prim2SF 0) with (S754_zero false).
  intros H. apply orb_false_iff in H. destruct H as [Hr Hi].
  apply orb_false_iff. split; apply SFadd_finite_not_nan; auto.
Qed.

Lemma first_iterate_finite c : Cis_finite (step c Complex0) = true -> Cis_finite c = true.
Proof.
  rewrite step_Complex0. unfold Cis_finite; simpl.
  rewrite !add_spec. change (Prim2SF 0) with (S754_zero false).
  intros H. apply andb_true_iff in H. destruct H as [Hr Hi].
  apply andb_true_iff. split.
  - destruct (Prim2SF (_r c)) as [[]| | |]; auto.
  - destruct (Prim2SF (_i c)) as [[]| | |]; auto.
Qed.

Lemma sqmagnitude_Complex0 : (sqmagnitude Complex0 <=? 2)%float = true.
Proof. reflexivity. Qed.

(** If no iterate up to the [n]-th has escaped, none of them is NaN and
    all of them pass the test of the loop. *)
Lemma bounded_orbit_le_two c n :
  Cis_nan c = false ->
  (forall j, (1 <= j <= n)%nat -> escaped (orbit c j) = false) ->
  forall j, (j <= n)%nat ->
    Cis_nan (orbit c j) = false /\ (sqmagnitude (orbit c j) <=? 2)%float = true.
Proof.
  intros Hc Hb.
  assert (H1 : (1 <= n)%nat -> Cis_finite c = true).
  { intros Hn. apply first_iterate_finite. apply le_two_finite.
    apply (not_escaped_le (orbit c 1)); [now apply first_iterate_not_nan|].
    apply Hb. lia. }
  induction j as [|j IH]; intros Hj.
  - split; [reflexivity | apply sqmagnitude_Complex0].
  - destruct IH as [_ IH]; [lia|].
    assert (Hn : Cis_nan (orbit c (S j)) = false).
    { change (orbit c (S j)) with (step c (orbit c j)).
      apply step_not_nan; auto. apply H1. lia. }
    split; auto. apply not_escaped_le; auto. apply Hb. lia.
Qed.

Lemma map_fmap {A B : Type} (f : A -> B) (l : list A) : map f l = f <$> l.
Proof. reflexivity. Qed.

Lemma lookup_orbit_prefix (f : nat -> Complex) k i z :
  map f (seq 1 k) !! i = Some z -> (i < k)%nat /\ z = f (S i).
Proof.
  rewrite map_fmap, list_lookup_fmap. intros H.
  destruct (seq 1 k !! i) as [j|] eqn:Hj; [|discriminate].
  apply lookup_seq in Hj. destruct Hj as [-> Hi]. simpl in H. inversion H. auto.
Qed.

Lemma last_orbit_prefix (f : nat -> Complex) k :
  last (map f (seq 1 (S k))) = Some (f (S k)).
Proof.
  rewrite map_fmap, fmap_last, last_lookup, length_seq.
  change (Nat.pred (S k)) with k.
  rewrite lookup_seq_lt by lia. reflexivity.
Qed.

(** * Zeros of either sign *)

Lemma same_double_spec x y : same_double x y <-> SFsame (Prim2SF x) (Prim2SF y).
Proof.
  unfold same_double, SFsame. rewrite !is_zero_spec. split.
  - intros [-> | [Hx Hy]]; [now left | right].
    destruct (Prim2SF x) as [s| | |]; try discriminate.
    destruct (Prim2SF y) as [s'| | |]; try discriminate. eauto.
  - intros [H | (s & s' & -> & ->)]; [left; now apply Prim2SF_inj | right; auto].
Qed.

Lemma SFsame_refl a : SFsame a a.
Proof. now left. Qed.

Section SameOperations.
Variables prec emax : Z.

Lemma SFmul_same a a' b b' :
  SFsame a a' -> SFsame b b' -> SFsame (SFmul prec emax a b) (SFmul prec emax a' b').
Proof.
  intros [-> | (s & s' & -> & ->)] [-> | (t & t' & -> & ->)].
  - apply SFsame_refl.
  - destruct a' as [u|u| |u m e]; simpl; try apply SFsame_refl; right; eauto.
  - destruct b' as [u|u| |u m e]; simpl; try apply SFsame_refl; right; eauto.
  - right. simpl. eauto.
Qed.

Lemma SFadd_same a a' b b' :
  SFsame a a' -> SFsame b b' -> SFsame (SFadd prec emax a b) (SFadd prec emax a' b').
Proof.
  intros [-> | (s & s' & -> & ->)] [-> | (t & t' & -> & ->)].
  - apply SFsame_refl.
  - destruct a' as [u|u| |u m e]; simpl; try apply SFsame_refl.
    right. destruct u, t, t'; eauto.
  - destruct b' as [u|u| |u m e]; simpl; try apply SFsame_refl.
    right. destruct u, s, s'; eauto.
  - right. simpl. destruct s, s', t, t'; eauto.
Qed.

Lemma SFsub_same a a' b b' :
  SFsame a a' -> SFsame b b' -> SFsame (SFsub prec emax a b) (SFsub prec emax a' b').
Proof.
  intros [-> | (s & s' & -> & ->)] [-> | (t & t' & -> & ->)].
  - apply SFsame_refl.
  - destruct a' as [u|u| |u m e]; simpl; try apply SFsame_refl.
    right. destruct u, t, t'; eauto.
  - destruct b' as [u|u| |u m e]; simpl; try apply SFsame_refl.
    right. destruct u, s, s'; eauto.
  - right. simpl. destruct s, s', t, t'; eauto.
Qed.
End SameOperations.

Lemma SFcompare_same a a' b :
  SFsame a a' -> SFcompare a b = SFcompare a' b.
Proof.
  intros [-> | (s & s' & -> & ->)]; [reflexivity|].
  now destruct b.
Qed.

Lemma same_double_mul x x' y y' :
  same_double x x' -> same_double y y' -> same_double (x * y) (x' * y').
Proof.
  rewrite !same_double_spec, !mul_spec. apply SFmul_same.
Qed.

Lemma same_double_add x x' y y' :
  same_double x x' -> same_double y y' -> same_double (x + y) (x' + y').
Proof.
  rewrite !same_double_spec, !add_spec. apply SFadd_same.
Qed.

Lemma same_double_sub x x' y y' :
  same_double x x' -> same_double y y' -> same_double (x - y) (x' - y').
Proof.
  rewrite !same_double_spec, !sub_spec. apply SFsub_same.
Qed.

Lemma same_double_refl x : same_double x x.
Proof. now left. Qed.

Lemma same_double_leb x x' y : same_double x x' -> (x <=? y)%float = (x' <=? y)%float.
Proof.
  rewrite same_double_spec, !leb_spec. unfold SFleb. intros H.
  now rewrite (SFcompare_same _ _ _ H).
Qed.

Lemma step_same c z z' : Csame z z' -> Csame (step c z) (step c z').
Proof.
  intros [Hr Hi]. split; simpl.
  - apply same_double_add; [|apply same_double_refl].
    apply same_double_sub; apply same_double_mul; assumption.
  - apply same_double_add; [|apply same_double_refl].
    apply same_double_add; apply same_double_mul; assumption.
Qed.

Lemma sqmagnitude_same z z' :
  Csame z z' -> same_double (sqmagnitude z) (sqmagnitude z').
Proof.
  intros [Hr Hi]. apply same_double_add; apply same_double_mul; assumption.
Qed.

(** An orbit that comes back to zero starts again. *)
Lemma orbit_zero_periodic c j i :
  Cis_zero (orbit c j) = true -> Csame (orbit c (j + i)) (orbit c i).
Proof.
  intros Hz. induction i as [|i IH].
  - rewrite Nat.add_0_r. apply andb_true_iff in Hz. destruct Hz as [Hr Hi].
    split; right; split; auto.
  - rewrite Nat.add_succ_r. apply (step_same c _ _ IH).
Qed.

(** No recorded point is zero: the orbit would repeat and never escape. *)
Lemma recorded_not_zero c k j :
  (forall i, (i < k)%nat -> (sqmagnitude (orbit c i) <=? 2)%float = true) ->
  (sqmagnitude (orbit c k) <=? 2)%float = false ->
  (1 <= j <= k)%nat -> Cis_zero (orbit c j) = false.
Proof.
  intros Hb Hk Hj. destruct (Cis_zero (orbit c j)) eqn:Hz; [|reflexivity].
  pose proof (orbit_zero_periodic c j (k - j) Hz) as Hs.
  replace (j + (k - j))%nat with k in Hs by lia.
  apply sqmagnitude_same in Hs.
  rewrite (same_double_leb _ _ 2 Hs), Hb in Hk by lia. discriminate.
Qed.

(** * Right shifts and exact rounding *)

Lemma iter_pos_Pos_iter {A : Type} (f : A -> A) p : forall x,
  SpecFloat.iter_pos f p x = Pos.iter f x p.
Proof.
  induction p as [p IH | p IH |]; intros x; simpl; auto.
  - now rewrite !IH, !Pos.iter_swap.
  - now rewrite !IH.
Qed.

Lemma shr_1_spec m r s :
  0 <= m ->
  shr_1 (Build_shr_record m r s) = Build_shr_record (Z.div2 m) (Z.odd m) (r || s).
Proof.
  intros Hm. destruct m as [| [p | p |] | p]; try lia; reflexivity.
Qed.

Lemma mod_pow2_succ_eqb m k :
  0 <= k ->
  (m mod 2 ^ (k + 1) =? 0) = (m mod 2 ^ k =? 0) && negb (Z.testbit m k).
Proof.
  intros Hk. rewrite Z.pow_add_r, Z.pow_1_r by lia.
  rewrite Z.rem_mul_r by lia.
  rewrite Z.testbit_odd, Z.shiftr_div_pow2 by lia.
  pose proof (Z.mod_pos_bound m (2 ^ k) ltac:(lia)) as Hb.
  rewrite Zmod_odd.
  destruct (Z.odd (m / 2 ^ k)); simpl.
  - rewrite andb_false_r. apply Z.eqb_neq. nia.
  - rewrite andb_true_r. f_equal. lia.
Qed.

(** [n] right shifts: the quotient, the last bit shifted out and whether
    anything below it was set. *)
Lemma shr_iter_spec n : forall m r s,
  0 <= m ->
  Pos.iter shr_1 (Build_shr_record m r s) n =
  Build_shr_record (Z.shiftr m (Zpos n)) (Z.testbit m (Zpos n - 1))
    (r || s || negb (m mod 2 ^ (Zpos n - 1) =? 0)).
Proof.
  induction n as [|n IH] using Pos.peano_ind; intros m r s Hm.
  - cbn [Pos.iter]. rewrite shr_1_spec by lia. f_equal.
    change (1 - 1) with 0. rewrite Z.pow_0_r, Z.mod_1_r. simpl.
    now rewrite orb_false_r.
  - rewrite Pos.iter_succ, IH by lia.
    rewrite shr_1_spec by (apply Z.shiftr_nonneg; lia). f_equal.
    + rewrite Z.div2_spec, Z.shiftr_shiftr by lia. f_equal. lia.
    + rewrite <- Z.testbit_odd. f_equal. lia.
    + replace (Z.pos (Pos.succ n) - 1) with (Z.pos n - 1 + 1) by lia.
      rewrite mod_pow2_succ_eqb by lia.
      destruct (Z.testbit m (Z.pos n - 1)), r, s,
        (m mod 2 ^ (Z.pos n - 1) =? 0); reflexivity.
Qed.

Lemma shr_spec m r s e n :
  0 <= m -> 0 < n ->
  shr (Build_shr_record m r s) e n =
  (Build_shr_record (Z.shiftr m n) (Z.testbit m (n - 1))
     (r || s || negb (m mod 2 ^ (n - 1) =? 0)), e + n).
Proof.
  intros Hm Hn. destruct n as [|n|n]; try lia. unfold shr.
  now rewrite iter_pos_Pos_iter, shr_iter_spec.
Qed.

Lemma pow2_pred n : 0 < n -> 2 ^ n = 2 * 2 ^ (n - 1).
Proof.
  intros Hn. rewrite <- Z.pow_succ_r by lia. f_equal. lia.
Qed.

(** Shifting out zeros only is exact. *)
Lemma shr_exact q e n :
  0 <= q -> 0 <= n ->
  shr (Build_shr_record (q * 2 ^ n) false false) e n =
  (Build_shr_record q false false, e + n).
Proof.
  intros Hq Hn. destruct (Z.eq_dec n 0) as [-> | Hn0].
  - simpl. now rewrite Z.mul_1_r, Z.add_0_r.
  - rewrite shr_spec by nia. f_equal. f_equal.
    + rewrite Z.shiftr_div_pow2 by lia. apply Z.div_mul. lia.
    + rewrite Z.testbit_odd, Z.shiftr_div_pow2 by lia.
      rewrite (pow2_pred n) by lia.
      replace (q * (2 * 2 ^ (n - 1))) with (q * 2 * 2 ^ (n - 1)) by ring.
      rewrite Z.div_mul by lia.
      rewrite Z.odd_mul. simpl. apply andb_false_r.
    + simpl. rewrite (pow2_pred n) by lia.
      replace (q * (2 * 2 ^ (n - 1))) with (q * 2 * 2 ^ (n - 1)) by ring.
      rewrite Z.mod_mul by lia. reflexivity.
Qed.

Lemma digits2_pos_size p : digits2_pos p = Pos.size p.
Proof. induction p; simpl; congruence. Qed.

Lemma Zdigits2_log2 p : Zdigits2 (Zpos p) = Z.log2 (Zpos p) + 1.
Proof.
  simpl. rewrite digits2_pos_size. destruct p; simpl; lia.
Qed.

Lemma Zdigits2_mul_pow2 p n :
  0 <= n -> Zdigits2 (Zpos p * 2 ^ n) = Zdigits2 (Zpos p) + n.
Proof.
  intros Hn. assert (H : 0 < Zpos p * 2 ^ n) by (apply Z.mul_pos_pos; lia).
  destruct (Zpos p * 2 ^ n) as [|q|q] eqn:Hq; try lia.
  rewrite !Zdigits2_log2, <- Hq, Z.log2_mul_pow2 by lia. lia.
Qed.

(** Digits of a positive number: 2^(d-1) <= m < 2^d. *)
Lemma Zdigits2_bounds p :
  2 ^ (Zdigits2 (Zpos p) - 1) <= Zpos p < 2 ^ Zdigits2 (Zpos p).
Proof.
  rewrite Zdigits2_log2.
  pose proof (Z.log2_spec (Zpos p) ltac:(lia)) as H.
  replace (Z.log2 (Zpos p) + 1 - 1) with (Z.log2 (Zpos p)) by lia.
  replace (Z.log2 (Zpos p) + 1) with (Z.succ (Z.log2 (Zpos p))) by lia. exact H.
Qed.

(** The size of a number determined by its binade. *)
Lemma Zdigits2_unique R d :
  2 ^ (d - 1) <= Zpos R < 2 ^ d -> Zdigits2 (Zpos R) = d.
Proof.
  intros H. pose proof (Zdigits2_bounds R) as HR.
  assert (Hd : 0 < d).
  { destruct (Z_lt_ge_dec 0 d) as [|Hd]; auto.
    destruct (Z.eq_dec d 0) as [-> | Hd0]; [simpl in H; lia |].
    rewrite (Z.pow_neg_r 2 d) in H by lia. lia. }
  assert (H1 : 1 <= Zdigits2 (Zpos R)) by (simpl; lia).
  destruct (Z.lt_trichotomy (Zdigits2 (Zpos R)) d) as [Hlt | [Heq | Hgt]]; auto.
  - assert (2 ^ Zdigits2 (Zpos R) <= 2 ^ (d - 1)) by (apply Z.pow_le_mono_r; lia). lia.
  - assert (2 ^ d <= 2 ^ (Zdigits2 (Zpos R) - 1)) by (apply Z.pow_le_mono_r; lia). lia.
Qed.

Section ExactRounding.
Variables prec emax : Z.

(** A mantissa that needs no shift is kept as it is. *)
Lemma binary_round_aux_same s m e :
  fexp prec emax (Zdigits2 (Zpos m) + e) <= e -> e <= emax - prec ->
  binary_round_aux prec emax s (Zpos m) e loc_Exact = S754_finite s m e.
Proof.
  intros Hf He. unfold binary_round_aux.
  assert (Hs : shr_fexp prec emax (Zpos m) e loc_Exact =
               (Build_shr_record (Zpos m) false false, e)).
  { unfold shr_fexp, shr.
    destruct (fexp prec emax (Zdigits2 (Zpos m) + e) - e) eqn:Hn; auto. lia. }
  rewrite Hs. simpl round_nearest_even. rewrite Hs. simpl.
  replace (e <=? emax - prec) with true; auto.
  symmetry. apply Z.leb_le. lia.
Qed.

(** A mantissa whose low [n] bits are zero loses them exactly. *)
Lemma binary_round_aux_shift s q e n :
  0 < n -> fexp prec emax (Zdigits2 (Zpos q) + n + e) = e + n ->
  e + n <= emax - prec ->
  binary_round_aux prec emax s (Zpos q * 2 ^ n) e loc_Exact = S754_finite s q (e + n).
Proof.
  intros Hn Hf He. unfold binary_round_aux.
  assert (Hs : shr_fexp prec emax (Zpos q * 2 ^ n) e loc_Exact =
               (Build_shr_record (Zpos q) false false, e + n)).
  { unfold shr_fexp. rewrite Zdigits2_mul_pow2, Hf by lia.
    replace (e + n - e) with n by lia. simpl shr_record_of_loc.
    apply shr_exact; lia. }
  rewrite Hs. simpl round_nearest_even.
  assert (Hs' : shr_fexp prec emax (Zpos q) (e + n) loc_Exact =
                (Build_shr_record (Zpos q) false false, e + n)).
  { unfold shr_fexp, shr.
    replace (Zdigits2 (Zpos q) + (e + n)) with (Zdigits2 (Zpos q) + n + e) by lia.
    rewrite Hf, Z.sub_diag. reflexivity. }
  rewrite Hs'. simpl.
  replace (e + n <=? emax - prec) with true; auto.
  symmetry. apply Z.leb_le. lia.
Qed.

Lemma shl_align_spec mx ex ex' :
  let '(mz, ez) := shl_align mx ex ex' in
  ez = Z.min ex ex' /\ Zpos mz = Zpos mx * 2 ^ (ex - ez).
Proof.
  unfold shl_align. destruct (ex' - ex) as [|d|d] eqn:Hd.
  - split; [lia|]. now rewrite Z.sub_diag, Z.mul_1_r.
  - split; [lia|]. now rewrite Z.sub_diag, Z.mul_1_r.
  - split; [lia|].
    replace (ex - ex') with (Zpos d) by lia.
    change (Pos.iter xO mx d) with (shift_pos d mx).
    rewrite shift_pos_correct. change (Z.pow_pos 2 d) with (2 ^ Zpos d). lia.
Qed.
End ExactRounding.

(** * Counts in binary32 *)

Lemma fexp32 x : -125 <= x -> fexp F32.prec F32.emax x = x - 24.
Proof. intros H. unfold fexp, emin, F32.prec, F32.emax. lia. Qed.

Lemma Zdigits2_le_24 p : Zpos p < 2 ^ 24 -> 1 <= Zdigits2 (Zpos p) <= 24.
Proof.
  intros H. pose proof (Zdigits2_bounds p) as [Hl _].
  split; [simpl; lia|].
  destruct (Z_le_gt_dec (Zdigits2 (Zpos p)) 24) as [|Hgt]; auto.
  assert (2 ^ 24 <= 2 ^ (Zdigits2 (Zpos p) - 1)) by (apply Z.pow_le_mono_r; lia).
  lia.
Qed.

(** The canonical form of a count below 2^24 ... *)
Lemma of_int_repr p :
  Zpos p < 2 ^ 24 ->
  exists m, F32.of_int (Zpos p) = S754_finite false m (Zdigits2 (Zpos p) - 24) /\
            Zpos m = Zpos p * 2 ^ (24 - Zdigits2 (Zpos p)).
Proof.
  intros Hp. pose proof (Zdigits2_le_24 p Hp) as Hd.
  unfold F32.of_int, binary_normalize, binary_round.
  change (Zpos (digits2_pos p)) with (Zdigits2 (Zpos p)).
  rewrite fexp32 by lia.
  pose proof (shl_align_spec p 0 (Zdigits2 (Zpos p) + 0 - 24)) as Hs.
  destruct (shl_align p 0 _) as [mz ez]. destruct Hs as [Hez Hmz].
  rewrite Z.min_r in Hez by lia. subst ez.
  replace (0 - (Zdigits2 (Zpos p) + 0 - 24)) with (24 - Zdigits2 (Zpos p)) in Hmz by lia.
  exists mz. split; [|exact Hmz].
  replace (Zdigits2 (Zpos p) + 0 - 24) with (Zdigits2 (Zpos p) - 24) by lia.
  apply binary_round_aux_same.
  - rewrite Hmz, Zdigits2_mul_pow2 by lia. rewrite fexp32 by lia. lia.
  - unfold F32.emax, F32.prec. lia.
Qed.

(** ... and of the largest one. *)
Lemma of_int_max_count : F32.of_int max_count = S754_finite false 8388608 1.
Proof. reflexivity. Qed.

(** Both at once: mantissa of 24 bits, exponent fixed by the size. *)
Lemma of_int_canonical n :
  0 < n <= max_count ->
  exists m, F32.of_int n = S754_finite false m (Zdigits2 n - 24) /\
            Zpos m * 2 ^ (Zdigits2 n - 1) = n * 2 ^ 23.
Proof.
  intros Hn. destruct (Z.eq_dec n max_count) as [-> | Hne].
  - exists 8388608%positive. split; reflexivity.
  - destruct n as [|p|p]; try lia.
    assert (Hp : Zpos p < 2 ^ 24) by (unfold max_count in *; lia).
    destruct (of_int_repr p Hp) as (m & Hm & Hv).
    pose proof (Zdigits2_le_24 p Hp) as Hd.
    exists m. split; auto. rewrite Hv, <- Z.mul_assoc, <- Z.pow_add_r by lia.
    f_equal. f_equal. lia.
Qed.

(** ++ on a count below 2^24 is the next count ... *)
Lemma F32_incr_count n :
  0 <= n < max_count -> F32.add (F32.of_int n) F32.one = F32.of_int (n + 1).
Proof.
  intros Hn. destruct n as [|p|p]; try lia; [reflexivity|].
  destruct (Z.eq_dec (Zpos p + 1) max_count) as [Hmax | Hmax].
  { assert (p = 16777215%positive) as -> by (unfold max_count in *; lia).
    vm_compute. reflexivity. }
  assert (Hp : Zpos p < 2 ^ 24) by (unfold max_count in *; lia).
  assert (Hp1 : Zpos (p + 1) < 2 ^ 24) by (unfold max_count in *; lia).
  destruct (of_int_repr p Hp) as (m & Hm & Hv).
  destruct (of_int_repr (p + 1) Hp1) as (m' & Hm' & Hv').
  pose proof (Zdigits2_le_24 p Hp) as Hd.
  pose proof (Zdigits2_le_24 (p + 1) Hp1) as Hd'.
  assert (Hd2 : 2 <= Zdigits2 (Zpos (p + 1))).
  { pose proof (Zdigits2_bounds (p + 1)) as [_ Hu].
    destruct (Z_le_gt_dec 2 (Zdigits2 (Zpos (p + 1)))); auto.
    assert (Zdigits2 (Zpos (p + 1)) = 1) as Heq by lia. rewrite Heq in Hu. lia. }
  change (Zpos p + 1) with (Zpos (p + 1)). rewrite Hm, Hm'.
  unfold F32.add, F32.one, SFadd.
  set (d := Zdigits2 (Zpos p)) in *. set (d' := Zdigits2 (Zpos (p + 1))) in *.
  rewrite (Z.min_r (d - 24) (-23)) by lia.
  pose proof (shl_align_spec m (d - 24) (-23)) as Hs1.
  destruct (shl_align m (d - 24) (-23)) as [m1 e1]. destruct Hs1 as [He1 Hm1].
  rewrite Z.min_r in He1 by lia. subst e1.
  pose proof (shl_align_spec 8388608 (-23) (-23)) as Hs2.
  destruct (shl_align 8388608 (-23) (-23)) as [m2 e2]. destruct Hs2 as [He2 Hm2].
  rewrite Z.min_id in He2. subst e2.
  change (Zpos 8388608 * 2 ^ (-23 - -23)) with 8388608 in Hm2.
  simpl fst. unfold cond_Zopp.
  assert (Hsum : Zpos m1 + Zpos m2 = Zpos m' * 2 ^ (d' - 1)).
  { rewrite Hm1, Hm2, Hv, Hv', <- !Z.mul_assoc, <- !Z.pow_add_r by lia.
    replace (24 - d + (d - 24 - -23)) with 23 by lia.
    replace (24 - d' + (d' - 1)) with 23 by lia.
    rewrite Pos2Z.inj_add. change (2 ^ 23) with 8388608. lia. }
  rewrite Hsum.
  assert (Hpos : 0 < Zpos m' * 2 ^ (d' - 1)) by (apply Z.mul_pos_pos; lia).
  destruct (Zpos m' * 2 ^ (d' - 1)) as [|Q|Q] eqn:HQ; try lia.
  unfold binary_normalize, binary_round.
  change (Zpos (digits2_pos Q)) with (Zdigits2 (Zpos Q)).
  assert (HdQ : Zdigits2 (Zpos Q) = 24 + (d' - 1)).
  { rewrite <- HQ, Zdigits2_mul_pow2 by lia. f_equal.
    rewrite Hv', Zdigits2_mul_pow2 by lia. fold d'. lia. }
  rewrite HdQ, fexp32 by lia.
  pose proof (shl_align_spec Q (-23) (24 + (d' - 1) + -23 - 24)) as Hs3.
  destruct (shl_align Q (-23) _) as [m3 e3]. destruct Hs3 as [He3 Hm3].
  rewrite Z.min_l in He3 by lia. subst e3.
  rewrite Z.sub_diag, Z.mul_1_r in Hm3. rewrite Hm3, <- HQ.
  replace (d' - 24) with (-23 + (d' - 1)) by lia.
  apply binary_round_aux_shift; try lia.
  - rewrite fexp32; [|rewrite Hv', Zdigits2_mul_pow2 by lia; fold d'; lia].
    rewrite Hv', Zdigits2_mul_pow2 by lia. fold d'. lia.
  - unfold F32.emax, F32.prec. lia.
Qed.

(** ... and at 2^24 it changes nothing. *)
Lemma F32_incr_max_count :
  F32.add (F32.of_int max_count) F32.one = F32.of_int max_count.
Proof. reflexivity. Qed.

(** Digits are monotone. *)
Lemma Zdigits2_mono a b : 0 < a <= b -> Zdigits2 a <= Zdigits2 b.
Proof.
  intros H. destruct a as [|p|p], b as [|q|q]; try lia.
  rewrite !Zdigits2_log2. pose proof (Z.log2_le_mono (Zpos p) (Zpos q)). lia.
Qed.

(** The order of the program on counts is the order of the integers. *)
Lemma F32_ltb_count a b :
  0 <= a <= max_count -> 0 <= b <= max_count ->
  F32.ltb (F32.of_int a) (F32.of_int b) = (a <? b).
Proof.
  intros Ha Hb. unfold F32.ltb, SFltb.
  destruct (Z.eq_dec a 0) as [-> | Ha0]; destruct (Z.eq_dec b 0) as [-> | Hb0].
  - reflexivity.
  - destruct (of_int_canonical b ltac:(lia)) as (m & -> & _).
    simpl. symmetry. apply Z.ltb_lt. lia.
  - destruct (of_int_canonical a ltac:(lia)) as (m & -> & _).
    simpl. symmetry. apply Z.ltb_ge. lia.
  - destruct (of_int_canonical a ltac:(lia)) as (ma & -> & Hma).
    destruct (of_int_canonical b ltac:(lia)) as (mb & -> & Hmb).
    assert (Hda : 1 <= Zdigits2 a) by (destruct a; simpl; lia).
    assert (Hdb : 1 <= Zdigits2 b) by (destruct b; simpl; lia).
    simpl. rewrite Pos.compare_cont_spec. simpl.
    destruct (Z.compare_spec (Zdigits2 a - 24) (Zdigits2 b - 24)) as [He | He | He].
    + assert (Hd : Zdigits2 a = Zdigits2 b) by lia. rewrite Hd in Hma.
      assert (Hp : 0 < 2 ^ (Zdigits2 b - 1)) by (apply Z.pow_pos_nonneg; lia).
      destruct (Pos.compare_spec ma mb) as [Hc | Hc | Hc]; symmetry.
      * subst mb. apply Z.ltb_ge. nia.
      * apply Z.ltb_lt. apply Pos2Z.pos_lt_pos in Hc. nia.
      * apply Z.ltb_ge. apply Pos2Z.pos_lt_pos in Hc. nia.
    + symmetry. apply Z.ltb_lt.
      destruct (Z_lt_ge_dec a b) as [|Hge]; auto.
      pose proof (Zdigits2_mono b a ltac:(lia)). lia.
    + symmetry. apply Z.ltb_ge.
      destruct (Z_le_gt_dec b a) as [|Hgt]; auto.
      pose proof (Zdigits2_mono a b ltac:(lia)). lia.
Qed.

Lemma F32_of_int_inj a b :
  0 <= a <= max_count -> 0 <= b <= max_count ->
  F32.of_int a = F32.of_int b -> a = b.
Proof.
  intros Ha Hb Heq.
  pose proof (F32_ltb_count a b Ha Hb) as H1.
  pose proof (F32_ltb_count b a Hb Ha) as H2.
  rewrite Heq, (F32_ltb_count b b Hb Hb), Z.ltb_irrefl in H1.
  rewrite Heq, (F32_ltb_count b b Hb Hb), Z.ltb_irrefl in H2.
  symmetry in H1, H2. apply Z.ltb_ge in H1, H2. lia.
Qed.

Lemma F32_of_int_not_nan n : SFis_nan (F32.of_int n) = false.
Proof. apply binary_normalize_not_nan. Qed.

Lemma F32_leb_count a b :
  0 <= a <= max_count -> 0 <= b <= max_count ->
  F32.leb (F32.of_int a) (F32.of_int b) = (a <=? b).
Proof.
  intros Ha Hb. pose proof (F32_ltb_count b a Hb Ha) as H.
  unfold F32.leb, F32.ltb in *.
  destruct (b <? a) eqn:Hba.
  - rewrite (SFltb_SFleb_false _ _ H). symmetry. apply Z.leb_gt. apply Z.ltb_lt in Hba. lia.
  - rewrite SFleb_total; auto using F32_of_int_not_nan.
    symmetry. apply Z.leb_le. apply Z.ltb_ge in Hba. lia.
Qed.

(** [++] as a saturating successor on counts. *)
Lemma F32_incr_is_count x :
  is_count x -> is_count (F32.add x F32.one).
Proof.
  intros (n & Hn & ->). destruct (Z.eq_dec n max_count) as [-> | Hne].
  - exists max_count. split; [lia | apply F32_incr_max_count].
  - exists (n + 1). split; [lia | apply F32_incr_count; lia].
Qed.

Lemma F32_incr_not_less x :
  is_count x -> F32.ltb (F32.add x F32.one) x = false.
Proof.
  intros (n & Hn & ->). destruct (Z.eq_dec n max_count) as [-> | Hne].
  - reflexivity.
  - rewrite F32_incr_count, F32_ltb_count by lia. apply Z.ltb_ge. lia.
Qed.

(** * Heatmap cells *)

Lemma heatmap_get_Ok h row col v :
  heatmap_get h row col = Ok v <->
  0 <= row /\ 0 <= col /\ cell h (Z.to_nat row) (Z.to_nat col) = Some v.
Proof.
  unfold heatmap_get, cell.
  destruct (row <? 0) eqn:Hr; [apply Z.ltb_lt in Hr | apply Z.ltb_ge in Hr];
    simpl; [split; [discriminate | lia]|].
  destruct (col <? 0) eqn:Hc; [apply Z.ltb_lt in Hc | apply Z.ltb_ge in Hc];
    simpl; [split; [discriminate | lia]|].
  destruct (h !! Z.to_nat row) as [cells|]; [|split; [discriminate | intros (_ & _ & ?); discriminate]].
  destruct (cells !! Z.to_nat col) as [v0|]; split; try discriminate.
  - intros H; inversion H; auto.
  - intros (_ & _ & H); inversion H; auto.
  - intros (_ & _ & ?); discriminate.
Qed.

Lemma cell_heatmap_set h row col v r c :
  0 <= row -> 0 <= col ->
  cell (heatmap_set h row col v) r c =
  if decide (r = Z.to_nat row /\ c = Z.to_nat col)
  then (match cell h r c with Some _ => Some v | None => None end)
  else cell h r c.
Proof.
  intros Hr Hc. unfold cell, heatmap_set.
  destruct (decide (r = Z.to_nat row)) as [-> | Hne].
  - rewrite list_lookup_alter_eq.
    destruct (h !! Z.to_nat row) as [cells|]; simpl.
    + destruct (decide (c = Z.to_nat col)) as [-> | Hnc].
      * rewrite decide_True by auto.
        destruct (cells !! Z.to_nat col) eqn:Hl.
        -- apply list_lookup_insert_eq. eapply lookup_lt_Some; eauto.
        -- apply lookup_ge_None. rewrite length_insert. now apply lookup_ge_None.
      * rewrite decide_False by tauto. now apply list_lookup_insert_ne.
    + now destruct (decide _).
  - rewrite list_lookup_alter_ne by auto. rewrite decide_False by tauto. reflexivity.
Qed.

Lemma heatmap_set_commute h row col v row' col' v' :
  (Z.to_nat row, Z.to_nat col) <> (Z.to_nat row', Z.to_nat col') ->
  heatmap_set (heatmap_set h row col v) row' col' v' =
  heatmap_set (heatmap_set h row' col' v') row col v.
Proof.
  intros Hne. unfold heatmap_set.
  destruct (decide (Z.to_nat row = Z.to_nat row')) as [Heq | Hr].
  - rewrite Heq. rewrite !list_alter_alter_eq.
    apply list_alter_ext; auto. intros cells _. simpl.
    apply list_insert_insert_ne. congruence.
  - apply list_alter_alter_ne. auto.
Qed.

(** * One point of a trajectory *)

Lemma accumulate_hit w ht mn mx st p :
  accumulate w ht mn mx st p = do t <- target w ht mn mx p ;; hit st t.
Proof.
  unfold accumulate, target, hit, bump. destruct st as [h M].
  destruct (in_rectangle mn mx p); [|reflexivity].
  destruct (rowFromReal _ _ _ _) as [row|]; [|reflexivity]. simpl.
  destruct (colFromImaginary _ _ _ _) as [col|]; reflexivity.
Qed.

(** What a successful [bump] does, on counts. *)
Lemma bump_Ok h M row col h' M' :
  bump (h, M) row col = Ok (h', M') ->
  exists v, 0 <= row /\ 0 <= col /\
    cell h (Z.to_nat row) (Z.to_nat col) = Some v /\
    h' = heatmap_set h row col (F32.add v F32.one) /\
    M' = (if F32.ltb M (F32.add v F32.one) then F32.add v F32.one else M).
Proof.
  unfold bump. simpl. destruct (heatmap_get h row col) as [v|] eqn:Hg; [|discriminate].
  simpl. intros H. inversion H; subst. apply heatmap_get_Ok in Hg.
  exists v. tauto.
Qed.

Lemma bump_counts h M row col h' M' :
  heatmap_counts h -> is_count M ->
  bump (h, M) row col = Ok (h', M') ->
  heatmap_counts h' /\ is_count M'.
Proof.
  intros Hh HM Hb. apply bump_Ok in Hb.
  destruct Hb as (v & Hr & Hc & Hv & -> & ->).
  assert (Hv' : is_count (F32.add v F32.one)) by (apply F32_incr_is_count; eauto).
  split.
  - intros r c x. rewrite cell_heatmap_set by auto.
    destruct (decide _).
    + destruct (cell h r c); [|discriminate]. intros H; inversion H; subst; auto.
    + apply Hh.
  - destruct (F32.ltb M _); auto.
Qed.

(** * The running maximum *)

Lemma count_leb_refl a : is_count a -> F32.leb a a = true.
Proof. intros (n & Hn & ->). rewrite F32_leb_count by lia. apply Z.leb_refl. Qed.

Lemma count_leb_trans a b c :
  is_count a -> is_count b -> is_count c ->
  F32.leb a b = true -> F32.leb b c = true -> F32.leb a c = true.
Proof.
  intros (x & Hx & ->) (y & Hy & ->) (z & Hz & ->).
  rewrite !F32_leb_count by lia. rewrite !Z.leb_le. lia.
Qed.

Lemma count_leb_antisym a b :
  is_count a -> is_count b ->
  F32.leb a b = true -> F32.leb b a = true -> a = b.
Proof.
  intros (x & Hx & ->) (y & Hy & ->).
  rewrite !F32_leb_count by lia. rewrite !Z.leb_le. intros. f_equal. lia.
Qed.

Lemma count_incr_leb v : is_count v -> F32.leb v (F32.add v F32.one) = true.
Proof.
  intros (n & Hn & ->). destruct (Z.eq_dec n max_count) as [-> | Hne].
  - reflexivity.
  - rewrite F32_incr_count, F32_leb_count by lia. apply Z.leb_le. lia.
Qed.

Lemma fmax_count M v : is_count M -> is_count v -> is_count (fmax M v).
Proof. intros HM Hv. unfold fmax. now destruct (F32.ltb M v). Qed.

Lemma fmax_leb_l M v : is_count M -> is_count v -> F32.leb M (fmax M v) = true.
Proof.
  intros (m & Hm & ->) (n & Hn & ->). unfold fmax.
  rewrite F32_ltb_count by lia. destruct (m <? n) eqn:H.
  - rewrite F32_leb_count by lia. apply Z.leb_le. apply Z.ltb_lt in H. lia.
  - rewrite F32_leb_count by lia. apply Z.leb_refl.
Qed.

Lemma fmax_leb_r M v : is_count M -> is_count v -> F32.leb v (fmax M v) = true.
Proof.
  intros (m & Hm & ->) (n & Hn & ->). unfold fmax.
  rewrite F32_ltb_count by lia. destruct (m <? n) eqn:H.
  - rewrite F32_leb_count by lia. apply Z.leb_refl.
  - rewrite F32_leb_count by lia. apply Z.leb_le. apply Z.ltb_ge in H. lia.
Qed.

Lemma fmax_cases M v :
  is_count M -> is_count v ->
  fmax M v = v \/ (fmax M v = M /\ F32.leb v M = true).
Proof.
  intros (m & Hm & ->) (n & Hn & ->). unfold fmax.
  rewrite F32_ltb_count by lia. destruct (m <? n) eqn:H; auto.
  right. split; auto. rewrite F32_leb_count by lia.
  apply Z.leb_le. apply Z.ltb_ge in H. lia.
Qed.

Lemma fmax_comm M a b :
  is_count M -> is_count a -> is_count b ->
  fmax (fmax M a) b = fmax (fmax M b) a.
Proof.
  intros (m & Hm & ->) (x & Hx & ->) (y & Hy & ->). unfold fmax.
  rewrite !F32_ltb_count by lia.
  destruct (m <? x) eqn:H1, (m <? y) eqn:H2;
    rewrite ?F32_ltb_count by lia;
    repeat match goal with
           | |- context [?u <? ?v] => destruct (Z.ltb_spec u v)
           end;
    try reflexivity; try lia;
    apply Z.ltb_lt in H1 || apply Z.ltb_ge in H1;
    apply Z.ltb_lt in H2 || apply Z.ltb_ge in H2; try lia;
    f_equal; lia.
Qed.

Lemma channel_with_channel ch ch' st h M :
  channel ch' (with_channel ch st h M) = if decide (ch' = ch) then h else channel ch' st.
Proof.
  destruct st as [[[red green] blue] M0]. destruct ch, ch'; reflexivity.
Qed.

Lemma snd_with_channel ch st h M : snd (with_channel ch st h M) = M.
Proof. destruct st as [[[red green] blue] M0]. now destruct ch. Qed.

Lemma with_channel_same ch st : with_channel ch st (channel ch st) (snd st) = st.
Proof. destruct st as [[[red green] blue] M0]. now destruct ch. Qed.

Lemma cell_AllocHeatmap width height row col v :
  cell (AllocHeatmap width height) row col = Some v -> v = F32.of_int 0.
Proof.
  unfold cell, AllocHeatmap. intros H.
  destruct (replicate _ _ !! row) as [cells|] eqn:Hr; [|discriminate].
  apply lookup_replicate in Hr. destruct Hr as [-> _].
  apply lookup_replicate in H. tauto.
Qed.

Lemma is_count_0 : is_count (F32.of_int 0).
Proof. exists 0. unfold max_count. split; [lia | reflexivity]. Qed.

Lemma start_invariant : all_counts start_channels /\ running_max start_channels.
Proof.
  split; [split | split].
  - intros ch row col v H.
    assert (v = F32.of_int 0) as ->; [|apply is_count_0].
    destruct ch; apply (cell_AllocHeatmap _ _ _ _ _ H).
  - apply is_count_0.
  - intros ch row col v H.
    assert (v = F32.of_int 0) as ->; [|reflexivity].
    destruct ch; apply (cell_AllocHeatmap _ _ _ _ _ H).
  - exists Red, 0%nat, 0%nat. reflexivity.
Qed.

(** One successful [bump] in one channel keeps the invariant. *)
Lemma bump_invariant ch st row col h' M' :
  all_counts st -> running_max st ->
  bump (channel ch st, snd st) row col = Ok (h', M') ->
  all_counts (with_channel ch st h' M') /\ running_max (with_channel ch st h' M').
Proof.
  intros [Hc HM] [Hle (ch0 & r0 & c0 & Hat)] Hb.
  destruct (bump_counts _ _ _ _ _ _ (Hc ch) HM Hb) as [Hc' HM'].
  apply bump_Ok in Hb. destruct Hb as (v & Hr & Hcol & Hv & -> & ->).
  set (v' := F32.add v F32.one) in *. fold (fmax (snd st) v') in *.
  assert (Hvc : is_count v) by (eapply Hc; eauto).
  assert (Hvc' : is_count v') by (apply F32_incr_is_count; auto).
  split; [split | split].
  - intros ch'. rewrite channel_with_channel. destruct (decide _); auto.
  - now rewrite snd_with_channel.
  - intros ch' r c x. rewrite channel_with_channel, snd_with_channel.
    destruct (decide (ch' = ch)) as [-> | Hne].
    + rewrite cell_heatmap_set by auto. destruct (decide _).
      * destruct (cell _ r c); [|discriminate]. intros H; inversion H; subst.
        apply fmax_leb_r; auto.
      * intros H. apply (count_leb_trans x (snd st));
          [ eapply (Hc ch); exact H | exact HM | apply fmax_count; auto
          | eapply Hle; exact H | apply fmax_leb_l; auto ].
    + intros H. apply (count_leb_trans x (snd st));
        [ eapply (Hc ch'); exact H | exact HM | apply fmax_count; auto
        | eapply Hle; exact H | apply fmax_leb_l; auto ].
  - rewrite snd_with_channel.
    destruct (fmax_cases (snd st) v' HM Hvc') as [Hmax | [Hmax Hv'le]]; rewrite Hmax.
    + exists ch, (Z.to_nat row), (Z.to_nat col).
      rewrite channel_with_channel, decide_True by auto.
      rewrite cell_heatmap_set, decide_True, Hv by auto. reflexivity.
    + destruct (decide (ch0 = ch /\ r0 = Z.to_nat row /\ c0 = Z.to_nat col))
        as [(-> & -> & ->) | Hne].
      * exists ch, (Z.to_nat row), (Z.to_nat col).
        rewrite channel_with_channel, decide_True by auto.
        rewrite cell_heatmap_set, decide_True, Hv by auto. f_equal.
        assert (Hvs : v = snd st) by congruence.
        apply count_leb_antisym; auto.
        rewrite <- Hvs. apply count_incr_leb; auto.
      * exists ch0, r0, c0. rewrite channel_with_channel.
        destruct (decide (ch0 = ch)) as [-> | Hch]; auto.
        rewrite cell_heatmap_set, decide_False by tauto. exact Hat.
Qed.

Lemma generating_invariant st : generating st -> all_counts st /\ running_max st.
Proof.
  induction 1 as [| ch st point h' M' Hgen [IHc IHm] Hacc].
  - apply start_invariant.
  - rewrite accumulate_hit in Hacc.
    destruct (target _ _ _ _ _) as [[[row col]|]|]; simpl in Hacc; try discriminate.
    + eapply bump_invariant; eauto.
    + inversion Hacc; subst. rewrite with_channel_same. auto.
Qed.

Lemma with_channel_twice ch st h1 M1 h2 M2 :
  with_channel ch (with_channel ch st h1 M1) h2 M2 = with_channel ch st h2 M2.
Proof. destruct st as [[[red green] blue] M0]. now destruct ch. Qed.

Lemma bind_Ok {A B : Type} (m : Result A) (k : A -> Result B) b :
  bind m k = Ok b -> exists a, m = Ok a /\ k a = Ok b.
Proof. destruct m as [a|f]; simpl; [eauto | discriminate]. Qed.

Lemma accumulate_points_cons w ht mn mx st p pts :
  accumulate_points w ht mn mx st (p :: pts) =
  do st' <- accumulate w ht mn mx st p ;; accumulate_points w ht mn mx st' pts.
Proof. reflexivity. Qed.

Lemma GenerateHeatmap_cons h w ht mn mx B s samples M :
  GenerateHeatmap h w ht mn mx B (s :: samples) M =
  do st' <- process_sample w ht mn mx B (h, M) s ;;
  GenerateHeatmap (fst st') w ht mn mx B samples (snd st').
Proof. reflexivity. Qed.

Lemma accumulate_points_generating ch pts : forall st h' M',
  generating st ->
  accumulate_points IMAGE_WIDTH IMAGE_HEIGHT MINIMUM MAXIMUM (channel ch st, snd st) pts
    = Ok (h', M') ->
  generating (with_channel ch st h' M').
Proof.
  induction pts as [|p pts IH]; intros st h' M' Hgen H.
  - inversion H; subst. now rewrite with_channel_same.
  - rewrite accumulate_points_cons in H.
    apply bind_Ok in H. destruct H as ([h1 M1] & Hacc & H).
    pose proof (generating_point ch st p h1 M1 Hgen Hacc) as Hgen1.
    rewrite <- (with_channel_twice ch st h1 M1).
    apply IH; auto.
    now rewrite channel_with_channel, decide_True, snd_with_channel.
Qed.

Lemma GenerateHeatmap_generating ch nIterations samples : forall st h' M',
  generating st ->
  GenerateHeatmap (channel ch st) IMAGE_WIDTH IMAGE_HEIGHT MINIMUM MAXIMUM nIterations
    samples (snd st) = Ok (h', M') ->
  generating (with_channel ch st h' M').
Proof.
  induction samples as [|s samples IH]; intros st h' M' Hgen H.
  - inversion H; subst. now rewrite with_channel_same.
  - rewrite GenerateHeatmap_cons in H.
    apply bind_Ok in H. destruct H as ([h1 M1] & Hs & H).
    unfold process_sample in Hs.
    apply bind_Ok in Hs. destruct Hs as (pts & _ & Hacc).
    pose proof (accumulate_points_generating ch pts st h1 M1 Hgen Hacc) as Hgen1.
    rewrite <- (with_channel_twice ch st h1 M1).
    apply IH; auto.
    now rewrite channel_with_channel, decide_True, snd_with_channel.
Qed.

Lemma main_generate_generating redSamples blueSamples greenSamples st :
  main_generate redSamples blueSamples greenSamples = Ok st -> generating st.
Proof.
  unfold main_generate. intros H.
  apply bind_Ok in H. destruct H as ([red M1] & Hred & H).
  apply bind_Ok in H. destruct H as ([blue M2] & Hblue & H).
  apply bind_Ok in H. destruct H as ([green M3] & Hgreen & H).
  inversion H; subst.
  pose proof (GenerateHeatmap_generating Red RED_ITERS redSamples start_channels
                red M1 generating_start Hred) as G1.
  pose proof (GenerateHeatmap_generating Blue BLUE_ITERS blueSamples _ blue M2 G1 Hblue)
    as G2.
  exact (GenerateHeatmap_generating Green GREEN_ITERS greenSamples _ green M3 G2 Hgreen).
Qed.

(** * Order of the samples *)

Lemma bump_eq h M row col v :
  0 <= row -> 0 <= col -> cell h (Z.to_nat row) (Z.to_nat col) = Some v ->
  bump (h, M) row col =
  Ok (heatmap_set h row col (F32.add v F32.one), fmax M (F32.add v F32.one)).
Proof.
  intros Hr Hc Hv. unfold bump. simpl.
  assert (Hg : heatmap_get h row col = Ok v) by (apply heatmap_get_Ok; auto).
  now rewrite Hg.
Qed.

Lemma hit_counts st t st' :
  heatmap_counts (fst st) -> is_count (snd st) -> hit st t = Ok st' ->
  heatmap_counts (fst st') /\ is_count (snd st').
Proof.
  destruct st as [h M], st' as [h' M'], t as [[row col]|]; simpl.
  - apply bump_counts.
  - intros ? ? H. inversion H; subst. auto.
Qed.

(** Two hits commute. *)
Lemma hit_swap st t1 t2 st1 st2 :
  heatmap_counts (fst st) -> is_count (snd st) ->
  hit st t1 = Ok st1 -> hit st1 t2 = Ok st2 ->
  exists st1', hit st t2 = Ok st1' /\ hit st1' t1 = Ok st2.
Proof.
  intros Hh HM H1 H2.
  destruct t1 as [[r1 c1]|]; [|simpl in H1; inversion H1; subst; exists st2; auto].
  destruct t2 as [[r2 c2]|]; [|simpl in H2; inversion H2; subst; exists st; auto].
  destruct st as [h M], st1 as [h1 M1], st2 as [h2 M2]. simpl in *.
  destruct (decide ((Z.to_nat r1, Z.to_nat c1) = (Z.to_nat r2, Z.to_nat c2)))
    as [Heq | Hne].
  - pose proof H1 as H1'. pose proof H2 as H2'.
    apply bump_Ok in H1'. destruct H1' as (_ & Hr1 & Hc1 & _).
    apply bump_Ok in H2'. destruct H2' as (_ & Hr2 & Hc2 & _).
    inversion Heq.
    assert (r1 = r2) as -> by lia. assert (c1 = c2) as -> by lia.
    exists (h1, M1). auto.
  - apply bump_Ok in H1. destruct H1 as (v1 & Hr1 & Hc1 & Hv1 & -> & ->).
    apply bump_Ok in H2. destruct H2 as (v2 & Hr2 & Hc2 & Hv2 & -> & ->).
    rewrite cell_heatmap_set, decide_False in Hv2 by (auto; intros []; congruence).
    eexists. split; [apply bump_eq; eauto|].
    rewrite (bump_eq _ _ r1 c1 v1); auto.
    + f_equal. f_equal.
      * apply heatmap_set_commute. congruence.
      * fold (fmax M (F32.add v1 F32.one)).
        fold (fmax (fmax M (F32.add v1 F32.one)) (F32.add v2 F32.one)).
        symmetry. apply fmax_comm; auto; apply F32_incr_is_count; eapply Hh; eauto.
    + rewrite cell_heatmap_set, decide_False by (auto; intros []; congruence). auto.
Qed.

Lemma accumulate_counts w ht mn mx st p st' :
  heatmap_counts (fst st) -> is_count (snd st) ->
  accumulate w ht mn mx st p = Ok st' ->
  heatmap_counts (fst st') /\ is_count (snd st').
Proof.
  rewrite accumulate_hit. intros Hh HM H.
  apply bind_Ok in H. destruct H as (t & _ & H). eapply hit_counts; eauto.
Qed.

Lemma accumulate_swap w ht mn mx st p q st1 st2 :
  heatmap_counts (fst st) -> is_count (snd st) ->
  accumulate w ht mn mx st p = Ok st1 -> accumulate w ht mn mx st1 q = Ok st2 ->
  exists st1', accumulate w ht mn mx st q = Ok st1' /\
               accumulate w ht mn mx st1' p = Ok st2.
Proof.
  rewrite !accumulate_hit. intros Hh HM H1 H2.
  apply bind_Ok in H1. destruct H1 as (t1 & Ht1 & H1).
  apply bind_Ok in H2. destruct H2 as (t2 & Ht2 & H2).
  destruct (hit_swap st t1 t2 st1 st2 Hh HM H1 H2) as (st1' & Ha & Hb).
  exists st1'. rewrite !accumulate_hit, Ht1, Ht2. auto.
Qed.

Lemma accumulate_points_perm w ht mn mx pts pts' :
  Permutation pts pts' ->
  forall st st', heatmap_counts (fst st) -> is_count (snd st) ->
    accumulate_points w ht mn mx st pts = Ok st' ->
    accumulate_points w ht mn mx st pts' = Ok st'.
Proof.
  induction 1 as [| p l l' Hperm IH | p q l | l l' l'' _ IH1 _ IH2];
    intros st st' Hh HM H; auto.
  - rewrite accumulate_points_cons in *.
    apply bind_Ok in H. destruct H as (st1 & Hacc & H). rewrite Hacc. simpl.
    destruct (accumulate_counts _ _ _ _ _ _ _ Hh HM Hacc). auto.
  - rewrite !accumulate_points_cons in *.
    apply bind_Ok in H. destruct H as (st1 & Hq & H).
    apply bind_Ok in H. destruct H as (st2 & Hp & H).
    destruct (accumulate_swap _ _ _ _ _ _ _ _ _ Hh HM Hq Hp) as (st1' & Ha & Hb).
    rewrite Ha. simpl. rewrite Hb. exact H.
Qed.

Lemma accumulate_points_app w ht mn mx pts1 : forall st pts2,
  accumulate_points w ht mn mx st (pts1 ++ pts2) =
  do st1 <- accumulate_points w ht mn mx st pts1 ;;
  accumulate_points w ht mn mx st1 pts2.
Proof.
  induction pts1 as [|p pts1 IH]; intros st pts2; [reflexivity|].
  rewrite <- app_comm_cons, !accumulate_points_cons.
  destruct (accumulate w ht mn mx st p) as [st1|]; simpl; auto.
Qed.

Lemma buddhabrotPoints_trajectory B s :
  0 <= B -> buddhabrotPoints s B = Ok (trajectory B s).
Proof.
  intros HB. unfold trajectory, buddhabrotPoints.
  replace (B <? 0) with false by (symmetry; apply Z.ltb_ge; lia).
  destruct (buddhabrot_loop _ _ _ _ _ _) as [[n z] l].
  now destruct (n =? B).
Qed.

(** [GenerateHeatmap] accumulates the trajectories one after the other. *)
Lemma GenerateHeatmap_concat w ht mn mx B samples : forall h M,
  0 <= B ->
  GenerateHeatmap h w ht mn mx B samples M =
  accumulate_points w ht mn mx (h, M) (flat_map (trajectory B) samples).
Proof.
  induction samples as [|s samples IH]; intros h M HB; [reflexivity|].
  rewrite GenerateHeatmap_cons. unfold process_sample.
  rewrite buddhabrotPoints_trajectory by auto. simpl bind at 2.
  simpl flat_map. rewrite accumulate_points_app.
  destruct (accumulate_points w ht mn mx (h, M) (trajectory B s)) as [[h1 M1]|]; simpl; auto.
Qed.

(** * Rounding to 24 bits *)

(** The bit shifted out last says whether the remainder reaches one half. *)
Lemma testbit_pred_spec P n :
  0 < n -> 0 <= P -> Z.testbit P (n - 1) = (2 ^ (n - 1) <=? P mod 2 ^ n).
Proof.
  intros Hn HP.
  rewrite Z.testbit_odd, Z.shiftr_div_pow2 by lia.
  rewrite (pow2_pred n) by lia.
  rewrite (Z.mul_comm 2), Z.rem_mul_r by lia.
  pose proof (Z.mod_pos_bound P (2 ^ (n - 1)) ltac:(lia)) as Hb.
  rewrite Zmod_odd. destruct (Z.odd (P / 2 ^ (n - 1))); symmetry.
  - apply Z.leb_le. lia.
  - apply Z.leb_gt. lia.
Qed.

Lemma mod_pow2_pred P n :
  0 < n -> 0 <= P ->
  P mod 2 ^ n = P mod 2 ^ (n - 1) + (if Z.testbit P (n - 1) then 2 ^ (n - 1) else 0).
Proof.
  intros Hn HP.
  rewrite Z.testbit_odd, Z.shiftr_div_pow2 by lia.
  rewrite (pow2_pred n) by lia.
  rewrite (Z.mul_comm 2), Z.rem_mul_r by lia.
  rewrite Zmod_odd. destruct (Z.odd (P / 2 ^ (n - 1))); lia.
Qed.

Lemma rne_spec P n :
  0 < n -> 0 <= P ->
  (rne P n = P / 2 ^ n /\ 2 * (P mod 2 ^ n) <= 2 ^ n /\
   (2 * (P mod 2 ^ n) = 2 ^ n -> Z.even (P / 2 ^ n) = true)) \/
  (rne P n = P / 2 ^ n + 1 /\ 2 ^ n <= 2 * (P mod 2 ^ n) /\
   (2 * (P mod 2 ^ n) = 2 ^ n -> Z.even (P / 2 ^ n) = false)).
Proof.
  intros Hn HP. unfold rne.
  rewrite Z.shiftr_div_pow2 by lia.
  pose proof (mod_pow2_pred P n Hn HP) as Hm.
  pose proof (Z.mod_pos_bound P (2 ^ (n - 1)) ltac:(lia)) as Hb.
  pose proof (pow2_pred n Hn) as H2.
  destruct (Z.testbit P (n - 1)); destruct (Z.eqb_spec (P mod 2 ^ (n - 1)) 0) as [H0 | H0];
    simpl.
  - destruct (Z.even (P / 2 ^ n)) eqn:He; [left | right]; repeat split; auto; lia.
  - right. repeat split; lia.
  - left. repeat split; lia.
  - left. repeat split; lia.
Qed.

Lemma binary_round_aux_long s P e n :
  0 < n -> Zdigits2 (Zpos P) = 24 + n -> -125 <= 24 + n + e -> e + n + 1 <= 104 ->
  binary_round_aux F32.prec F32.emax s (Zpos P) e loc_Exact =
  if rne (Zpos P) n <? 2 ^ 24
  then S754_finite s (Z.to_pos (rne (Zpos P) n)) (e + n)
  else S754_finite s 8388608 (e + n + 1).
Proof.
  intros Hn Hd Hlo Hhi. unfold binary_round_aux.
  assert (Hs : shr_fexp F32.prec F32.emax (Zpos P) e loc_Exact =
               (Build_shr_record (Z.shiftr (Zpos P) n) (Z.testbit (Zpos P) (n - 1))
                  (negb (Zpos P mod 2 ^ (n - 1) =? 0)), e + n)).
  { unfold shr_fexp. rewrite Hd, fexp32 by lia.
    replace (24 + n + e - 24 - e) with n by lia. simpl shr_record_of_loc.
    now rewrite shr_spec by lia. }
  rewrite Hs. cbn [shr_m]. fold (rne (Zpos P) n).
  pose proof (Zdigits2_bounds P) as HP. rewrite Hd in HP.
  replace (24 + n - 1) with (23 + n) in HP by lia.
  rewrite !Z.pow_add_r in HP by lia.
  assert (Hq : 2 ^ 23 <= Zpos P / 2 ^ n < 2 ^ 24).
  { split.
    - apply Z.div_le_lower_bound; lia.
    - apply Z.div_lt_upper_bound; lia. }
  assert (Hr : 2 ^ 23 <= rne (Zpos P) n <= 2 ^ 24).
  { destruct (rne_spec (Zpos P) n Hn ltac:(lia)) as [(-> & _) | (-> & _)]; lia. }
  destruct (rne (Zpos P) n) as [|R|R] eqn:HR; try lia.
  destruct (Z.ltb_spec (Zpos R) (2 ^ 24)) as [Hlt | Hge].
  - assert (HdR : Zdigits2 (Zpos R) = 24).
    { pose proof (Zdigits2_bounds R) as HRb.
      destruct (Z_lt_ge_dec (Zdigits2 (Zpos R)) 24) as [Hl|Hg].
      - assert (2 ^ Zdigits2 (Zpos R) <= 2 ^ 23) by (apply Z.pow_le_mono_r; lia). lia.
      - destruct (Z_le_gt_dec (Zdigits2 (Zpos R)) 24) as [Hl'|Hg']; [lia|].
        assert (2 ^ 24 <= 2 ^ (Zdigits2 (Zpos R) - 1)) by (apply Z.pow_le_mono_r; lia).
        lia. }
    assert (Hs2 : shr_fexp F32.prec F32.emax (Zpos R) (e + n) loc_Exact =
                  (Build_shr_record (Zpos R) false false, e + n)).
    { unfold shr_fexp. rewrite HdR, fexp32 by lia.
      replace (24 + (e + n) - 24 - (e + n)) with 0 by lia. reflexivity. }
    rewrite Hs2. cbn [shr_m].
    replace (e + n <=? F32.emax - F32.prec) with true; auto.
    symmetry. apply Z.leb_le. unfold F32.emax, F32.prec. lia.
  - assert (R = 16777216%positive) as -> by (change (2 ^ 24) with 16777216 in *; lia).
    assert (Hs2 : shr_fexp F32.prec F32.emax 16777216 (e + n) loc_Exact =
                  (Build_shr_record 8388608 false false, e + n + 1)).
    { unfold shr_fexp. change (Zdigits2 16777216) with 25. rewrite fexp32 by lia.
      replace (25 + (e + n) - 24 - (e + n)) with 1 by lia. reflexivity. }
    rewrite Hs2. cbn [shr_m].
    replace (e + n + 1 <=? F32.emax - F32.prec) with true; auto.
    symmetry. apply Z.leb_le. unfold F32.emax, F32.prec. lia.
Qed.

Lemma quotient_in_binade P n q :
  0 <= n -> q * 2 ^ n <= P < (q + 1) * 2 ^ n -> P / 2 ^ n = q /\ P mod 2 ^ n = P - q * 2 ^ n.
Proof.
  intros Hn HP. assert (H2 : 0 < 2 ^ n) by (apply Z.pow_pos_nonneg; lia).
  assert (Hq : P / 2 ^ n = q).
  { symmetry. apply (Z.div_unique _ _ _ (P - q * 2 ^ n)); lia. }
  split; auto. rewrite Z.mod_eq, Hq by lia. lia.
Qed.

(** A product that is at most 1 + 2^-24 rounds to at most 1 ... *)
Lemma round_le_one P e n :
  0 < n -> Zdigits2 (Zpos P) = 24 + n -> -125 <= 24 + n + e ->
  24 + n + e <= 0 \/ (24 + n + e = 1 /\ Zpos P <= 2 ^ (23 + n) + 2 ^ (n - 1)) ->
  F32.leb (binary_round_aux F32.prec F32.emax false (Zpos P) e loc_Exact) F32.one = true.
Proof.
  intros Hn Hd Hlo HE.
  rewrite (binary_round_aux_long false P e n) by lia.
  pose proof (Zdigits2_bounds P) as HP. rewrite Hd in HP.
  replace (24 + n - 1) with (23 + n) in HP by lia.
  assert (H2 : 0 < 2 ^ n) by (apply Z.pow_pos_nonneg; lia).
  assert (H2' : 0 < 2 ^ (n - 1)) by (apply Z.pow_pos_nonneg; lia).
  pose proof (pow2_pred n Hn) as Hpn.
  assert (H23 : 2 ^ (23 + n) = 8388608 * 2 ^ n) by (rewrite Z.pow_add_r by lia; reflexivity).
  assert (H24 : 2 ^ (24 + n) = 16777216 * 2 ^ n) by (rewrite Z.pow_add_r by lia; reflexivity).
  destruct (rne_spec (Zpos P) n Hn ltac:(lia)) as [(Hr & Hrem & Hev) | (Hr & Hrem & Hev)].
  - (* rounded down *)
    assert (Hq : 8388608 <= Zpos P / 2 ^ n < 16777216).
    { split; [apply Z.div_le_lower_bound | apply Z.div_lt_upper_bound]; lia. }
    rewrite Hr. change (2 ^ 24) with 16777216.
    replace (Zpos P / 2 ^ n <? 16777216) with true by (symmetry; apply Z.ltb_lt; lia).
    destruct (Zpos P / 2 ^ n) as [|R|R] eqn:HR; try lia. simpl Z.to_pos.
    unfold F32.leb, F32.one, SFleb, SFcompare.
    destruct HE as [HE | [HE HPle]].
    + replace (e + n ?= -23) with Lt; auto. symmetry. apply Z.compare_lt_iff. lia.
    + replace (e + n ?= -23) with Eq by (symmetry; apply Z.compare_eq_iff; lia).
      rewrite Pos.compare_cont_spec. simpl.
      destruct (quotient_in_binade (Zpos P) n 8388608 ltac:(lia) ltac:(lia)) as [Hq' _].
      assert (R = 8388608%positive) as -> by lia. reflexivity.
  - (* rounded up *)
    rewrite Hr. change (2 ^ 24) with 16777216.
    assert (Hq : 8388608 <= Zpos P / 2 ^ n < 16777216).
    { split; [apply Z.div_le_lower_bound | apply Z.div_lt_upper_bound]; lia. }
    destruct HE as [HE | [HE HPle]].
    + destruct (Z.ltb_spec (Zpos P / 2 ^ n + 1) 16777216) as [Hlt | Hge].
      * destruct (Zpos P / 2 ^ n + 1) as [|R|R] eqn:HR; try lia. simpl Z.to_pos.
        unfold F32.leb, F32.one, SFleb, SFcompare.
        replace (e + n ?= -23) with Lt; auto. symmetry. apply Z.compare_lt_iff. lia.
      * unfold F32.leb, F32.one, SFleb, SFcompare.
        destruct (Z.compare_spec (e + n + 1) (-23)); auto. lia.
    + exfalso.
      destruct (quotient_in_binade (Zpos P) n 8388608 ltac:(lia) ltac:(lia)) as [Hq' Hm].
      rewrite Hq' in Hev. rewrite Hm in Hrem, Hev.
      assert (Heq : 2 * (Zpos P - 8388608 * 2 ^ n) = 2 ^ n) by lia.
      specialize (Hev Heq). discriminate Hev.
Qed.

(** ... and one that is within 2^-24 of 1 rounds to 1 or to the float below. *)
Lemma round_near_one P e n :
  0 < n -> Zdigits2 (Zpos P) = 24 + n ->
  (24 + n + e = 0 /\ 16777215 * 2 ^ n <= Zpos P) \/
  (24 + n + e = 1 /\ Zpos P <= 2 ^ (23 + n) + 2 ^ (n - 1)) ->
  binary_round_aux F32.prec F32.emax false (Zpos P) e loc_Exact = F32_pred_one \/
  binary_round_aux F32.prec F32.emax false (Zpos P) e loc_Exact = F32.one.
Proof.
  intros Hn Hd HE.
  rewrite (binary_round_aux_long false P e n) by lia.
  pose proof (Zdigits2_bounds P) as HP. rewrite Hd in HP.
  replace (24 + n - 1) with (23 + n) in HP by lia.
  assert (H2 : 0 < 2 ^ n) by (apply Z.pow_pos_nonneg; lia).
  assert (H2' : 0 < 2 ^ (n - 1)) by (apply Z.pow_pos_nonneg; lia).
  pose proof (pow2_pred n Hn) as Hpn.
  assert (H23 : 2 ^ (23 + n) = 8388608 * 2 ^ n) by (rewrite Z.pow_add_r by lia; reflexivity).
  assert (H24 : 2 ^ (24 + n) = 16777216 * 2 ^ n) by (rewrite Z.pow_add_r by lia; reflexivity).
  change (2 ^ 24) with 16777216.
  destruct HE as [[HE HPge] | [HE HPle]].
  - destruct (quotient_in_binade (Zpos P) n 16777215 ltac:(lia) ltac:(lia)) as [Hq' Hm].
    destruct (rne_spec (Zpos P) n Hn ltac:(lia)) as [(Hr & _) | (Hr & _)];
      rewrite Hr, Hq'; simpl.
    + left. unfold F32_pred_one. f_equal. lia.
    + right. unfold F32.one. f_equal. lia.
  - destruct (quotient_in_binade (Zpos P) n 8388608 ltac:(lia) ltac:(lia)) as [Hq' Hm].
    destruct (rne_spec (Zpos P) n Hn ltac:(lia)) as [(Hr & _) | (Hr & Hrem & Hev)].
    + rewrite Hr, Hq'. simpl. right. unfold F32.one. f_equal. lia.
    + exfalso. rewrite Hq' in Hev. rewrite Hm in Hrem, Hev.
      assert (Heq : 2 * (Zpos P - 8388608 * 2 ^ n) = 2 ^ n) by lia.
      specialize (Hev Heq). discriminate Hev.
Qed.

(** * The scale 1 / M *)

Lemma new_location_spec nb r :
  0 < nb -> 0 <= r < nb ->
  (r = 0 /\ new_location nb r = loc_Exact) \/
  (0 < 2 * r < nb /\ new_location nb r = loc_Inexact Lt) \/
  (2 * r = nb /\ new_location nb r = loc_Inexact Eq) \/
  (nb < 2 * r /\ new_location nb r = loc_Inexact Gt).
Proof.
  intros Hnb Hr. unfold new_location.
  destruct (Z.even nb) eqn:Hev.
  - unfold new_location_even.
    destruct (Z.eqb_spec r 0) as [-> | Hr0]; [left; split; auto |].
    right.
    destruct (Z.compare_spec (2 * r) nb); [right; left | left | right; right];
      split; auto; lia.
  - unfold new_location_odd.
    destruct (Z.eqb_spec r 0) as [-> | Hr0]; [left; split; auto |].
    right.
    assert (Hodd : Z.odd nb = true) by (rewrite <- Z.negb_even, Hev; reflexivity).
    apply Z.odd_spec in Hodd. destruct Hodd as [k Hk].
    destruct (Z.compare_spec (2 * r + 1) nb); [left | left | right; right];
      split; auto; lia.
Qed.

Lemma round_nearest_even_spec q r nb :
  0 < nb -> 0 <= r < nb ->
  (round_nearest_even q (new_location nb r) = q /\ 2 * r <= nb) \/
  (round_nearest_even q (new_location nb r) = q + 1 /\ nb <= 2 * r).
Proof.
  intros Hnb Hr.
  destruct (new_location_spec nb r Hnb Hr) as [[H ->] | [[H ->] | [[H ->] | [H ->]]]];
    simpl.
  - left. split; auto. lia.
  - left. split; auto. lia.
  - destruct (Z.even q); [left | right]; split; auto; lia.
  - right. split; auto. lia.
Qed.

Lemma loc_of_shr_record_of_loc m l :
  loc_of_shr_record (shr_record_of_loc m l) = l.
Proof. now destruct l as [|[]]. Qed.

Lemma shr_m_shr_record_of_loc m l : shr_m (shr_record_of_loc m l) = m.
Proof. now destruct l as [|[]]. Qed.

(** 1.0f / M for a canonical M in [1, 2^24]: a canonical float whose
    mantissa is the correctly rounded quotient 2^47 / mb. *)
Lemma F32_div_one mb eb :
  Zdigits2 (Zpos mb) = 24 -> -23 <= eb <= 1 ->
  exists ms es q1,
    F32.div F32.one (S754_finite false mb eb) = S754_finite false ms es /\
    Zdigits2 (Zpos ms) = 24 /\
    ((es = -47 - eb /\ Zpos ms = q1) \/ (es = -46 - eb /\ 2 * Zpos ms = q1)) /\
    2 ^ 48 - Zpos mb <= 2 * q1 * Zpos mb <= 2 ^ 48 + Zpos mb.
Proof.
  intros Hd He.
  pose proof (Zdigits2_bounds mb) as Hmb. rewrite Hd in Hmb.
  change (2 ^ (24 - 1)) with 8388608 in Hmb. change (2 ^ 24) with 16777216 in Hmb.
  unfold F32.div, F32.one, SFdiv, SFdiv_core_binary.
  change (Zdigits2 8388608) with 24. rewrite Hd.
  rewrite fexp32 by lia.
  replace (Z.min (24 + -23 - (24 + eb) - 24) (-23 - eb)) with (-47 - eb) by lia.
  replace (-23 - eb - (-47 - eb)) with 24 by lia.
  change (Z.shiftl 8388608 24) with 140737488355328.
  pose proof (Z_div_mod 140737488355328 (Zpos mb) ltac:(lia)) as Hdiv.
  destruct (Z.div_eucl 140737488355328 (Zpos mb)) as [q r].
  destruct Hdiv as [Hqr Hr].
  assert (Hq : 8388608 <= q <= 16777216) by nia.
  change (2 ^ 48) with 281474976710656.
  unfold binary_round_aux. simpl xorb.
  destruct (Z.eq_dec q 16777216) as [-> | Hq24].
  - (* M is a power of two *)
    assert (r = 0) as -> by nia.
    assert (mb = 8388608%positive) as -> by nia.
    assert (Hs : shr_fexp F32.prec F32.emax 16777216 (-47 - eb)
                   (new_location 8388608 0) =
                 (Build_shr_record 8388608 false false, -46 - eb)).
    { unfold shr_fexp. change (Zdigits2 16777216) with 25. rewrite fexp32 by lia.
      replace (25 + (-47 - eb) - 24 - (-47 - eb)) with 1 by lia.
      unfold shr. simpl. f_equal. lia. }
    rewrite Hs. simpl round_nearest_even.
    assert (Hs2 : shr_fexp F32.prec F32.emax 8388608 (-46 - eb) loc_Exact =
                  (Build_shr_record 8388608 false false, -46 - eb)).
    { unfold shr_fexp. change (Zdigits2 8388608) with 24. rewrite fexp32 by lia.
      replace (24 + (-46 - eb) - 24 - (-46 - eb)) with 0 by lia. reflexivity. }
    rewrite Hs2. simpl shr_m. cbv iota.
    replace (-46 - eb <=? F32.emax - F32.prec) with true
      by (symmetry; apply Z.leb_le; unfold F32.emax, F32.prec; lia).
    exists 8388608%positive, (-46 - eb), 16777216. repeat split; auto; lia.
  - destruct q as [|Q|Q]; try lia.
    assert (HdQ : Zdigits2 (Zpos Q) = 24) by (apply Zdigits2_unique; simpl; lia).
    assert (Hs : shr_fexp F32.prec F32.emax (Zpos Q) (-47 - eb)
                   (new_location (Zpos mb) r) =
                 (shr_record_of_loc (Zpos Q) (new_location (Zpos mb) r), -47 - eb)).
    { unfold shr_fexp. rewrite HdQ, fexp32 by lia.
      replace (24 + (-47 - eb) - 24 - (-47 - eb)) with 0 by lia. reflexivity. }
    rewrite Hs, loc_of_shr_record_of_loc, shr_m_shr_record_of_loc.
    destruct (round_nearest_even_spec (Zpos Q) r (Zpos mb) ltac:(lia) Hr)
      as [[-> Hrr] | [-> Hrr]].
    + assert (Hs2 : shr_fexp F32.prec F32.emax (Zpos Q) (-47 - eb) loc_Exact =
                    (Build_shr_record (Zpos Q) false false, -47 - eb)).
      { unfold shr_fexp. rewrite HdQ, fexp32 by lia.
        replace (24 + (-47 - eb) - 24 - (-47 - eb)) with 0 by lia. reflexivity. }
      rewrite Hs2. simpl shr_m. cbv iota.
      replace (-47 - eb <=? F32.emax - F32.prec) with true
        by (symmetry; apply Z.leb_le; unfold F32.emax, F32.prec; lia).
      exists Q, (-47 - eb), (Zpos Q). repeat split; auto; nia.
    + destruct (Z.eq_dec (Zpos Q + 1) 16777216) as [Hup | Hup].
      * rewrite Hup.
        assert (Hs2 : shr_fexp F32.prec F32.emax 16777216 (-47 - eb) loc_Exact =
                      (Build_shr_record 8388608 false false, -46 - eb)).
        { unfold shr_fexp. change (Zdigits2 16777216) with 25. rewrite fexp32 by lia.
          replace (25 + (-47 - eb) - 24 - (-47 - eb)) with 1 by lia.
          unfold shr. simpl. f_equal. lia. }
        rewrite Hs2. simpl shr_m. cbv iota.
        replace (-46 - eb <=? F32.emax - F32.prec) with true
          by (symmetry; apply Z.leb_le; unfold F32.emax, F32.prec; lia).
        exists 8388608%positive, (-46 - eb), 16777216. repeat split; auto; nia.
      * change (Zpos Q + 1) with (Zpos (Q + 1)).
        assert (HdQ1 : Zdigits2 (Zpos (Q + 1)) = 24)
          by (apply Zdigits2_unique; simpl; lia).
        assert (Hs2 : shr_fexp F32.prec F32.emax (Zpos (Q + 1)) (-47 - eb) loc_Exact =
                      (Build_shr_record (Zpos (Q + 1)) false false, -47 - eb)).
        { unfold shr_fexp. rewrite HdQ1, fexp32 by lia.
          replace (24 + (-47 - eb) - 24 - (-47 - eb)) with 0 by lia. reflexivity. }
        rewrite Hs2. simpl shr_m. cbv iota.
        replace (-47 - eb <=? F32.emax - F32.prec) with true
          by (symmetry; apply Z.leb_le; unfold F32.emax, F32.prec; lia).
        exists (Q + 1)%positive, (-47 - eb), (Zpos (Q + 1)). repeat split; auto; nia.
Qed.

(** * The detour through double *)

Section ShortRounding.
Variables prec emax : Z.

(** A mantissa shorter than the precision is padded, exactly. *)
Lemma binary_round_short s m e :
  Zdigits2 (Zpos m) <= prec ->
  3 - emax - prec <= Zdigits2 (Zpos m) + e - prec ->
  Zdigits2 (Zpos m) + e <= emax ->
  binary_round prec emax s m e =
  S754_finite s (m * Z.to_pos (2 ^ (prec - Zdigits2 (Zpos m))))
    (Zdigits2 (Zpos m) + e - prec).
Proof.
  intros Hd Hmin Hmax. unfold binary_round.
  change (Zpos (digits2_pos m)) with (Zdigits2 (Zpos m)).
  assert (Hf : forall x, 3 - emax - prec <= x - prec -> fexp prec emax x = x - prec).
  { intros x Hx. unfold fexp, emin. lia. }
  rewrite Hf by lia.
  pose proof (shl_align_spec m e (Zdigits2 (Zpos m) + e - prec)) as Hs.
  destruct (shl_align m e _) as [mz ez]. destruct Hs as [Hez Hmz].
  rewrite Z.min_r in Hez by lia. subst ez.
  replace (e - (Zdigits2 (Zpos m) + e - prec)) with (prec - Zdigits2 (Zpos m)) in Hmz by lia.
  assert (Hp : 0 < 2 ^ (prec - Zdigits2 (Zpos m))) by (apply Z.pow_pos_nonneg; lia).
  assert (Hmz' : mz = (m * Z.to_pos (2 ^ (prec - Zdigits2 (Zpos m))))%positive).
  { apply Pos2Z.inj. rewrite Pos2Z.inj_mul, Z2Pos.id by exact Hp. exact Hmz. }
  rewrite <- Hmz'.
  apply binary_round_aux_same.
  - rewrite Hmz, Zdigits2_mul_pow2 by lia. rewrite Hf by lia. lia.
  - lia.
Qed.
End ShortRounding.

(** float -> double keeps a single-precision number: the 24-bit mantissa
    is padded to 53 bits. *)
Lemma Prim2SF_to_double s m e :
  Zdigits2 (Zpos m) = 24 -> -1000 <= e <= 900 ->
  Prim2SF (F32.to_double (S754_finite s m e)) = S754_finite s (m * 536870912) (e - 29).
Proof.
  intros Hd He.
  pose proof (Zdigits2_bounds m) as Hm. rewrite Hd in Hm.
  change (2 ^ (24 - 1)) with 8388608 in Hm. change (2 ^ 24) with 16777216 in Hm.
  assert (Hpm : Prim2SF (of_uint63 (Uint63.of_Z (Zpos m))) =
                S754_finite false (m * 536870912) (-29)).
  { rewrite of_uint63_spec, Uint63.of_Z_spec.
    rewrite Z.mod_small by (change Uint63.wB with 9223372036854775808; lia).
    unfold binary_normalize.
    rewrite binary_round_short by (rewrite Hd; unfold prec, emax; lia).
    rewrite Hd. reflexivity. }
  assert (Hl : Prim2SF (Z.ldexp (of_uint63 (Uint63.of_Z (Zpos m))) e) =
               S754_finite false (m * 536870912) (e - 29)).
  { rewrite Z_ldexp_spec, Hpm. unfold SFldexp.
    assert (Hd' : Zdigits2 (Zpos (m * 536870912)) = 53).
    { apply Zdigits2_unique. change (2 ^ (53 - 1)) with (8388608 * 536870912).
      change (2 ^ 53) with (16777216 * 536870912). lia. }
    rewrite binary_round_short by (rewrite Hd'; unfold prec, emax; lia).
    rewrite Hd'. change (Z.to_pos (2 ^ (prec - 53))) with 1%positive.
    rewrite Pos.mul_1_r. f_equal. unfold prec. lia. }
  unfold F32.to_double, SF2Prim. cbv zeta.
  destruct s; [rewrite opp_spec|]; rewrite Hl; reflexivity.
Qed.

Lemma rne_scale P n k :
  0 < n -> 0 <= k -> rne (P * 2 ^ k) (n + k) = rne P n.
Proof.
  intros Hn Hk. unfold rne.
  assert (H2k : 0 < 2 ^ k) by (apply Z.pow_pos_nonneg; lia).
  assert (Hs : Z.shiftr (P * 2 ^ k) (n + k) = Z.shiftr P n).
  { rewrite !Z.shiftr_div_pow2, Z.pow_add_r by lia.
    apply Z.div_mul_cancel_r; lia. }
  assert (Ht : Z.testbit (P * 2 ^ k) (n + k - 1) = Z.testbit P (n - 1)).
  { replace (n + k - 1) with (k + (n - 1)) by lia.
    apply Z.mul_pow2_bits_add. lia. }
  assert (Hm : ((P * 2 ^ k) mod 2 ^ (n + k - 1) =? 0) = (P mod 2 ^ (n - 1) =? 0)).
  { replace (n + k - 1) with (n - 1 + k) by lia.
    rewrite Z.pow_add_r, Z.mul_mod_distr_r by lia.
    destruct (Z.eqb_spec (P mod 2 ^ (n - 1)) 0) as [-> | Hne]; [reflexivity|].
    apply Z.eqb_neq. nia. }
  rewrite Hs, Ht, Hm. reflexivity.
Qed.

Lemma Zdigits2_product ma ms :
  Zdigits2 (Zpos ma) = 24 -> Zdigits2 (Zpos ms) = 24 ->
  Zdigits2 (Zpos (ma * ms)) = 47 \/ Zdigits2 (Zpos (ma * ms)) = 48.
Proof.
  intros Ha Hs.
  pose proof (Zdigits2_bounds ma) as Hma. rewrite Ha in Hma.
  pose proof (Zdigits2_bounds ms) as Hms. rewrite Hs in Hms.
  change (2 ^ (24 - 1)) with 8388608 in *. change (2 ^ 24) with 16777216 in *.
  destruct (Z_lt_ge_dec (Zpos (ma * ms)) (2 ^ 47)) as [Hlt | Hge].
  - left. apply Zdigits2_unique. split; [|exact Hlt].
    change (2 ^ (47 - 1)) with (8388608 * 8388608). nia.
  - right. apply Zdigits2_unique. split; [simpl (48 - 1); lia|].
    change (2 ^ 48) with (16777216 * 16777216). nia.
Qed.

(** The product of two single-precision numbers is exact in double, so
    rounding it back gives the single-precision product. *)
Lemma of_double_mul sa ma ea ss ms es :
  Zdigits2 (Zpos ma) = 24 -> Zdigits2 (Zpos ms) = 24 ->
  -100 <= ea <= 100 -> -100 <= es <= 100 -> -100 <= ea + es <= 50 ->
  F32.of_double (F32.to_double (S754_finite sa ma ea) *
                 F32.to_double (S754_finite ss ms es))%float =
  F32.mul (S754_finite sa ma ea) (S754_finite ss ms es).
Proof.
  intros Ha Hs Hea Hes He.
  unfold F32.of_double. rewrite mul_spec, !Prim2SF_to_double by (auto; lia).
  unfold SF64mul, F32.mul, SFmul.
  set (s := xorb sa ss).
  assert (Hprod : Zpos (ma * 536870912 * (ms * 536870912)) =
                  Zpos (ma * ms) * 2 ^ 58).
  { change (2 ^ 58) with (536870912 * 536870912). lia. }
  rewrite Hprod.
  destruct (Zdigits2_product ma ms Ha Hs) as [Hd | Hd].
  - (* 47 bits *)
    assert (Hq : Zpos (ma * ms) * 2 ^ 58 = Zpos (ma * ms * 64) * 2 ^ 52).
    { change (2 ^ 58) with (64 * 2 ^ 52). lia. }
    assert (Hdq : Zdigits2 (Zpos (ma * ms * 64)) = 53).
    { change (Zpos (ma * ms * 64)) with (Zpos (ma * ms) * 2 ^ 6).
      rewrite Zdigits2_mul_pow2, Hd by lia. reflexivity. }
    rewrite Hq, binary_round_aux_shift;
      [| lia | rewrite Hdq; unfold fexp, emin, prec, emax; lia | unfold prec, emax; lia].
    unfold binary_round. change (Zpos (digits2_pos (ma * ms * 64))) with
      (Zdigits2 (Zpos (ma * ms * 64))).
    rewrite Hdq, fexp32 by lia.
    assert (Hal : shl_align (ma * ms * 64) (ea - 29 + (es - 29) + 52)
                    (53 + (ea - 29 + (es - 29) + 52) - 24) =
                  ((ma * ms * 64)%positive, ea - 29 + (es - 29) + 52)).
    { unfold shl_align.
      replace (53 + (ea - 29 + (es - 29) + 52) - 24 - (ea - 29 + (es - 29) + 52))
        with 29 by lia. reflexivity. }
    rewrite Hal.
    rewrite (binary_round_aux_long s (ma * ms * 64) _ (23 + 6)) by (rewrite ?Hdq; lia).
    rewrite (binary_round_aux_long s (ma * ms) _ 23) by (rewrite ?Hd; lia).
    change (Zpos (ma * ms * 64)) with (Zpos (ma * ms) * 2 ^ 6).
    rewrite rne_scale by lia.
    replace (ea - 29 + (es - 29) + 52 + (23 + 6)) with (ea + es + 23) by lia.
    reflexivity.
  - (* 48 bits *)
    assert (Hq : Zpos (ma * ms) * 2 ^ 58 = Zpos (ma * ms * 32) * 2 ^ 53).
    { change (2 ^ 58) with (32 * 2 ^ 53). lia. }
    assert (Hdq : Zdigits2 (Zpos (ma * ms * 32)) = 53).
    { change (Zpos (ma * ms * 32)) with (Zpos (ma * ms) * 2 ^ 5).
      rewrite Zdigits2_mul_pow2, Hd by lia. reflexivity. }
    rewrite Hq, binary_round_aux_shift;
      [| lia | rewrite Hdq; unfold fexp, emin, prec, emax; lia | unfold prec, emax; lia].
    unfold binary_round. change (Zpos (digits2_pos (ma * ms * 32))) with
      (Zdigits2 (Zpos (ma * ms * 32))).
    rewrite Hdq, fexp32 by lia.
    assert (Hal : shl_align (ma * ms * 32) (ea - 29 + (es - 29) + 53)
                    (53 + (ea - 29 + (es - 29) + 53) - 24) =
                  ((ma * ms * 32)%positive, ea - 29 + (es - 29) + 53)).
    { unfold shl_align.
      replace (53 + (ea - 29 + (es - 29) + 53) - 24 - (ea - 29 + (es - 29) + 53))
        with 29 by lia. reflexivity. }
    rewrite Hal.
    rewrite (binary_round_aux_long s (ma * ms * 32) _ (24 + 5)) by (rewrite ?Hdq; lia).
    rewrite (binary_round_aux_long s (ma * ms) _ 24) by (rewrite ?Hd; lia).
    change (Zpos (ma * ms * 32)) with (Zpos (ma * ms) * 2 ^ 5).
    rewrite rne_scale by lia.
    replace (ea - 29 + (es - 29) + 53 + (24 + 5)) with (ea + es + 24) by lia.
    reflexivity.
Qed.

(** * Normalising a count *)

Lemma of_int_normal n :
  0 < n <= max_count ->
  exists m, F32.of_int n = S754_finite false m (Zdigits2 n - 24) /\
            Zpos m * 2 ^ (Zdigits2 n - 1) = n * 2 ^ 23 /\
            Zdigits2 (Zpos m) = 24 /\ 1 <= Zdigits2 n <= 25.
Proof.
  intros Hn. destruct (of_int_canonical n Hn) as (m & Hm & Hv).
  exists m. split; [exact Hm|]. split; [exact Hv|].
  destruct n as [|p|p]; try lia.
  pose proof (Zdigits2_bounds p) as Hb.
  assert (H1 : 1 <= Zdigits2 (Zpos p)) by (simpl; lia).
  assert (Hp : 0 < 2 ^ (Zdigits2 (Zpos p) - 1)) by (apply Z.pow_pos_nonneg; lia).
  assert (H2 : 2 ^ Zdigits2 (Zpos p) = 2 * 2 ^ (Zdigits2 (Zpos p) - 1)).
  { rewrite <- Z.pow_succ_r by lia. f_equal. lia. }
  split.
  - apply Zdigits2_unique.
    change (2 ^ (24 - 1)) with 8388608. change (2 ^ 24) with 16777216.
    change (2 ^ 23) with 8388608 in Hv. nia.
  - split; [exact H1|].
    destruct (Z_le_gt_dec (Zdigits2 (Zpos p)) 25) as [|Hgt]; auto.
    assert (2 ^ 25 <= 2 ^ (Zdigits2 (Zpos p) - 1)) by (apply Z.pow_le_mono_r; lia).
    unfold max_count in Hn. change (2 ^ 25) with 33554432 in *. lia.
Qed.

(** 1.0f * M is M. *)
Lemma F32_mul_one_l m e :
  Zdigits2 (Zpos m) = 24 -> -23 <= e <= 1 ->
  F32.mul F32.one (S754_finite false m e) = S754_finite false m e.
Proof.
  intros Hd He. unfold F32.mul, F32.one, SFmul. simpl xorb.
  replace (Zpos (8388608 * m)) with (Zpos m * 2 ^ 23)
    by (change (2 ^ 23) with 8388608; lia).
  rewrite binary_round_aux_shift;
    [| lia | rewrite Hd, fexp32 by lia; lia | unfold F32.emax, F32.prec; lia].
  f_equal. lia.
Qed.

(** The scale and the product, from the source of [colorFromHeatmap]. *)
Lemma colorFromHeatmap_count v M :
  0 <= v <= max_count -> 0 < M <= max_count ->
  colorFromHeatmap (F32.of_int v) (F32.of_int M) (F32.of_int 1) =
  F32.mul (F32.of_int v) (F32.div F32.one (F32.of_int M)).
Proof.
  intros Hv HM. unfold colorFromHeatmap.
  destruct (of_int_normal M HM) as (mb & Hb & _ & Hdb & HdM).
  change (F32.mul F32.one (F32.of_int 1)) with F32.one.
  rewrite Hb, F32_mul_one_l by (auto; lia).
  destruct (F32_div_one mb (Zdigits2 M - 24) Hdb ltac:(lia))
    as (ms & es & q1 & Hs & Hds & Hes & _).
  rewrite Hs.
  destruct (Z.eq_dec v 0) as [-> | Hv0].
  - change (F32.of_int 0) with (S754_zero false).
    unfold F32.of_double. rewrite mul_spec.
    change (Prim2SF (F32.to_double (S754_zero false))) with (S754_zero false).
    rewrite Prim2SF_to_double by (auto; lia). reflexivity.
  - destruct (of_int_normal v ltac:(lia)) as (ma & Ha & _ & Hda & Hdv).
    rewrite Ha. apply of_double_mul; auto; lia.
Qed.

Lemma product_le_one ma mb ms q1 delta j d :
  8388608 <= ma < 16777216 -> 8388608 <= mb < 16777216 ->
  0 <= delta -> j = 0 \/ j = 1 -> q1 = ms * 2 ^ j ->
  ma <= mb * 2 ^ delta -> 2 * q1 * mb <= 2 ^ 48 + mb ->
  d = 47 \/ d = 48 -> 2 ^ (d - 1) <= ma * ms ->
  d - delta - 47 + j <= 0 \/
  (d - delta - 47 + j = 1 /\ ma * ms <= 2 ^ (d - 1) + 2 ^ (d - 25)).
Proof.
  intros Hma Hmb Hdelta Hj Hq1 Hle Hq Hd HP.
  destruct (Z_le_gt_dec (d - delta - 47 + j) 0) as [|Ht]; [left; assumption|].
  right.
  assert (H1 : ma * ms * 2 ^ (j + 1) * mb <= mb * 2 ^ delta * (2 ^ 48 + mb)).
  { apply Z.le_trans with (ma * (2 ^ 48 + mb)).
    - replace (ma * ms * 2 ^ (j + 1) * mb) with (ma * (2 * q1 * mb))
        by (subst q1; destruct Hj as [-> | ->];
            [change (2 ^ (0 + 1)) with 2; change (2 ^ 0) with 1
            |change (2 ^ (1 + 1)) with 4; change (2 ^ 1) with 2]; ring).
      apply Z.mul_le_mono_nonneg_l; lia.
    - apply Z.mul_le_mono_nonneg_r; [simpl; lia | exact Hle]. }
  assert (H2 : ma * ms * 2 ^ (j + 1) <= 2 ^ delta * (2 ^ 48 + mb)).
  { apply (Z.mul_le_mono_pos_r _ _ mb); [lia|].
    replace (2 ^ delta * (2 ^ 48 + mb) * mb) with (mb * 2 ^ delta * (2 ^ 48 + mb)) by ring.
    exact H1. }
  assert (Hdl : delta = 0 \/ delta = 1) by lia.
  change (2 ^ 48) with 281474976710656 in H2.
  destruct Hd as [-> | ->]; destruct Hj as [-> | ->]; destruct Hdl as [-> | ->];
    simpl in H2, HP |- *; lia.
Qed.

Lemma product_near_one mb ms q1 j d :
  8388608 <= mb < 16777216 ->
  j = 0 \/ j = 1 -> q1 = ms * 2 ^ j ->
  2 ^ 48 - mb <= 2 * q1 * mb <= 2 ^ 48 + mb ->
  d = 47 \/ d = 48 -> 2 ^ (d - 1) <= mb * ms < 2 ^ d ->
  (d - 47 + j = 0 /\ 16777215 * 2 ^ (d - 24) <= mb * ms) \/
  (d - 47 + j = 1 /\ mb * ms <= 2 ^ (d - 1) + 2 ^ (d - 25)).
Proof.
  intros Hmb Hj Hq1 Hq Hd HP.
  replace (2 * q1 * mb) with (mb * ms * 2 ^ (j + 1)) in Hq
    by (subst q1; destruct Hj as [-> | ->];
            [change (2 ^ (0 + 1)) with 2; change (2 ^ 0) with 1
            |change (2 ^ (1 + 1)) with 4; change (2 ^ 1) with 2]; ring).
  change (2 ^ 48) with 281474976710656 in Hq.
  destruct Hd as [-> | ->]; destruct Hj as [-> | ->];
    simpl in Hq, HP |- *; lia.
Qed.

(** The pieces of a normalised count: the mantissas of the count and of
    the scale, the exponent of the product and the size of the product. *)
Lemma normalized_parts v M :
  0 < v <= max_count -> 0 < M <= max_count ->
  exists ma mb ms j d,
    F32.mul (F32.of_int v) (F32.div F32.one (F32.of_int M)) =
    binary_round_aux F32.prec F32.emax false (Zpos (ma * ms))
      (Zdigits2 v - Zdigits2 M - 47 + j) loc_Exact /\
    Zpos ma * 2 ^ (Zdigits2 v - 1) = v * 2 ^ 23 /\
    Zpos mb * 2 ^ (Zdigits2 M - 1) = M * 2 ^ 23 /\
    (8388608 <= Zpos ma < 16777216) /\ (8388608 <= Zpos mb < 16777216) /\
    (j = 0 \/ j = 1) /\
    2 ^ 48 - Zpos mb <= 2 * (Zpos ms * 2 ^ j) * Zpos mb <= 2 ^ 48 + Zpos mb /\
    (d = 47 \/ d = 48) /\ Zdigits2 (Zpos (ma * ms)) = d /\
    1 <= Zdigits2 v <= 25 /\ 1 <= Zdigits2 M <= 25.
Proof.
  intros Hv HM.
  destruct (of_int_normal v Hv) as (ma & Ha & Hva & Hda & Hdv).
  destruct (of_int_normal M HM) as (mb & Hb & Hvb & Hdb & HdM).
  destruct (F32_div_one mb (Zdigits2 M - 24) Hdb ltac:(lia))
    as (ms & es & q1 & Hs & Hds & Hes & Hq).
  pose proof (Zdigits2_bounds ma) as Hma. rewrite Hda in Hma.
  pose proof (Zdigits2_bounds mb) as Hmb. rewrite Hdb in Hmb.
  change (2 ^ (24 - 1)) with 8388608 in *. change (2 ^ 24) with 16777216 in *.
  assert (Hj : exists j, (j = 0 \/ j = 1) /\ es = -47 - (Zdigits2 M - 24) + j /\
                         q1 = Zpos ms * 2 ^ j).
  { destruct Hes as [[-> <-] | [-> <-]]; [exists 0 | exists 1];
      repeat split; auto; lia. }
  destruct Hj as (j & Hj & -> & ->).
  assert (Hd : exists d, (d = 47 \/ d = 48) /\ Zdigits2 (Zpos (ma * ms)) = d).
  { destruct (Zdigits2_product ma ms Hda Hds) as [Hd | Hd]; eauto. }
  destruct Hd as (d & Hd & HdP).
  exists ma, mb, ms, j, d.
  split; [| repeat split; auto; lia].
  rewrite Ha, Hb, Hs. unfold F32.mul, SFmul. simpl xorb. f_equal. lia.
Qed.

(** A normalised count is at most 1. *)
Lemma normalized_le_one v M :
  0 < v <= M -> M <= max_count ->
  F32.leb (F32.mul (F32.of_int v) (F32.div F32.one (F32.of_int M))) F32.one = true.
Proof.
  intros Hv HM.
  destruct (normalized_parts v M ltac:(lia) ltac:(lia))
    as (ma & mb & ms & j & d & -> & Hva & Hvb & Hma & Hmb & Hj & Hq & Hd & HdP & Hdv & HdM).
  pose proof (Zdigits2_mono v M ltac:(lia)) as Hmono.
  pose proof (Zdigits2_bounds (ma * ms)) as HP. rewrite HdP, Pos2Z.inj_mul in HP.
  assert (Hle : Zpos ma <= Zpos mb * 2 ^ (Zdigits2 M - Zdigits2 v)).
  { assert (Hp : 0 < 2 ^ (Zdigits2 v - 1)) by (apply Z.pow_pos_nonneg; lia).
    apply (Z.mul_le_mono_pos_r _ _ (2 ^ (Zdigits2 v - 1))); [exact Hp|].
    rewrite <- Z.mul_assoc, <- Z.pow_add_r by lia.
    replace (Zdigits2 M - Zdigits2 v + (Zdigits2 v - 1)) with (Zdigits2 M - 1) by lia.
    change (2 ^ 23) with 8388608 in *. lia. }
  apply (round_le_one (ma * ms) _ (d - 24)); [lia | lia | lia |].
  rewrite Pos2Z.inj_mul.
  replace (23 + (d - 24)) with (d - 1) by lia.
  replace (d - 24 - 1) with (d - 25) by lia.
  destruct (product_le_one (Zpos ma) (Zpos mb) (Zpos ms) (Zpos ms * 2 ^ j)
              (Zdigits2 M - Zdigits2 v) j d) as [Ht | [Ht HPle]];
    auto; try lia.
Qed.

(** The maximum itself is sent to 1 or to the float just below. *)
Lemma normalized_max M :
  0 < M <= max_count ->
  F32.mul (F32.of_int M) (F32.div F32.one (F32.of_int M)) = F32_pred_one \/
  F32.mul (F32.of_int M) (F32.div F32.one (F32.of_int M)) = F32.one.
Proof.
  intros HM.
  destruct (normalized_parts M M HM HM)
    as (ma & mb & ms & j & d & -> & Hva & Hvb & Hma & Hmb & Hj & Hq & Hd & HdP & Hdv & _).
  assert (Hab : Zpos ma = Zpos mb).
  { assert (Hp : 0 < 2 ^ (Zdigits2 M - 1)) by (apply Z.pow_pos_nonneg; lia).
    apply (Z.mul_reg_r _ _ (2 ^ (Zdigits2 M - 1))); lia. }
  pose proof (Zdigits2_bounds (ma * ms)) as HP. rewrite HdP, Pos2Z.inj_mul, Hab in HP.
  apply (round_near_one (ma * ms) _ (d - 24)); [lia | lia |].
  rewrite Pos2Z.inj_mul, Hab.
  replace (23 + (d - 24)) with (d - 1) by lia.
  replace (d - 24 - 1) with (d - 25) by lia.
  destruct (product_near_one (Zpos mb) (Zpos ms) (Zpos ms * 2 ^ j) j d)
    as [[Ht HPle] | [Ht HPle]]; auto; [left | right]; split; auto; lia.
Qed.

(** ... and is not negative. *)
Lemma normalized_nonneg v M :
  0 <= v <= max_count -> 0 < M <= max_count ->
  F32.leb F32.zero (F32.mul (F32.of_int v) (F32.div F32.one (F32.of_int M))) = true.
Proof.
  intros Hv HM. destruct (Z.eq_dec v 0) as [-> | Hv0].
  - destruct (of_int_normal M HM) as (mb & Hb & _ & Hdb & HdM).
    destruct (F32_div_one mb (Zdigits2 M - 24) Hdb ltac:(lia))
      as (ms & es & q1 & Hs & _).
    rewrite Hb, Hs. reflexivity.
  - destruct (normalized_parts v M ltac:(lia) HM)
      as (ma & mb & ms & j & d & -> & _ & _ & _ & _ & Hj & _ & Hd & HdP & Hdv & HdM).
    rewrite (binary_round_aux_long false (ma * ms) _ (d - 24)) by lia.
    destruct (rne (Zpos (ma * ms)) (d - 24) <? 2 ^ 24); reflexivity.
Qed.

(** In [main]: every cell of every channel is a count between 0 and
    [maxHeatmapValue], so its colour is between 0 and 1 as soon as some
    point was counted. *)
Lemma generating_normalized st ch row col v :
  generating st -> snd st <> F32.of_int 0 ->
  cell (channel ch st) row col = Some v ->
  F32.leb (F32.of_int 0) (colorFromHeatmap v (snd st) (F32.of_int 1)) = true /\
  F32.leb (colorFromHeatmap v (snd st) (F32.of_int 1)) (F32.of_int 1) = true.
Proof.
  intros Hgen Hne Hcell.
  destruct (generating_invariant st Hgen) as [[Hc (M & HM & HMeq)] [Hmax _]].
  destruct (Hc ch row col v Hcell) as (n & Hn & ->).
  pose proof (Hmax ch row col _ Hcell) as Hle.
  rewrite HMeq in *. rewrite F32_leb_count in Hle by lia.
  apply Z.leb_le in Hle.
  assert (HM0 : M <> 0) by (intros ->; apply Hne; reflexivity).
  rewrite colorFromHeatmap_count by lia.
  split; [apply normalized_nonneg; lia|].
  destruct (Z.eq_dec n 0) as [-> | Hn0].
  - destruct (of_int_normal M ltac:(lia)) as (mb & Hb & _ & Hdb & HdM).
    destruct (F32_div_one mb (Zdigits2 M - 24) Hdb ltac:(lia))
      as (ms & es & q1 & Hs & _).
    rewrite Hb, Hs. reflexivity.
  - apply normalized_le_one; lia.
Qed.

(** * Exact values *)

Lemma Qtrunc_comp q1 q2 : (q1 == q2)%Q -> Qtrunc q1 = Qtrunc q2.
Proof.
  intros H. unfold Qtrunc. rewrite H. destruct (Qle_bool 0 q2); now rewrite H.
Qed.

Lemma Qtrunc_Z z : Qtrunc (inject_Z z) = z.
Proof.
  unfold Qtrunc. destruct (Qle_bool 0 (inject_Z z)); [apply Qfloor_Z | apply Qceiling_Z].
Qed.

Lemma two_Qpower e : (0 <= e) -> (2 ^ e == inject_Z (2 ^ e))%Q.
Proof. intros He. now rewrite Zpower_Qpower. Qed.

(** The integer part computed on the mantissa is the integer part of the value. *)
Lemma SFtrunc_Qtrunc x z : SFtrunc x = Some z -> z = Qtrunc (SF2Q x).
Proof.
  destruct x as [s | s | | s m e]; simpl; try discriminate.
  - intros H; inversion H; reflexivity.
  - intros H; inversion H; subst; clear H.
    destruct e as [|p|p].
    + rewrite (Qtrunc_comp _ (inject_Z (cond_Zopp s (Zpos m) * 1))).
      * rewrite Qtrunc_Z. destruct s; simpl; lia.
      * rewrite inject_Z_mult. reflexivity.
    + rewrite (Qtrunc_comp _ (inject_Z (cond_Zopp s (Zpos m) * 2 ^ Zpos p))).
      * rewrite Qtrunc_Z. destruct s; simpl cond_Zopp; lia.
      * rewrite inject_Z_mult, two_Qpower by lia. reflexivity.
    + assert (Hq : (inject_Z (cond_Zopp s (Zpos m)) * 2 ^ Zneg p ==
                    cond_Zopp s (Zpos m) # (2 ^ p)%positive)%Q).
      { rewrite (Qmake_Qdiv (cond_Zopp s (Zpos m)) (2 ^ p)). unfold Qdiv.
        assert (H2 : (2 ^ Zneg p == / inject_Z (Zpos (2 ^ p)))%Q).
        { change (Zneg p) with (- Zpos p). rewrite Qpower_opp, two_Qpower by lia.
          now rewrite Pos2Z.inj_pow. }
        rewrite H2. reflexivity. }
      rewrite (Qtrunc_comp _ _ Hq). unfold Qtrunc.
      destruct s; simpl cond_Zopp.
      * replace (Qle_bool 0 (- Zpos m # 2 ^ p)) with false by reflexivity.
        unfold Qceiling. simpl Qfloor. rewrite Pos2Z.inj_pow. reflexivity.
      * replace (Qle_bool 0 (Zpos m # 2 ^ p)) with true by reflexivity.
        simpl. rewrite Pos2Z.inj_pow. reflexivity.
Qed.

(** * Powers of two in Q *)

Lemma Qpow2_pos x : (0 < 2 ^ x)%Q.
Proof. apply Qpower_0_lt. reflexivity. Qed.

Lemma Qpow2_add x y : (2 ^ (x + y) == 2 ^ x * 2 ^ y)%Q.
Proof. apply Qpower_plus. discriminate. Qed.

Lemma Qpow2_Z x : 0 <= x -> (2 ^ x == inject_Z (2 ^ x))%Q.
Proof. apply two_Qpower. Qed.

(** Comparing m1 * 2^x with m2 * 2^y after clearing the exponents. *)
Lemma Qscale_le A B x y k :
  0 <= x + k -> 0 <= y + k ->
  (inject_Z A * 2 ^ x <= inject_Z B * 2 ^ y)%Q <-> A * 2 ^ (x + k) <= B * 2 ^ (y + k).
Proof.
  intros Hx Hy.
  rewrite Zle_Qle, !inject_Z_mult, <- !Qpow2_Z, !Qpow2_add by lia.
  rewrite !Qmult_assoc. split; intros H.
  - apply Qmult_le_compat_r; auto. apply Qlt_le_weak, Qpow2_pos.
  - apply Qmult_le_r in H; auto. apply Qpow2_pos.
Qed.

Lemma Qscale_lt A B x y k :
  0 <= x + k -> 0 <= y + k ->
  (inject_Z A * 2 ^ x < inject_Z B * 2 ^ y)%Q <-> A * 2 ^ (x + k) < B * 2 ^ (y + k).
Proof.
  intros Hx Hy.
  rewrite Zlt_Qlt, !inject_Z_mult, <- !Qpow2_Z, !Qpow2_add by lia.
  rewrite !Qmult_assoc. split; intros H.
  - apply Qmult_lt_r; auto. apply Qpow2_pos.
  - apply Qmult_lt_r in H; auto. apply Qpow2_pos.
Qed.

Lemma SF2Q_finite_pos m e : (SF2Q (S754_finite false m e) == inject_Z (Zpos m) * 2 ^ e)%Q.
Proof. reflexivity. Qed.

(** * Conversions and ranges *)

Lemma int_of_double_exact p :
  SFis_finite (Prim2SF p) = true -> Int.in_range (Qtrunc (D2Q p)) = true ->
  int_of_double p = Ok (Qtrunc (D2Q p)).
Proof.
  intros Hfin Hrange. unfold int_of_double, D2Q in *.
  destruct (SFtrunc (Prim2SF p)) as [v|] eqn:Hv.
  - apply SFtrunc_Qtrunc in Hv. subst v. now rewrite Hrange.
  - destruct (Prim2SF p); simpl in *; discriminate.
Qed.

Lemma forallb_seqZ (f : Z -> bool) m n x :
  forallb f (seqZ m n) = true -> m <= x < m + n -> f x = true.
Proof.
  intros H Hx. rewrite forallb_forall in H. apply H.
  apply list_elem_of_In, elem_of_seqZ. exact Hx.
Qed.

(** * Rounding errors *)

Lemma rne_le_int P n K : 0 < n -> 0 <= P <= K * 2 ^ n -> rne P n <= K.
Proof.
  intros Hn HP.
  assert (H2 : 0 < 2 ^ n) by (apply Z.pow_pos_nonneg; lia).
  pose proof (Z.div_mod P (2 ^ n) ltac:(lia)) as E.
  pose proof (Z.mod_pos_bound P (2 ^ n) H2) as B.
  assert (Hq : P / 2 ^ n <= K) by (apply Z.div_le_upper_bound; lia).
  destruct (rne_spec P n Hn ltac:(lia)) as [(-> & _) | (-> & R & _)]; [exact Hq|].
  destruct (Z.eq_dec (P / 2 ^ n) K) as [Heq | Hne]; [|lia].
  rewrite Heq in E. nia.
Qed.

Lemma rne_ge_int P n K : 0 < n -> 0 <= K * 2 ^ n <= P -> K <= rne P n.
Proof.
  intros Hn HP.
  assert (H2 : 0 < 2 ^ n) by (apply Z.pow_pos_nonneg; lia).
  assert (Hq : K <= P / 2 ^ n) by (apply Z.div_le_lower_bound; lia).
  destruct (rne_spec P n Hn ltac:(lia)) as [(-> & _) | (-> & _)]; lia.
Qed.

Lemma rne_error P n : 0 < n -> 0 <= P -> 2 * Z.abs (rne P n * 2 ^ n - P) <= 2 ^ n.
Proof.
  intros Hn HP.
  assert (H2 : 0 < 2 ^ n) by (apply Z.pow_pos_nonneg; lia).
  pose proof (Z.div_mod P (2 ^ n) ltac:(lia)) as E.
  pose proof (Z.mod_pos_bound P (2 ^ n) H2) as B.
  destruct (rne_spec P n Hn HP) as [(-> & Hr & _) | (-> & Hr & _)]; lia.
Qed.

Lemma Qpow2_scale m k e :
  0 <= k -> (inject_Z m * 2 ^ (e + k) == inject_Z (m * 2 ^ k) * 2 ^ e)%Q.
Proof.
  intros Hk. rewrite inject_Z_mult, <- Qpow2_Z, Qpow2_add by lia. ring.
Qed.

Section RoundingError.
Variables prec emax : Z.
Hypothesis Hprec : 1 < prec.
Hypothesis Hemax : prec < emax.

Lemma fexp_small x e :
  3 - emax - prec <= e -> x - prec <= e -> fexp prec emax x <= e.
Proof. unfold fexp, emin. lia. Qed.

Lemma Zdigits2_pow2 k : 0 <= k -> Zdigits2 (2 ^ k) = k + 1.
Proof.
  intros Hk. assert (H : 0 < 2 ^ k) by (apply Z.pow_pos_nonneg; lia).
  destruct (2 ^ k) as [|R|R] eqn:HR; try lia.
  apply Zdigits2_unique. replace (k + 1 - 1) with k by lia.
  rewrite (Z.pow_add_r 2 k 1) by lia. change (2 ^ 1) with 2. rewrite HR. lia.
Qed.

(** A mantissa that fits is kept by the second alignment of the rounding. *)
Lemma shr_fexp_keep R E :
  3 - emax - prec <= E -> 0 <= R < 2 ^ prec ->
  shr_fexp prec emax R E loc_Exact = (Build_shr_record R false false, E).
Proof.
  intros HE HR. unfold shr_fexp.
  assert (Hd : Zdigits2 R <= prec).
  { destruct R as [|R|R]; try lia; [simpl; lia|].
    pose proof (Zdigits2_bounds R) as HB.
    destruct (Z_le_gt_dec (Zdigits2 (Zpos R)) prec) as [|Hgt]; auto.
    assert (2 ^ prec <= 2 ^ (Zdigits2 (Zpos R) - 1)) by (apply Z.pow_le_mono_r; lia).
    lia. }
  pose proof (fexp_small (Zdigits2 R + E) E HE ltac:(lia)) as Hf.
  unfold shr. destruct (fexp prec emax (Zdigits2 R + E) - E) eqn:Hn; auto. lia.
Qed.

(** A carry out of the top bit moves the exponent up by one. *)
Lemma shr_fexp_carry E :
  3 - emax - prec <= E ->
  shr_fexp prec emax (2 ^ prec) E loc_Exact =
  (Build_shr_record (2 ^ (prec - 1)) false false, E + 1).
Proof.
  intros HE. unfold shr_fexp. rewrite Zdigits2_pow2 by lia.
  assert (Hf : fexp prec emax (prec + 1 + E) = E + 1) by (unfold fexp, emin; lia).
  rewrite Hf. replace (E + 1 - E) with 1 by lia. simpl shr_record_of_loc.
  replace (2 ^ prec) with (2 ^ (prec - 1) * 2 ^ 1).
  - apply shr_exact; [apply Z.pow_nonneg|]; lia.
  - rewrite <- Z.pow_add_r by lia. f_equal. lia.
Qed.

(** The end of a rounding: the rounded mantissa [R], at most 2^prec,
    is the value of the result. *)
Lemma binary_round_aux_finish m e l mrs E :
  shr_fexp prec emax m e l = (mrs, E) ->
  0 <= round_nearest_even (shr_m mrs) (loc_of_shr_record mrs) <= 2 ^ prec ->
  3 - emax - prec <= E -> E < emax - prec ->
  SFis_finite (binary_round_aux prec emax false m e l) = true /\
  (SF2Q (binary_round_aux prec emax false m e l) ==
     inject_Z (round_nearest_even (shr_m mrs) (loc_of_shr_record mrs)) * 2 ^ E)%Q.
Proof.
  intros Hs HR HE Hhi. unfold binary_round_aux. rewrite Hs.
  set (R := round_nearest_even (shr_m mrs) (loc_of_shr_record mrs)) in *.
  assert (Hpp : 0 < 2 ^ (prec - 1)) by (apply Z.pow_pos_nonneg; lia).
  assert (Hp2 : 2 ^ prec = 2 * 2 ^ (prec - 1)) by (apply pow2_pred; lia).
  destruct (Z.eq_dec R (2 ^ prec)) as [Hc | Hc].
  - rewrite Hc, shr_fexp_carry by lia. cbn [shr_m].
    destruct (2 ^ (prec - 1)) as [|q|q] eqn:Hq; try lia.
    replace (E + 1 <=? emax - prec) with true by (symmetry; apply Z.leb_le; lia).
    split; [reflexivity|].
    rewrite SF2Q_finite_pos, Qpow2_scale by lia. rewrite Hp2.
    change (2 ^ 1) with 2. replace (Zpos q * 2) with (2 * Zpos q) by ring. reflexivity.
  - rewrite shr_fexp_keep by lia. cbn [shr_m].
    destruct R as [|q|q] eqn:HRq; try lia.
    + split; [reflexivity|]. simpl SF2Q. change (inject_Z 0) with 0%Q.
      now rewrite Qmult_0_l.
    + replace (E <=? emax - prec) with true by (symmetry; apply Z.leb_le; lia).
      split; [reflexivity|]. apply SF2Q_finite_pos.
Qed.

(** The value kept by the rounding of P * 2^e: within half a unit in the
    last place of P * 2^e, or within half of the smallest positive
    number when the result is subnormal. *)
Lemma binary_round_aux_error P e :
  e < emax - prec -> Zdigits2 (Zpos P) + e < emax ->
  exists V,
    0 <= V /\
    SFis_finite (binary_round_aux prec emax false (Zpos P) e loc_Exact) = true /\
    (SF2Q (binary_round_aux prec emax false (Zpos P) e loc_Exact) ==
       inject_Z V * 2 ^ e)%Q /\
    ((2 ^ prec - 1) * Zpos P <= 2 ^ prec * V <= (2 ^ prec + 1) * Zpos P \/
     (e < 3 - emax - prec /\
      2 * Z.abs (V - Zpos P) <= 2 ^ (3 - emax - prec - e))).
Proof.
  intros He Hd.
  assert (Hpp : 0 < 2 ^ prec) by (apply Z.pow_pos_nonneg; lia).
  destruct (Z_le_gt_dec (fexp prec emax (Zdigits2 (Zpos P) + e)) e) as [Hle | Hgt].
  - exists (Zpos P). rewrite binary_round_aux_same by lia.
    split; [lia|]. split; [reflexivity|]. split; [apply SF2Q_finite_pos|].
    left. nia.
  - set (n := fexp prec emax (Zdigits2 (Zpos P) + e) - e).
    assert (Hn : 0 < n) by (unfold n; lia).
    assert (Hhi : e + n < emax - prec) by (unfold n, fexp, emin; lia).
    assert (Hlo : 3 - emax - prec <= e + n) by (unfold n, fexp, emin; lia).
    assert (Hdn : Zdigits2 (Zpos P) - n <= prec) by (unfold n, fexp, emin; lia).
    assert (H2n : 0 < 2 ^ n) by (apply Z.pow_pos_nonneg; lia).
    pose proof (Zdigits2_bounds P) as HP.
    assert (Hd1 : 1 <= Zdigits2 (Zpos P)) by (simpl; lia).
    pose proof (rne_error (Zpos P) n Hn ltac:(lia)) as Herr.
    assert (Hlow : 0 <= rne (Zpos P) n) by (apply (rne_ge_int _ _ 0); lia).
    assert (Hup : rne (Zpos P) n <= 2 ^ prec).
    { destruct (Z_le_gt_dec n (Zdigits2 (Zpos P))) as [Hle | Hgt'].
      - assert (Hr : rne (Zpos P) n <= 2 ^ (Zdigits2 (Zpos P) - n)).
        { apply rne_le_int; auto. rewrite <- Z.pow_add_r by lia.
          replace (Zdigits2 (Zpos P) - n + n) with (Zdigits2 (Zpos P)) by lia. lia. }
        assert (2 ^ (Zdigits2 (Zpos P) - n) <= 2 ^ prec) by (apply Z.pow_le_mono_r; lia).
        lia.
      - assert (Hr : rne (Zpos P) n <= 1).
        { apply rne_le_int; auto.
          assert (2 ^ Zdigits2 (Zpos P) <= 2 ^ n) by (apply Z.pow_le_mono_r; lia). lia. }
        lia. }
    assert (Hs : shr_fexp prec emax (Zpos P) e loc_Exact =
                 (Build_shr_record (Z.shiftr (Zpos P) n) (Z.testbit (Zpos P) (n - 1))
                    (negb (Zpos P mod 2 ^ (n - 1) =? 0)), e + n)).
    { unfold shr_fexp. fold n. simpl shr_record_of_loc.
      now rewrite shr_spec by lia. }
    destruct (binary_round_aux_finish _ _ _ _ _ Hs) as [Hfin Hval];
      [cbn [shr_m]; fold (rne (Zpos P) n); lia | exact Hlo | exact Hhi |].
    cbn [shr_m] in Hval. fold (rne (Zpos P) n) in Hval.
    exists (rne (Zpos P) n * 2 ^ n).
    split; [nia|]. split; [exact Hfin|]. split.
    { rewrite Hval. apply Qpow2_scale. lia. }
    destruct (Z_le_gt_dec (3 - emax - prec) (Zdigits2 (Zpos P) + e - prec))
      as [Hnorm | Hsub].
    + left.
      assert (Hnn : Zdigits2 (Zpos P) = prec + n) by (unfold n, fexp, emin; lia).
      rewrite Hnn in HP.
      replace (prec + n - 1) with (prec - 1 + n) in HP by lia.
      rewrite Z.pow_add_r in HP by lia.
      assert (Hp2 : 2 ^ prec = 2 * 2 ^ (prec - 1)) by (apply pow2_pred; lia).
      assert (0 < 2 ^ (prec - 1)) by (apply Z.pow_pos_nonneg; lia).
      nia.
    + right.
      assert (Hnn : n = 3 - emax - prec - e) by (unfold n, fexp, emin; lia).
      rewrite <- Hnn. split; [lia | exact Herr].
Qed.

(** Rounding an integer multiple of 2^e, e not below the smallest
    exponent: no underflow, so the error is relative. *)
Lemma binary_round_error P e :
  3 - emax - prec <= e -> Zdigits2 (Zpos P) + e < emax ->
  exists V,
    0 <= V /\
    SFis_finite (binary_round prec emax false P e) = true /\
    (SF2Q (binary_round prec emax false P e) == inject_Z V * 2 ^ e)%Q /\
    (2 ^ prec - 1) * Zpos P <= 2 ^ prec * V <= (2 ^ prec + 1) * Zpos P.
Proof.
  intros He Hd. unfold binary_round.
  change (Zpos (digits2_pos P)) with (Zdigits2 (Zpos P)).
  assert (Hpp : 0 < 2 ^ prec) by (apply Z.pow_pos_nonneg; lia).
  pose proof (shl_align_spec P e (fexp prec emax (Zdigits2 (Zpos P) + e))) as Hs.
  destruct (shl_align P e _) as [mz ez]. destruct Hs as [Hez Hmz].
  destruct (Z_le_gt_dec (fexp prec emax (Zdigits2 (Zpos P) + e)) e) as [Hle | Hgt].
  - (* short mantissa, padded *)
    rewrite Z.min_r in Hez by lia.
    assert (Hdz : Zdigits2 (Zpos mz) + ez = Zdigits2 (Zpos P) + e).
    { rewrite Hmz, Zdigits2_mul_pow2 by lia. lia. }
    rewrite binary_round_aux_same.
    2: { rewrite Hdz. lia. }
    2: { rewrite Hez. unfold fexp, emin. lia. }
    exists (Zpos P). split; [lia|]. split; [reflexivity|]. split; [|nia].
    rewrite SF2Q_finite_pos, Hmz.
    rewrite <- Qpow2_scale by lia. replace (ez + (e - ez)) with e by lia. reflexivity.
  - rewrite Z.min_l in Hez by lia. subst ez.
    rewrite Z.sub_diag, Z.mul_1_r in Hmz. injection Hmz as ->.
    destruct (binary_round_aux_error P e) as (V & HV & Hfin & Hval & [Hrel | [Hlt _]]);
      try (unfold fexp, emin in *; lia).
    exists V. repeat split; auto; lia.
Qed.

(** The quotient of two normal numbers, away from underflow and
    overflow: V * 2^(ex - ey - prec) with V * my within half a unit in
    the last place of mx * 2^prec. *)
Lemma SFdiv_error mx ex my ey :
  Zdigits2 (Zpos mx) = prec -> Zdigits2 (Zpos my) = prec ->
  3 - emax - prec <= ex - ey - prec -> ex - ey + 1 < emax ->
  exists V,
    0 <= V /\
    SFis_finite (SFdiv prec emax (S754_finite false mx ex) (S754_finite false my ey))
      = true /\
    (SF2Q (SFdiv prec emax (S754_finite false mx ex) (S754_finite false my ey)) ==
       inject_Z V * 2 ^ (ex - ey - prec))%Q /\
    (2 ^ prec - 1) * (Zpos mx * 2 ^ prec) <= 2 ^ prec * (V * Zpos my)
      <= (2 ^ prec + 1) * (Zpos mx * 2 ^ prec).
Proof.
  intros Hdx Hdy Hlo Hhi.
  pose proof (Zdigits2_bounds mx) as HX. rewrite Hdx in HX.
  pose proof (Zdigits2_bounds my) as HY. rewrite Hdy in HY.
  assert (Hpp : 0 < 2 ^ (prec - 1)) by (apply Z.pow_pos_nonneg; lia).
  assert (Hp2 : 2 ^ prec = 2 * 2 ^ (prec - 1)) by (apply pow2_pred; lia).
  assert (Hp3 : 2 ^ (prec + 1) = 2 * 2 ^ prec)
    by (rewrite Z.pow_add_r by lia; change (2 ^ 1) with 2; ring).
  unfold SFdiv, SFdiv_core_binary. rewrite Hdx, Hdy.
  assert (Hf : fexp prec emax (prec + ex - (prec + ey)) = ex - ey - prec)
    by (unfold fexp, emin; lia).
  rewrite Hf.
  replace (Z.min (ex - ey - prec) (ex - ey)) with (ex - ey - prec) by lia.
  replace (ex - ey - (ex - ey - prec)) with prec by lia.
  set (e' := ex - ey - prec).
  assert (Hm' : match prec with
                | 0 => Zpos mx
                | Zpos _ => Z.shiftl (Zpos mx) prec
                | Zneg _ => 0
                end = Zpos mx * 2 ^ prec).
  { rewrite <- Z.shiftl_mul_pow2 by lia. destruct prec; [lia | reflexivity | lia]. }
  rewrite Hm'.
  pose proof (Z_div_mod (Zpos mx * 2 ^ prec) (Zpos my) ltac:(lia)) as Hdiv.
  destruct (Z.div_eucl (Zpos mx * 2 ^ prec) (Zpos my)) as [q r].
  destruct Hdiv as [Hqr Hr]. cbn [xorb].
  assert (Hq : 2 ^ (prec - 1) <= q < 2 ^ (prec + 1)) by nia.
  destruct (Z_lt_ge_dec q (2 ^ prec)) as [Hsmall | Hbig].
  - (* the quotient has prec bits: no shift *)
    destruct q as [|Q|Q]; try lia.
    assert (HdQ : Zdigits2 (Zpos Q) = prec) by (apply Zdigits2_unique; lia).
    assert (Hs : shr_fexp prec emax (Zpos Q) e' (new_location (Zpos my) r) =
                 (shr_record_of_loc (Zpos Q) (new_location (Zpos my) r), e')).
    { unfold shr_fexp. rewrite HdQ.
      assert (Hf' : fexp prec emax (prec + e') = e') by (unfold fexp, emin, e'; lia).
      rewrite Hf', Z.sub_diag. reflexivity. }
    pose proof (binary_round_aux_finish _ _ _ _ _ Hs) as Hfin.
    rewrite loc_of_shr_record_of_loc, shr_m_shr_record_of_loc in Hfin.
    destruct (round_nearest_even_spec (Zpos Q) r (Zpos my) ltac:(lia) Hr)
      as [[HR Hrr] | [HR Hrr]]; rewrite HR in Hfin;
      destruct Hfin as [Hfin Hval]; try (unfold e'; lia);
      [exists (Zpos Q) | exists (Zpos Q + 1)];
      (split; [lia|]); (split; [exact Hfin|]); (split; [exact Hval|]); nia.
  - (* the quotient has prec + 1 bits: one bit is shifted out *)
    assert (HdQ : Zdigits2 q = prec + 1).
    { destruct q as [|Q|Q]; try lia. apply Zdigits2_unique.
      replace (prec + 1 - 1) with prec by lia. lia. }
    pose proof (Z.div2_odd q) as Hodd.
    assert (Hs : shr_fexp prec emax q e' (new_location (Zpos my) r) =
                 (shr_1 (shr_record_of_loc q (new_location (Zpos my) r)), e' + 1)).
    { unfold shr_fexp. rewrite HdQ.
      assert (Hf' : fexp prec emax (prec + 1 + e') = e' + 1)
        by (unfold fexp, emin, e'; lia).
      rewrite Hf'. replace (e' + 1 - e') with 1 by lia. reflexivity. }
    pose proof (binary_round_aux_finish _ _ _ _ _ Hs) as Hfin.
    assert (HR : exists R,
               round_nearest_even
                 (shr_m (shr_1 (shr_record_of_loc q (new_location (Zpos my) r))))
                 (loc_of_shr_record
                    (shr_1 (shr_record_of_loc q (new_location (Zpos my) r)))) = R /\
               0 <= R <= 2 ^ prec /\
               Z.abs (2 * R * Zpos my - Zpos mx * 2 ^ prec) <= Zpos my).
    { destruct (new_location_spec (Zpos my) r ltac:(lia) Hr)
        as [[H ->] | [[H ->] | [[H ->] | [H ->]]]];
        cbn [shr_record_of_loc]; rewrite shr_1_spec by lia;
        cbn [shr_m loc_of_shr_record shr_r shr_s orb];
        destruct (Z.odd q); cbn [round_nearest_even Z.b2z] in *;
        try (destruct (Z.even (Z.div2 q)));
        eexists; (split; [reflexivity|]); split; nia. }
    destruct HR as (R & HR & HRb & Herr). rewrite HR in Hfin.
    destruct Hfin as [Hfin Hval]; try (unfold e'; lia).
    exists (R * 2 ^ 1). split; [lia|]. split; [exact Hfin|]. split.
    { rewrite Hval. apply Qpow2_scale. lia. }
    change (2 ^ 1) with 2. nia.
Qed.

End RoundingError.

(** * Rounding errors of the double operations *)

Lemma prec_gt_1 : 1 < prec.
Proof. reflexivity. Qed.

Lemma prec_lt_emax : prec < emax.
Proof. reflexivity. Qed.

Lemma near_comp X X' V V' : (X == X')%Q -> (V == V')%Q -> near X V -> near X' V'.
Proof. unfold near. intros HX HV. now rewrite HX, HV. Qed.

Lemma near_refl X : (0 <= X)%Q -> near X X.
Proof. unfold near, unit_roundoff. intros H. lra. Qed.

Lemma near_nonneg X V : (0 <= X)%Q -> near X V -> (0 <= V)%Q.
Proof. unfold near, unit_roundoff. intros H [H1 _]. lra. Qed.

Lemma near_scaled P V e :
  (2 ^ prec - 1) * P <= 2 ^ prec * V <= (2 ^ prec + 1) * P ->
  near (inject_Z P * 2 ^ e) (inject_Z V * 2 ^ e).
Proof.
  intros [H1 H2]. unfold near.
  change (2 ^ prec) with 9007199254740992 in *.
  rewrite Zle_Qle in H1, H2. rewrite !inject_Z_mult in H1, H2.
  change (inject_Z (9007199254740992 - 1)) with (9007199254740991 # 1)%Q in H1.
  change (inject_Z (9007199254740992 + 1)) with (9007199254740993 # 1)%Q in H2.
  change (inject_Z 9007199254740992) with (9007199254740992 # 1)%Q in H1, H2.
  pose proof (Qpow2_pos e) as Hp.
  rewrite !Qmult_assoc.
  split; apply Qmult_le_compat_r; try (apply Qlt_le_weak; exact Hp);
    unfold unit_roundoff; lra.
Qed.

Lemma Qpow2_le_inv a b : (2 ^ a <= 2 ^ b)%Q -> a <= b.
Proof. intros H. apply (Qpower_le_compat_l_inv 2); auto. reflexivity. Qed.

(** The size of a number bounds its exponent. *)
Lemma digits_le_of_value P e k :
  (inject_Z (Zpos P) * 2 ^ e <= 2 ^ k)%Q -> Zdigits2 (Zpos P) + e <= k + 1.
Proof.
  intros H. pose proof (Zdigits2_bounds P) as [HP _].
  assert (Hd : 1 <= Zdigits2 (Zpos P)) by (simpl; lia).
  rewrite Zle_Qle in HP. rewrite <- Qpow2_Z in HP by lia.
  assert (H2 : (2 ^ (Zdigits2 (Zpos P) - 1 + e) <= 2 ^ k)%Q).
  { rewrite Qpow2_add. eapply Qle_trans; [|exact H].
    apply Qmult_le_compat_r; auto. apply Qlt_le_weak, Qpow2_pos. }
  apply Qpow2_le_inv in H2. lia.
Qed.

Lemma digits_gt_of_value P e k :
  (2 ^ k <= inject_Z (Zpos P) * 2 ^ e)%Q -> k < Zdigits2 (Zpos P) + e.
Proof.
  intros H. pose proof (Zdigits2_bounds P) as [_ HP].
  assert (Hd : 1 <= Zdigits2 (Zpos P)) by (simpl; lia).
  rewrite Zlt_Qlt in HP. rewrite <- Qpow2_Z in HP by lia.
  assert (H2 : (2 ^ k < 2 ^ (Zdigits2 (Zpos P) + e))%Q).
  { rewrite Qpow2_add. eapply Qle_lt_trans; [exact H|].
    apply Qmult_lt_compat_r; auto. apply Qpow2_pos. }
  apply Qpower_lt_compat_l_inv in H2; auto. reflexivity.
Qed.

Lemma valid_finite s m e :
  valid_binary (S754_finite s m e) = true ->
  fexp prec emax (Zdigits2 (Zpos m) + e) = e /\ e <= emax - prec.
Proof.
  unfold SpecFloat.valid_binary, bounded, canonical_mantissa.
  intros H. apply andb_true_iff in H. destruct H as [H1 H2].
  apply Z.eqb_eq in H1. apply Z.leb_le in H2. split; auto.
Qed.

Lemma SF2Q_cond_Zopp s m e :
  (SF2Q (S754_finite s m e) == inject_Z (cond_Zopp s (Zpos m)) * 2 ^ e)%Q.
Proof. reflexivity. Qed.

Lemma SF2Q_negb s m e :
  (SF2Q (S754_finite (negb s) m e) == - SF2Q (S754_finite s m e))%Q.
Proof.
  rewrite !SF2Q_cond_Zopp.
  destruct s; cbn [negb cond_Zopp]; change (Z.neg m) with (- Zpos m);
    rewrite inject_Z_opp; generalize (2 ^ e)%Q (inject_Z (Zpos m)); intros; ring.
Qed.

Lemma SF2Q_aligned s m e ez :
  ez <= e ->
  (SF2Q (S754_finite s m e) ==
   inject_Z (cond_Zopp s (Zpos m * 2 ^ (e - ez))) * 2 ^ ez)%Q.
Proof.
  intros H. rewrite SF2Q_cond_Zopp.
  replace e with (ez + (e - ez)) at 1 by lia.
  rewrite Qpow2_scale by lia.
  destruct s; cbn [cond_Zopp]; [|reflexivity].
  now rewrite Z.mul_opp_l.
Qed.

Lemma Qscaled_nonneg S e : (0 <= inject_Z S * 2 ^ e)%Q -> 0 <= S.
Proof.
  intros H. pose proof (Qpow2_pos e) as Hp.
  destruct (Z_lt_ge_dec S 0) as [Hneg|]; [|lia].
  exfalso. rewrite Zlt_Qlt in Hneg. change (inject_Z 0) with 0%Q in Hneg.
  revert H Hp Hneg. generalize (2 ^ e)%Q (inject_Z S). intros p q H Hp Hq. nra.
Qed.

(** x - y for finite doubles with y <= x, away from overflow. *)
Lemma SFsub_error x y :
  valid_binary x = true -> valid_binary y = true ->
  SFis_finite x = true -> SFis_finite y = true ->
  (SF2Q y <= SF2Q x)%Q -> (SF2Q x - SF2Q y <= 2 ^ 1020)%Q ->
  SFis_finite (SFsub prec emax x y) = true /\
  near (SF2Q x - SF2Q y) (SF2Q (SFsub prec emax x y)).
Proof.
  intros Hvx Hvy Hfx Hfy Hle Hup.
  destruct x as [sx | sx | | sx mx ex]; try discriminate;
    destruct y as [sy | sy | | sy my ey]; try discriminate.
  - split; [destruct sx, sy; reflexivity|].
    apply (near_comp 0 _ 0); [cbn [SF2Q]; ring | destruct sx, sy; reflexivity |].
    apply near_refl. apply Qle_refl.
  - cbn [SFsub]. split; [reflexivity|].
    apply (near_comp (- SF2Q (S754_finite sy my ey)) _ (- SF2Q (S754_finite sy my ey))).
    + cbn [SF2Q]. ring.
    + now rewrite SF2Q_negb.
    + apply near_refl. cbn [SF2Q] in Hle |- *. lra.
  - cbn [SFsub]. split; [reflexivity|].
    apply (near_comp (SF2Q (S754_finite sx mx ex)) _ (SF2Q (S754_finite sx mx ex))).
    + cbn [SF2Q]. ring.
    + reflexivity.
    + apply near_refl. cbn [SF2Q] in Hle |- *. lra.
  - destruct (valid_finite _ _ _ Hvx) as [Hcx _].
    destruct (valid_finite _ _ _ Hvy) as [Hcy _].
    assert (Hex : 3 - emax - prec <= ex) by (rewrite <- Hcx; unfold fexp, emin; lia).
    assert (Hey : 3 - emax - prec <= ey) by (rewrite <- Hcy; unfold fexp, emin; lia).
    cbn [SFsub]. cbv zeta.
    pose proof (shl_align_spec mx ex (Z.min ex ey)) as Hax.
    pose proof (shl_align_spec my ey (Z.min ex ey)) as Hay.
    destruct (shl_align mx ex (Z.min ex ey)) as [mx' ex'].
    destruct (shl_align my ey (Z.min ex ey)) as [my' ey'].
    destruct Hax as [Hex' Hmx']. destruct Hay as [Hey' Hmy']. cbn [fst].
    rewrite Hex' in Hmx'. rewrite Hey' in Hmy'. clear Hex' Hey' ex' ey'.
    replace (Z.min ex (Z.min ex ey)) with (Z.min ex ey) in Hmx' by lia.
    replace (Z.min ey (Z.min ex ey)) with (Z.min ex ey) in Hmy' by lia.
    set (ez := Z.min ex ey) in *.
    assert (HX : (SF2Q (S754_finite sx mx ex) - SF2Q (S754_finite sy my ey) ==
                  inject_Z (cond_Zopp sx (Zpos mx') - cond_Zopp sy (Zpos my')) * 2 ^ ez)%Q).
    { rewrite (SF2Q_aligned sx mx ex ez), (SF2Q_aligned sy my ey ez) by lia.
      rewrite <- Hmx', <- Hmy'. unfold Z.sub. rewrite inject_Z_plus, inject_Z_opp.
      generalize (2 ^ ez)%Q. intros. ring. }
    set (S := cond_Zopp sx (Zpos mx') - cond_Zopp sy (Zpos my')) in *.
    assert (HS : 0 <= S).
    { apply (Qscaled_nonneg S ez). rewrite <- HX. lra. }
    destruct S as [|P|P] eqn:HSP; try lia.
    + cbn [binary_normalize]. split; [reflexivity|].
      apply (near_comp 0 _ 0); [| reflexivity | apply near_refl, Qle_refl].
      rewrite HX. change (inject_Z 0) with 0%Q. now rewrite Qmult_0_l.
    + cbn [binary_normalize].
      assert (Hd : Zdigits2 (Zpos P) + ez <= 1020 + 1).
      { apply digits_le_of_value. rewrite <- HX. exact Hup. }
      destruct (binary_round_error prec emax prec_gt_1 prec_lt_emax P ez)
        as (V & HV & Hfin & Hval & Hrel); [lia | unfold emax; lia |].
      split; [exact Hfin|].
      apply (near_comp (inject_Z (Zpos P) * 2 ^ ez) _ (inject_Z V * 2 ^ ez)).
      * now rewrite HX.
      * now rewrite Hval.
      * apply near_scaled. exact Hrel.
Qed.

Lemma SF2Q_sign s m e : (0 <= SF2Q (S754_finite s m e))%Q -> s = false.
Proof.
  destruct s; auto. intros H. rewrite SF2Q_cond_Zopp in H.
  apply Qscaled_nonneg in H. simpl in H. lia.
Qed.

Lemma SF2Q_pos_finite x :
  (0 < SF2Q x)%Q -> exists m e, x = S754_finite false m e.
Proof.
  destruct x as [s | s | | s m e]; cbn [SF2Q]; intros H;
    try (exfalso; exact (Qlt_irrefl _ H)).
  rewrite (SF2Q_sign s m e); [eauto | apply Qlt_le_weak, H].
Qed.

(** int -> double is exact: a normal double of value H. *)
Lemma double_of_int_spec H :
  0 < H < 2 ^ 31 ->
  exists m e,
    Prim2SF (double_of_int H) = S754_finite false m e /\
    Zdigits2 (Zpos m) = prec /\ -52 <= e <= -22 /\
    (inject_Z (Zpos m) * 2 ^ e == inject_Z H)%Q.
Proof.
  intros HH. unfold double_of_int.
  replace (H <? 0) with false by (symmetry; apply Z.ltb_ge; lia).
  rewrite of_uint63_spec, Uint63.of_Z_spec.
  rewrite Z.mod_small by (change Uint63.wB with 9223372036854775808; lia).
  destruct H as [|h|h]; try lia. cbn [binary_normalize].
  pose proof (Zdigits2_bounds h) as Hb.
  assert (Hd1 : 1 <= Zdigits2 (Zpos h)) by (simpl; lia).
  assert (Hd : Zdigits2 (Zpos h) <= 31).
  { destruct (Z_le_gt_dec (Zdigits2 (Zpos h)) 31) as [|Hgt]; auto.
    assert (2 ^ 31 <= 2 ^ (Zdigits2 (Zpos h) - 1)) by (apply Z.pow_le_mono_r; lia).
    lia. }
  rewrite binary_round_short by (unfold prec, emax; lia).
  assert (Hp : 0 < 2 ^ (prec - Zdigits2 (Zpos h)))
    by (apply Z.pow_pos_nonneg; unfold prec; lia).
  do 2 eexists. split; [reflexivity|]. split; [|split].
  - rewrite Pos2Z.inj_mul, Z2Pos.id by exact Hp.
    rewrite Zdigits2_mul_pow2 by (unfold prec; lia). lia.
  - unfold prec. lia.
  - rewrite Pos2Z.inj_mul, Z2Pos.id by exact Hp.
    rewrite <- Qpow2_scale by (unfold prec; lia).
    replace (Zdigits2 (Zpos h) + 0 - prec + (prec - Zdigits2 (Zpos h))) with 0 by lia.
    change (2 ^ 0)%Q with 1%Q. now rewrite Qmult_1_r.
Qed.

(** A double that is not tiny is normal. *)
Lemma valid_normal s m e :
  valid_binary (S754_finite s m e) = true ->
  (2 ^ (-1000) <= inject_Z (Zpos m) * 2 ^ e)%Q ->
  Zdigits2 (Zpos m) = prec.
Proof.
  intros Hv Hlo. destruct (valid_finite _ _ _ Hv) as [Hc _].
  apply digits_gt_of_value in Hlo. unfold fexp, emin, emax, prec in *. lia.
Qed.

(** The scale imageHeight / W of the mapper, for a span W of ordinary
    size. *)
Lemma scale_error H W :
  0 < H < 2 ^ 31 -> (2 ^ (-992) <= D2Q W <= 2 ^ 1021)%Q ->
  SFis_finite (Prim2SF (double_of_int H / W)) = true /\
  ((1 - unit_roundoff) * inject_Z H <= D2Q (double_of_int H / W) * D2Q W
     <= (1 + unit_roundoff) * inject_Z H)%Q.
Proof.
  intros HH [Hlo Hhi]. unfold D2Q in *. rewrite div_spec.
  destruct (double_of_int_spec H HH) as (mH & eH & -> & HdH & HeH & HvH).
  pose proof (Prim2SF_valid W) as Hv.
  destruct (SF2Q_pos_finite (Prim2SF W)) as (mW & eW & HW).
  { eapply Qlt_le_trans; [apply (Qpow2_pos (-992)) | exact Hlo]. }
  rewrite HW in *. rewrite SF2Q_finite_pos in Hlo, Hhi.
  assert (HdW : Zdigits2 (Zpos mW) = prec).
  { apply (valid_normal false mW eW Hv).
    eapply Qle_trans; [|exact Hlo]. apply Qpower_le_compat_l; [lia | discriminate]. }
  pose proof (digits_gt_of_value _ _ _ Hlo) as Hlo'.
  pose proof (digits_le_of_value _ _ _ Hhi) as Hhi'.
  rewrite HdW in Hlo', Hhi'. unfold prec in Hlo', Hhi'.
  destruct (SFdiv_error prec emax prec_gt_1 prec_lt_emax mH eH mW eW HdH HdW)
    as (V & HV & Hfin & Hval & Hrel); [unfold prec, emax; lia | unfold emax; lia |].
  split; [exact Hfin|].
  apply near_scaled with (e := eH - prec) in Hrel.
  unfold near in Hrel. unfold SF64div.
  assert (E1 : (inject_Z (Zpos mH * 2 ^ prec) * 2 ^ (eH - prec) == inject_Z H)%Q).
  { rewrite <- Qpow2_scale by (unfold prec; lia).
    replace (eH - prec + prec) with eH by lia. exact HvH. }
  assert (E2 : (inject_Z (V * Zpos mW) * 2 ^ (eH - prec) ==
                SF2Q (SFdiv prec emax (S754_finite false mH eH) (S754_finite false mW eW))
                * SF2Q (S754_finite false mW eW))%Q).
  { rewrite Hval, SF2Q_finite_pos, inject_Z_mult.
    replace (eH - prec) with (eH - eW - prec + eW) at 1 by lia.
    rewrite Qpow2_add.
    generalize (2 ^ (eH - eW - prec))%Q (2 ^ eW)%Q (inject_Z V) (inject_Z (Zpos mW)).
    intros. ring. }
  rewrite E1, E2 in Hrel. exact Hrel.
Qed.

Lemma half_tiny_pos : (0 < half_tiny)%Q.
Proof. apply Qpow2_pos. Qed.

(** A product of non-negative doubles, away from overflow: one rounding,
    or an underflow of at most half of the smallest positive double. *)
Lemma SFmul_error x y :
  SFis_finite x = true -> SFis_finite y = true ->
  (0 <= SF2Q x)%Q -> (0 <= SF2Q y)%Q -> (SF2Q x * SF2Q y <= 2 ^ 900)%Q ->
  SFis_finite (SFmul prec emax x y) = true /\
  (0 <= SF2Q (SFmul prec emax x y))%Q /\
  ((1 - unit_roundoff) * (SF2Q x * SF2Q y) - half_tiny <= SF2Q (SFmul prec emax x y)
     <= (1 + unit_roundoff) * (SF2Q x * SF2Q y) + half_tiny)%Q.
Proof.
  intros Hfx Hfy Hx Hy Hup. pose proof half_tiny_pos as Ht.
  destruct x as [sx | sx | | sx mx ex]; try discriminate;
    destruct y as [sy | sy | | sy my ey]; try discriminate;
    cbn [SFmul]; try (split; [reflexivity|]; cbn [SF2Q];
                      rewrite ?Qmult_0_l, ?Qmult_0_r; unfold unit_roundoff; lra).
  rewrite (SF2Q_sign _ _ _ Hx), (SF2Q_sign _ _ _ Hy) in *. cbn [xorb].
  rewrite !SF2Q_finite_pos in *.
  assert (HX : (inject_Z (Zpos mx) * 2 ^ ex * (inject_Z (Zpos my) * 2 ^ ey) ==
                inject_Z (Zpos (mx * my)) * 2 ^ (ex + ey))%Q).
  { rewrite Pos2Z.inj_mul, inject_Z_mult, Qpow2_add.
    generalize (2 ^ ex)%Q (2 ^ ey)%Q (inject_Z (Zpos mx)) (inject_Z (Zpos my)).
    intros. ring. }
  rewrite HX in *.
  pose proof (digits_le_of_value _ _ _ Hup) as Hd.
  assert (Hd1 : 1 <= Zdigits2 (Zpos (mx * my))) by (simpl; lia).
  destruct (binary_round_aux_error prec emax prec_gt_1 prec_lt_emax (mx * my) (ex + ey))
    as (V & HV & Hfin & Hval & Hcase); [unfold emax, prec; lia | unfold emax; lia |].
  split; [exact Hfin|]. rewrite Hval.
  assert (HV0 : (0 <= inject_Z V * 2 ^ (ex + ey))%Q).
  { apply Qmult_le_0_compat; [|apply Qlt_le_weak, Qpow2_pos].
    change 0%Q with (inject_Z 0). rewrite <- Zle_Qle. exact HV. }
  split; [exact HV0|].
  destruct Hcase as [Hrel | [Hlt Habs]].
  - apply near_scaled with (e := ex + ey) in Hrel. unfold near in Hrel. lra.
  - assert (Hp : 0 < 2 ^ (3 - emax - prec - (ex + ey)))
      by (apply Z.pow_pos_nonneg; lia).
    assert (H1 : 2 * (V - Zpos (mx * my)) <= 2 ^ (3 - emax - prec - (ex + ey))) by lia.
    assert (H2 : 2 * (Zpos (mx * my) - V) <= 2 ^ (3 - emax - prec - (ex + ey))) by lia.
    rewrite Zle_Qle in H1, H2.
    rewrite <- Qpow2_Z, inject_Z_mult in H1, H2 by lia.
    unfold Z.sub at 1 in H1. unfold Z.sub at 1 in H2.
    rewrite inject_Z_plus, inject_Z_opp in H1, H2.
    assert (Hs : (2 ^ (3 - emax - prec - (ex + ey)) * 2 ^ (ex + ey) == 2 * half_tiny)%Q).
    { rewrite <- Qpow2_add. unfold half_tiny.
      replace (3 - emax - prec - (ex + ey) + (ex + ey)) with (1 + -1075)
        by (unfold emax, prec; lia).
      rewrite Qpow2_add. reflexivity. }
    pose proof (Qpow2_pos (ex + ey)) as Hpe.
    assert (Hp0 : (0 <= inject_Z (Zpos (mx * my)))%Q)
      by (change 0%Q with (inject_Z 0); rewrite <- Zle_Qle; lia).
    revert H1 H2 Hs Hpe Ht Hp0.
    generalize (2 ^ (3 - emax - prec - (ex + ey)))%Q (2 ^ (ex + ey))%Q
      (inject_Z V) (inject_Z (Zpos (mx * my))) half_tiny.
    change (inject_Z 2) with 2%Q. unfold unit_roundoff.
    intros a b v p t H1 H2 Hs Hb Ht' Hp0.
    assert (H3 : ((v - p) * b <= t)%Q) by nra.
    assert (H4 : ((p - v) * b <= t)%Q) by nra.
    assert (H5 : (0 <= p * b)%Q) by nra.
    lra.
Qed.

(** * The accuracy of the coordinate mapper *)

(** Three roundings and a possible underflow: the product computed by
    the mapper against the exact one, both multiplied by the span. *)
Lemma mapper_chain (a w h T W S P t : Q) :
  (0 <= a <= w)%Q -> (0 < w)%Q -> (1 <= h)%Q ->
  near a T -> near w W ->
  ((1 - unit_roundoff) * h <= S * W <= (1 + unit_roundoff) * h)%Q ->
  (0 <= t <= unit_roundoff)%Q ->
  ((1 - unit_roundoff) * (T * S) - t <= P <= (1 + unit_roundoff) * (T * S) + t)%Q ->
  (0 <= P)%Q ->
  (a * h - (8 * unit_roundoff) * (h * w) <= P * w
     <= a * h + (8 * unit_roundoff) * (h * w))%Q.
Proof.
  unfold near, unit_roundoff. intros [Ha Haw] Hw Hh [HT1 HT2] [HW1 HW2] [HS1 HS2]
    [Ht1 Ht2] [HP1 HP2] HP0.
  assert (HT0 : (0 <= T)%Q) by lra.
  assert (HW0 : (0 < W)%Q) by lra.
  assert (HS0 : (0 <= S)%Q) by nra.
  assert (HTS : (0 <= T * S)%Q) by nra.
  assert (HB : (w <= h * w)%Q) by nra.
  assert (HA : (0 <= a * h <= h * w)%Q) by nra.
  (* T * (S * W) against a * h *)
  assert (U1 : (T * S * W <= (1 + (1 # 9007199254740992)) * T * h)%Q) by nra.
  assert (U2 : ((1 + (1 # 9007199254740992)) * T * h <=
                (1 + (1 # 9007199254740992)) * (1 + (1 # 9007199254740992)) * (a * h))%Q)
    by nra.
  assert (L1 : ((1 - (1 # 9007199254740992)) * T * h <= T * S * W)%Q) by nra.
  assert (L2 : ((1 - (1 # 9007199254740992)) * (1 - (1 # 9007199254740992)) * (a * h) <=
                (1 - (1 # 9007199254740992)) * T * h)%Q) by nra.
  (* P * W against T * S * W *)
  assert (U3 : (P * W <= (1 + (1 # 9007199254740992)) * (T * S * W) + t * W)%Q) by nra.
  assert (L3 : ((1 - (1 # 9007199254740992)) * (T * S * W) - t * W <= P * W)%Q) by nra.
  assert (U4 : (t * W <= (1 # 9007199254740992) * (1 + (1 # 9007199254740992)) * (h * w))%Q)
    by nra.
  (* P * w against P * W *)
  assert (U5 : ((1 - (1 # 9007199254740992)) * (P * w) <= P * W)%Q) by nra.
  assert (L5 : (P * W <= (1 + (1 # 9007199254740992)) * (P * w))%Q) by nra.
  split; lra.
Qed.

Lemma Qfloor_unique q z : (inject_Z z <= q < inject_Z z + 1)%Q -> Qfloor q = z.
Proof.
  intros [H1 H2].
  pose proof (Qfloor_le q) as Hf1. pose proof (Qlt_floor q) as Hf2.
  assert (Ha : (inject_Z z < inject_Z (Qfloor q + 1))%Q) by (eapply Qle_lt_trans; eauto).
  assert (Hb : (inject_Z (Qfloor q) < inject_Z (z + 1))%Q).
  { rewrite inject_Z_plus. eapply Qle_lt_trans; eauto. }
  rewrite <- Zlt_Qlt in Ha, Hb. lia.
Qed.

Lemma Qtrunc_nonneg q : (0 <= q)%Q -> Qtrunc q = Qfloor q.
Proof.
  intros H. unfold Qtrunc. apply Qle_bool_iff in H. now rewrite H.
Qed.

Lemma inject_Z_pow2 k : 0 <= k -> (inject_Z (2 ^ k) == 2 ^ k)%Q.
Proof. intros H. now rewrite Qpow2_Z. Qed.

(** The product truncated by the mapper is the exact index up to
    imageHeight * 2^-50, for a span of ordinary size. *)
Lemma mapper_accuracy value minR maxR imageHeight :
  0 < imageHeight < 2 ^ 31 ->
  SFis_finite (Prim2SF value) = true -> SFis_finite (Prim2SF minR) = true ->
  SFis_finite (Prim2SF maxR) = true ->
  (D2Q minR <= D2Q value <= D2Q maxR)%Q ->
  (2 ^ (-990) <= D2Q maxR - D2Q minR <= 2 ^ 1020)%Q ->
  SFis_finite (Prim2SF (mapper_product value minR maxR imageHeight)) = true /\
  (0 <= D2Q (mapper_product value minR maxR imageHeight))%Q /\
  (exact_index value minR maxR imageHeight - mapper_slack imageHeight <=
     D2Q (mapper_product value minR maxR imageHeight) <=
   exact_index value minR maxR imageHeight + mapper_slack imageHeight)%Q.
Proof.
  intros HH Hfv Hfm HfM [Hv1 Hv2] [Hw1 Hw2].
  unfold mapper_product, exact_index, mapper_slack.
  assert (Hp990 : (0 < 2 ^ (-990))%Q) by apply Qpow2_pos.
  assert (Hw0 : (0 < D2Q maxR - D2Q minR)%Q) by (eapply Qlt_le_trans; eauto).
  (* the offset value - minR *)
  destruct (SFsub_error (Prim2SF value) (Prim2SF minR)) as [HfT HT];
    auto using Prim2SF_valid.
  { fold (D2Q value) (D2Q minR).
    apply Qle_trans with (D2Q maxR - D2Q minR)%Q; [lra | exact Hw2]. }
  rewrite <- sub_spec in HfT, HT.
  fold (D2Q value) (D2Q minR) (D2Q (value - minR)) in HT.
  (* the span maxR - minR *)
  destruct (SFsub_error (Prim2SF maxR) (Prim2SF minR)) as [HfW HW];
    auto using Prim2SF_valid.
  { fold (D2Q maxR) (D2Q minR). lra. }
  rewrite <- sub_spec in HfW, HW.
  fold (D2Q maxR) (D2Q minR) (D2Q (maxR - minR)) in HW.
  assert (HWb : (2 ^ (-992) <= D2Q (maxR - minR) <= 2 ^ 1021)%Q).
  { assert (E1 : (2 ^ (-990) == 4 * 2 ^ (-992))%Q) by (now rewrite <- (Qpow2_add 2)).
    assert (E2 : (2 ^ 1021 == 2 * 2 ^ 1020)%Q) by (now rewrite <- (Qpow2_add 1)).
    pose proof (Qpow2_pos (-992)) as P1. pose proof (Qpow2_pos 1020) as P2.
    unfold near, unit_roundoff in HW. rewrite E2. rewrite E1 in Hw1.
    revert HW Hw1 Hw2 P1 P2.
    generalize (2 ^ (-992))%Q (2 ^ 1020)%Q (D2Q (maxR - minR)) (D2Q maxR - D2Q minR)%Q.
    intros c1 c2 W w HW Hw1 Hw2 P1 P2. split; lra. }
  (* the scale *)
  destruct (scale_error imageHeight (maxR - minR) HH HWb) as [HfS HS].
  assert (Hh1 : (1 <= inject_Z imageHeight)%Q)
    by (change 1%Q with (inject_Z 1); rewrite <- Zle_Qle; lia).
  assert (Hh2 : (inject_Z imageHeight <= 2147483648)%Q)
    by (change 2147483648%Q with (inject_Z (2 ^ 31)); rewrite <- Zle_Qle; lia).
  assert (HT0 : (0 <= D2Q (value - minR))%Q) by (apply (near_nonneg (D2Q value - D2Q minR)); [lra | exact HT]).
  assert (HW0 : (0 < D2Q (maxR - minR))%Q)
    by (eapply Qlt_le_trans; [apply (Qpow2_pos (-992)) | apply HWb]).
  assert (HS0 : (0 <= D2Q (double_of_int imageHeight / (maxR - minR)))%Q).
  { revert HS HW0 Hh1. unfold unit_roundoff.
    generalize (D2Q (double_of_int imageHeight / (maxR - minR))) (D2Q (maxR - minR))
      (inject_Z imageHeight). intros S W h HS HW0 Hh1. nra. }
  assert (HTS : (D2Q (value - minR) * D2Q (double_of_int imageHeight / (maxR - minR))
                 <= 2 * inject_Z imageHeight)%Q).
  { revert HT HW HS HT0 HW0 HS0 Hh1 Hv1 Hv2 Hw0. unfold near, unit_roundoff.
    generalize (D2Q (double_of_int imageHeight / (maxR - minR))) (D2Q (maxR - minR))
      (inject_Z imageHeight) (D2Q (value - minR)) (D2Q value) (D2Q minR) (D2Q maxR).
    intros S W h T v lo hi HT HW HS HT0 HW0 HS0 Hh1 Hv1 Hv2 Hw0.
    assert (A1 : ((1 - (1 # 9007199254740992)) * T <= (1 + (1 # 9007199254740992)) * W)%Q)
      by lra.
    assert (A2 : ((1 - (1 # 9007199254740992)) * (T * S)
                  <= (1 + (1 # 9007199254740992)) * (S * W))%Q) by nra.
    lra. }
  (* the product *)
  destruct (SFmul_error (Prim2SF (value - minR))
              (Prim2SF (double_of_int imageHeight / (maxR - minR))))
    as (HfP & HP0 & HP); auto.
  { fold (D2Q (value - minR)) (D2Q (double_of_int imageHeight / (maxR - minR))).
    eapply Qle_trans; [exact HTS|].
    apply Qle_trans with (2 ^ 32)%Q.
    - rewrite <- (inject_Z_pow2 32) by lia. change (inject_Z (2 ^ 32)) with 4294967296%Q.
      lra.
    - apply Qpower_le_compat_l; [lia | discriminate]. }
  rewrite <- mul_spec in HfP, HP0, HP.
  fold (D2Q (value - minR)) (D2Q (double_of_int imageHeight / (maxR - minR)))
    (D2Q ((value - minR) * (double_of_int imageHeight / (maxR - minR)))) in HP0, HP.
  split; [exact HfP|]. split; [exact HP0|].
  assert (Htiny : (0 <= half_tiny <= unit_roundoff)%Q).
  { split; [apply Qlt_le_weak, half_tiny_pos|].
    unfold half_tiny, unit_roundoff. apply Qle_bool_imp_le. vm_compute. reflexivity. }
  pose proof (mapper_chain (D2Q value - D2Q minR) (D2Q maxR - D2Q minR)
                (inject_Z imageHeight) _ _ _ _ half_tiny
                ltac:(lra) Hw0 Hh1 HT HW HS Htiny HP HP0) as Hc.
  revert Hc Hw0. unfold unit_roundoff.
  generalize (D2Q ((value - minR) * (double_of_int imageHeight / (maxR - minR))))
    (inject_Z imageHeight) (D2Q value - D2Q minR)%Q (D2Q maxR - D2Q minR)%Q.
  intros P h a w [Hc1 Hc2] Hw0.
  assert (Hx : (a * h / w * w == a * h)%Q) by (field; lra).
  split.
  - apply (Qmult_le_r _ _ w Hw0). 
    setoid_replace ((a * h / w - h * (1 # 1125899906842624)) * w)%Q
      with (a * h / w * w - h * (1 # 1125899906842624) * w)%Q using relation Qeq by ring.
    rewrite Hx. lra.
  - apply (Qmult_le_r _ _ w Hw0).
    setoid_replace ((a * h / w + h * (1 # 1125899906842624)) * w)%Q
      with (a * h / w * w + h * (1 # 1125899906842624) * w)%Q using relation Qeq by ring.
    rewrite Hx. lra.
Qed.

Lemma mapper_slack_small imageHeight :
  0 < imageHeight < 2 ^ 31 -> (0 < mapper_slack imageHeight < 1 # 2)%Q.
Proof.
  intros H. unfold mapper_slack.
  assert (H1 : (1 <= inject_Z imageHeight)%Q)
    by (change 1%Q with (inject_Z 1); rewrite <- Zle_Qle; lia).
  assert (H2 : (inject_Z imageHeight <= 2147483648)%Q)
    by (change 2147483648%Q with (inject_Z (2 ^ 31)); rewrite <- Zle_Qle; lia).
  split; lra.
Qed.

Lemma exact_index_span value minR maxR imageHeight :
  (D2Q minR < D2Q maxR)%Q ->
  (exact_index value minR maxR imageHeight * (D2Q maxR - D2Q minR) ==
   (D2Q value - D2Q minR) * inject_Z imageHeight)%Q.
Proof. intros H. unfold exact_index. field. lra. Qed.

Lemma exact_index_range value minR maxR imageHeight :
  0 < imageHeight -> (D2Q minR < D2Q maxR)%Q ->
  (D2Q minR <= D2Q value <= D2Q maxR)%Q <->
  (0 <= exact_index value minR maxR imageHeight <= inject_Z imageHeight)%Q.
Proof.
  intros HH Hlt.
  assert (Hh : (1 <= inject_Z imageHeight)%Q)
    by (change 1%Q with (inject_Z 1); rewrite <- Zle_Qle; lia).
  pose proof (exact_index_span value minR maxR imageHeight Hlt) as E.
  revert E Hlt Hh.
  generalize (exact_index value minR maxR imageHeight) (D2Q value) (D2Q minR) (D2Q maxR)
    (inject_Z imageHeight).
  intros x v lo hi h E Hlt Hh. split; intros [H1 H2]; split; nra.
Qed.

Lemma exact_index_min minR maxR imageHeight :
  (D2Q minR < D2Q maxR)%Q -> (exact_index minR minR maxR imageHeight == 0)%Q.
Proof. intros H. unfold exact_index. field. lra. Qed.

Lemma exact_index_max minR maxR imageHeight :
  (D2Q minR < D2Q maxR)%Q ->
  (exact_index maxR minR maxR imageHeight == inject_Z imageHeight)%Q.
Proof. intros H. unfold exact_index. field. lra. Qed.

Lemma Qfloor_inner p x s z :
  (x - s <= p <= x + s)%Q -> (inject_Z z + s <= x)%Q -> (x + s < inject_Z z + 1)%Q ->
  Qfloor p = z.
Proof. intros [H1 H2] H3 H4. apply Qfloor_unique. split; lra. Qed.

Lemma Qfloor_close p x s :
  (s < 1)%Q -> (x - s <= p <= x + s)%Q -> Z.abs (Qfloor p - Qfloor x) <= 1.
Proof.
  intros Hs [H1 H2].
  pose proof (Qfloor_le p) as P1. pose proof (Qlt_floor p) as P2.
  pose proof (Qfloor_le x) as X1. pose proof (Qlt_floor x) as X2.
  rewrite inject_Z_plus in P2, X2. change (inject_Z 1) with 1%Q in P2, X2.
  assert (A : (inject_Z (Qfloor p) < inject_Z (Qfloor x + 2))%Q).
  { rewrite inject_Z_plus. change (inject_Z 2) with 2%Q. lra. }
  assert (B : (inject_Z (Qfloor x) < inject_Z (Qfloor p + 2))%Q).
  { rewrite inject_Z_plus. change (inject_Z 2) with 2%Q. lra. }
  rewrite <- Zlt_Qlt in A, B. lia.
Qed.

Lemma Qfloor_upper p z : (p < inject_Z z + 1)%Q -> Qfloor p <= z.
Proof.
  intros H. pose proof (Qfloor_le p) as P1.
  assert (A : (inject_Z (Qfloor p) < inject_Z (z + 1))%Q).
  { rewrite inject_Z_plus. change (inject_Z 1) with 1%Q. lra. }
  rewrite <- Zlt_Qlt in A. lia.
Qed.

Lemma Qfloor_lower p z : (inject_Z z <= p)%Q -> z <= Qfloor p.
Proof.
  intros H. rewrite <- (Qfloor_Z z). now apply Qfloor_resp_le.
Qed.

(** What the mapper returns: the integer part of the computed product,
    an index from 0 to imageHeight. *)
Lemma rowFromReal_value value minR maxR imageHeight :
  0 < imageHeight < 2 ^ 31 ->
  SFis_finite (Prim2SF value) = true -> SFis_finite (Prim2SF minR) = true ->
  SFis_finite (Prim2SF maxR) = true ->
  (D2Q minR <= D2Q value <= D2Q maxR)%Q ->
  (2 ^ (-990) <= D2Q maxR - D2Q minR <= 2 ^ 1020)%Q ->
  rowFromReal value minR maxR imageHeight =
    Ok (Qfloor (D2Q (mapper_product value minR maxR imageHeight))) /\
  0 <= Qfloor (D2Q (mapper_product value minR maxR imageHeight)) <= imageHeight.
Proof.
  intros HH Hfv Hfm HfM Hv Hw.
  destruct (mapper_accuracy value minR maxR imageHeight HH Hfv Hfm HfM Hv Hw)
    as (Hfin & Hp0 & Hlo & Hhi).
  destruct (mapper_slack_small imageHeight HH) as [Hs0 Hs1].
  assert (Hlt : (D2Q minR < D2Q maxR)%Q).
  { pose proof (Qpow2_pos (-990)). lra. }
  pose proof (proj1 (exact_index_range value minR maxR imageHeight ltac:(lia) Hlt) Hv)
    as [Hx0 Hx1].
  assert (Hrange : 0 <= Qfloor (D2Q (mapper_product value minR maxR imageHeight))
                   <= imageHeight).
  { split; [apply Qfloor_lower; exact Hp0 | apply Qfloor_upper; lra]. }
  split; [|exact Hrange].
  change (rowFromReal value minR maxR imageHeight)
    with (int_of_double (mapper_product value minR maxR imageHeight)).
  rewrite int_of_double_exact; rewrite ?Qtrunc_nonneg by exact Hp0; auto.
  unfold Int.in_range, Int.min_int, Int.max_int.
  change (2 ^ 31) with 2147483648 in HH.
  apply andb_true_iff. split; apply Z.leb_le; lia.
Qed.

(** * The trajectory sampler *)

(** Checking a finite part of an orbit by computation. *)
Lemma bounded_upto_spec c n :
  forallb (fun j => negb (escaped (orbit c j))) (seq 1 n) = true ->
  forall j, (1 <= j <= n)%nat -> escaped (orbit c j) = false.
Proof.
  intros H j Hj. rewrite forallb_forall in H.
  apply negb_true_iff, H, in_seq. lia.
Qed.

(** C2, as stated, fails when the escape happens exactly at the last
    iteration of the budget: for c = 1 and budget 2 the second iterate
    is the first with squared magnitude > 2.0, and the sampler returns
    the empty sequence. *)
Lemma buddhabrotPoints_escape_at_budget_is_dropped :
  ~ (forall (c : Complex) (B : Z) (k : nat),
       0 < B -> (1 <= k)%nat -> Z.of_nat k <= B ->
       (forall j, (1 <= j < k)%nat -> escaped (orbit c j) = false) ->
       escaped (orbit c k) = true ->
       exists l, buddhabrotPoints c B = Ok l /\ length l = k).
Proof.
  intros H.
  destruct (H (mkComplex 1 0) 2 2%nat) as (l & Hl & Hlen); try lia.
  - intros j Hj. assert (j = 1%nat) as -> by lia. reflexivity.
  - reflexivity.
  - vm_compute in Hl. inversion Hl; subst. discriminate Hlen.
Qed.

(** C2 (amended): for every sample point c and budget B, if the
    iteration from z = 0 first has squared magnitude > 2.0 at iteration
    k, then for k < B the sampler returns the k iterates z_1 .. z_k: the
    last one has squared magnitude > 2.0 and all the earlier ones have
    squared magnitude <= 2.0; for k = B it returns the empty sequence. *)
Theorem buddhabrotPoints_escape_before_budget (c : Complex) (B : Z) (k : nat) :
  (1 <= k)%nat -> Z.of_nat k <= B ->
  (forall j, (1 <= j < k)%nat -> escaped (orbit c j) = false) ->
  escaped (orbit c k) = true ->
  (Z.of_nat k < B ->
   exists l, buddhabrotPoints c B = Ok l /\ length l = k /\
     l = map (orbit c) (seq 1 k) /\
     (exists z, last l = Some z /\ escaped z = true) /\
     (forall i z, (S i < k)%nat -> l !! i = Some z ->
        (sqmagnitude z <=? 2)%float = true /\ escaped z = false)) /\
  (Z.of_nat k = B -> buddhabrotPoints c B = Ok []).
Proof.
  intros Hk HB Hbefore Hesc.
  assert (Hnan : forall j, (j <= k)%nat -> Cis_nan (orbit c j) = false).
  { intros j Hj. destruct (Cis_nan (orbit c j)) eqn:Hn; auto.
    pose proof (orbit_from_is_nan c (orbit c j) (k - j) Hn) as Hn'.
    unfold orbit in Hn'. rewrite <- orbit_from_add in Hn'.
    replace (j + (k - j))%nat with k in Hn' by lia.
    apply escaped_not_nan in Hesc. unfold orbit in Hesc. congruence. }
  assert (Hle : forall j, (j < k)%nat -> (sqmagnitude (orbit c j) <=? 2)%float = true).
  { intros [|j] Hj; [apply sqmagnitude_Complex0|].
    apply not_escaped_le; [apply Hnan | apply Hbefore]; lia. }
  split.
  - intros HkB. exists (map (orbit c) (seq 1 k)).
    split; [|split; [|split; [|split]]].
    + apply buddhabrotPoints_escaping; auto using escaped_not_le.
    + now rewrite length_map, length_seq.
    + reflexivity.
    + destruct k as [|k]; [lia|]. exists (orbit c (S k)).
      split; [apply last_orbit_prefix | exact Hesc].
    + intros i z Hi Hz. apply lookup_orbit_prefix in Hz. destruct Hz as [_ ->].
      split; [apply Hle | apply Hbefore]; lia.
  - intros HkB. apply buddhabrotPoints_bounded; [lia|].
    intros j Hj. apply Hle. lia.
Qed.

Lemma buddhabrotPoints_escape_before_budget_witness :
  (exists l, buddhabrotPoints (mkComplex 1 0) RED_ITERS = Ok l /\ length l = 2%nat /\
     l = map (orbit (mkComplex 1 0)) (seq 1 2) /\
     (exists z, last l = Some z /\ escaped z = true) /\
     (forall i z, (S i < 2)%nat -> l !! i = Some z ->
        (sqmagnitude z <=? 2)%float = true /\ escaped z = false)) /\
  buddhabrotPoints (mkComplex 1 0) 2 = Ok [].
Proof.
  split.
  - apply (buddhabrotPoints_escape_before_budget (mkComplex 1 0) RED_ITERS 2).
    + lia.
    + unfold RED_ITERS. lia.
    + intros j Hj. assert (j = 1%nat) as -> by lia. reflexivity.
    + reflexivity.
    + reflexivity.
  - apply (buddhabrotPoints_escape_before_budget (mkComplex 1 0) 2 2).
    + lia.
    + lia.
    + intros j Hj. assert (j = 1%nat) as -> by lia. reflexivity.
    + reflexivity.
    + reflexivity.
Defined.

(** C3: for every sample point c and positive budget B, if the
    iterates z_1 .. z_B all keep a squared magnitude <= 2.0, the sampler
    returns the empty sequence.  For a sample point whose coordinates are
    numbers, that is the case as soon as no iterate has a squared
    magnitude > 2.0. *)
Theorem buddhabrotPoints_never_escapes_empty (c : Complex) (B : Z) :
  0 < B ->
  ((forall j, (1 <= j)%nat -> Z.of_nat j <= B ->
      (sqmagnitude (orbit c j) <=? 2)%float = true) ->
   buddhabrotPoints c B = Ok []) /\
  (Cis_nan c = false ->
   (forall j, (1 <= j)%nat -> Z.of_nat j <= B -> escaped (orbit c j) = false) ->
   buddhabrotPoints c B = Ok []).
Proof.
  intros HB. split.
  - intros Hb. apply buddhabrotPoints_bounded; [lia|].
    intros [|j] Hj; [apply sqmagnitude_Complex0 | apply Hb; lia].
  - intros Hc Hb. apply buddhabrotPoints_bounded; [lia|].
    intros j Hj.
    apply (bounded_orbit_le_two c (Z.to_nat B)); auto; try lia.
    intros i Hi. apply Hb; lia.
Qed.

Lemma buddhabrotPoints_never_escapes_empty_witness :
  buddhabrotPoints (mkComplex 0 0) 100 = Ok [].
Proof.
  apply (proj2 (buddhabrotPoints_never_escapes_empty (mkComplex 0 0) 100 eq_refl)).
  - reflexivity.
  - intros j H1 H2. apply (bounded_upto_spec (mkComplex 0 0) 100).
    + vm_compute. reflexivity.
    + lia.
Defined.

(** A coordinate that is not a number is neither <= 2.0 nor > 2.0: the
    test of the loop fails at once and the one recorded point is returned. *)
Example buddhabrotPoints_nan_sample :
  buddhabrotPoints (mkComplex nan 0) 2 = Ok [mkComplex nan 0] /\
  escaped (orbit (mkComplex nan 0) 1) = false /\
  (sqmagnitude (orbit (mkComplex nan 0) 1) <=? 2)%float = false.
Proof. repeat split; reflexivity. Qed.

(** C10: a non-empty result of the sampler is the sequence of iterates
    z_1, z_2, ... (the starting value z_0 = 0 is not recorded), and its
    first element is the sample point c itself: both coordinates are
    those of c, a negative zero of c being read back as zero.  No
    recorded point has the value 0 either: an orbit that comes back to 0
    repeats itself and never escapes. *)
Theorem buddhabrotPoints_first_is_sample (c : Complex) (B : Z) (z : Complex)
    (l : list Complex) :
  buddhabrotPoints c B = Ok (z :: l) ->
  same_double (_r z) (_r c) /\ same_double (_i z) (_i c) /\
  z :: l = map (orbit c) (seq 1 (S (length l))) /\
  Forall (fun z' => Cis_zero z' = false) (z :: l).
Proof.
  intros H. apply buddhabrotPoints_inv in H; [|discriminate].
  destruct H as (k & Hk & _ & Hl & Hbefore & Hlast).
  destruct k as [|k]; [lia|].
  assert (Hlen : length l = k).
  { apply (f_equal length) in Hl. rewrite length_map, length_seq in Hl.
    simpl in Hl. lia. }
  rewrite Hlen.
  assert (Hz : z = step c Complex0) by (simpl in Hl; now inversion Hl).
  split; [|split; [|split]].
  - rewrite Hz, step_Complex0. apply add_zero_l.
  - rewrite Hz, step_Complex0. apply add_zero_l.
  - exact Hl.
  - rewrite Hl. apply List.Forall_forall. intros z' Hin.
    apply in_map_iff in Hin. destruct Hin as (j & <- & Hj). apply in_seq in Hj.
    apply (recorded_not_zero c (S k)); auto. lia.
Qed.

Lemma buddhabrotPoints_first_is_sample_witness :
  same_double 1 1 /\ same_double 0 0 /\
  [mkComplex 1 0; mkComplex 2 0] = map (orbit (mkComplex 1 0)) (seq 1 2) /\
  Forall (fun z' => Cis_zero z' = false) [mkComplex 1 0; mkComplex 2 0].
Proof.
  apply (buddhabrotPoints_first_is_sample (mkComplex 1 0) RED_ITERS
           (mkComplex 1 0) [mkComplex 2 0]).
  reflexivity.
Defined.

(** * The heatmap generator *)

(** C1 fails on the code: the filter of [GenerateHeatmap] keeps a point
    whose coordinate equals the maximum of the viewing rectangle, the
    mapper sends it to row [imageHeight], and the increment indexes the
    heatmap outside its allocation.  The sample c = 1 of the red pass has
    the trajectory 1, 2; its second point is on the maximum. *)
Example GenerateHeatmap_maximum_out_of_bounds :
  buddhabrotPoints (mkComplex 1 0) RED_ITERS = Ok [mkComplex 1 0; mkComplex 2 0] /\
  in_rectangle MINIMUM MAXIMUM (mkComplex 2 0) = true /\
  rowFromReal 2 (_r MINIMUM) (_r MAXIMUM) IMAGE_HEIGHT = Ok IMAGE_HEIGHT /\
  GenerateHeatmap (AllocHeatmap IMAGE_WIDTH IMAGE_HEIGHT) IMAGE_WIDTH IMAGE_HEIGHT
    MINIMUM MAXIMUM RED_ITERS [mkComplex 1 0] (F32.of_int 0) = Err OutOfBounds /\
  main_vertices [mkComplex 1 0] [] [] = Err OutOfBounds.
Proof. vm_compute. repeat split; reflexivity. Qed.

Lemma heatmap_counts_AllocHeatmap width height : heatmap_counts (AllocHeatmap width height).
Proof.
  intros row col v H. apply cell_AllocHeatmap in H. subst. apply is_count_0.
Qed.
(** C6: [maxHeatmapValue] starts from 0 and, in every state that the
    generation passes of [main] go through, is at least every cell of
    the red, green and blue heatmaps and equal to one of them: it is the
    maximum over all cells of all three channels, in particular after
    the three [GenerateHeatmap] calls have completed. *)
Theorem maxHeatmapValue_is_running_max :
  snd start_channels = F32.of_int 0 /\
  (forall st, generating st -> running_max st) /\
  (forall redSamples blueSamples greenSamples st,
     main_generate redSamples blueSamples greenSamples = Ok st ->
     generating st /\ running_max st).
Proof.
  split; [reflexivity|]. split.
  - intros st H. now apply generating_invariant.
  - intros rs bs gs st H. apply main_generate_generating in H.
    split; auto. now apply generating_invariant.
Qed.
(** C7: for a fixed multiset of sample points, processing the samples in
    any order gives the same final heatmap and the same final
    [o_maxHeatmapValue], starting from a heatmap of counts. *)
Theorem GenerateHeatmap_order_independent (o_heatmap : Heatmap)
    (imageWidth imageHeight : Z) (minimum maximum : Complex) (nIterations : Z)
    (samples samples' : list Complex) (o_maxHeatmapValue : HeatmapType)
    (final : Heatmap * HeatmapType) :
  heatmap_counts o_heatmap -> is_count o_maxHeatmapValue ->
  Permutation samples samples' ->
  GenerateHeatmap o_heatmap imageWidth imageHeight minimum maximum nIterations
    samples o_maxHeatmapValue = Ok final ->
  GenerateHeatmap o_heatmap imageWidth imageHeight minimum maximum nIterations
    samples' o_maxHeatmapValue = Ok final.
Proof.
  intros Hh HM Hperm H.
  destruct (Z_lt_ge_dec nIterations 0) as [Hneg | Hpos].
  - destruct samples as [|s samples].
    + apply Permutation_nil in Hperm. now subst.
    + rewrite GenerateHeatmap_cons in H. unfold process_sample, buddhabrotPoints in H.
      replace (nIterations <? 0) with true in H by (symmetry; apply Z.ltb_lt; lia).
      discriminate H.
  - rewrite GenerateHeatmap_concat in * by lia.
    apply (accumulate_points_perm _ _ _ _
             (flat_map (trajectory nIterations) samples)); auto.
    now apply Permutation_flat_map.
Qed.

Lemma GenerateHeatmap_order_independent_witness :
  GenerateHeatmap (AllocHeatmap 4 4) 4 4 MINIMUM MAXIMUM 200
    [mkComplex 1 1; mkComplex 0.5 0.5] (F32.of_int 0) =
  Ok ([[F32.of_int 0; F32.of_int 0; F32.of_int 0; F32.of_int 0];
       [F32.of_int 0; F32.of_int 0; F32.of_int 0; F32.of_int 1];
       [F32.of_int 0; F32.of_int 0; F32.of_int 1; F32.of_int 1];
       [F32.of_int 0; F32.of_int 0; F32.of_int 0; F32.of_int 1]], F32.of_int 1).
Proof.
  apply (GenerateHeatmap_order_independent (AllocHeatmap 4 4) 4 4 MINIMUM MAXIMUM 200
           [mkComplex 0.5 0.5; mkComplex 1 1] [mkComplex 1 1; mkComplex 0.5 0.5]).
  - apply heatmap_counts_AllocHeatmap.
  - apply is_count_0.
  - apply perm_swap.
  - vm_compute. reflexivity.
Defined.

(** * Normalization in [main] *)

Lemma full_size_AllocHeatmap : full_size (AllocHeatmap IMAGE_WIDTH IMAGE_HEIGHT).
Proof.
  intros row col Hr Hc. unfold cell, AllocHeatmap.
  rewrite lookup_replicate_2 by auto. rewrite lookup_replicate_2 by auto. eauto.
Qed.

Lemma generating_full_size st : generating st -> forall ch, full_size (channel ch st).
Proof.
  induction 1 as [| ch st point h' M' Hgen IH Hacc]; intros ch'.
  - destruct ch'; apply full_size_AllocHeatmap.
  - rewrite channel_with_channel. destruct (decide (ch' = ch)) as [-> | Hne]; auto.
    rewrite accumulate_hit in Hacc.
    apply bind_Ok in Hacc. destruct Hacc as ([[row col]|] & _ & Hhit); simpl in Hhit.
    + apply bump_Ok in Hhit. destruct Hhit as (v & Hr & Hc & _ & -> & _).
      intros r c Hr' Hc'. rewrite cell_heatmap_set by auto.
      destruct (IH ch r c Hr' Hc') as [x Hx]. rewrite Hx.
      destruct (decide _); eauto.
    + inversion Hhit; subst. auto.
Qed.

(** With a maximum of 0 every cell is 0. *)
Lemma zero_max_zero_cells st ch row col :
  generating st -> snd st = F32.of_int 0 ->
  0 <= row < IMAGE_HEIGHT -> 0 <= col < IMAGE_WIDTH ->
  heatmap_get (channel ch st) row col = Ok (F32.of_int 0).
Proof.
  intros Hgen HM Hr Hc.
  destruct (generating_invariant st Hgen) as [[Hcnt _] [Hle _]].
  destruct (generating_full_size st Hgen ch (Z.to_nat row) (Z.to_nat col)) as [v Hv];
    try lia.
  apply heatmap_get_Ok. repeat split; try lia. rewrite Hv. f_equal.
  pose proof (Hle ch _ _ _ Hv) as Hv0. rewrite HM in Hv0.
  destruct (Hcnt ch _ _ _ Hv) as (n & Hn & ->).
  rewrite (F32_leb_count n 0) in Hv0 by (unfold max_count in *; lia).
  apply Z.leb_le in Hv0. f_equal. lia.
Qed.

Lemma collect_map_Ok {A B : Type} (f : A -> Result (list B)) (g : A -> list B) l :
  (forall x, In x l -> f x = Ok (g x)) -> collect (map f l) = Ok (flat_map g l).
Proof.
  induction l as [|a l IH]; intros H; [reflexivity|].
  simpl. rewrite (H a) by (left; auto). simpl.
  rewrite IH by (intros x Hx; apply H; right; auto). reflexivity.
Qed.

Lemma colorFromHeatmap_zero_max :
  colorFromHeatmap (F32.of_int 0) (F32.of_int 0) (F32.of_int 1) = S754_nan.
Proof. reflexivity. Qed.

Lemma In_seqZ x m n : In x (seqZ m n) -> m <= x < m + n.
Proof. intros H. apply list_elem_of_In, elem_of_seqZ in H. exact H. Qed.

(** The image that [main] builds when the maximum is 0. *)
Lemma main_vertices_zero_max redSamples blueSamples greenSamples st :
  main_generate redSamples blueSamples greenSamples = Ok st ->
  snd st = F32.of_int 0 ->
  main_vertices redSamples blueSamples greenSamples = Ok (uniform_vertices S754_nan).
Proof.
  intros Hgen HM. unfold main_vertices. rewrite Hgen. simpl bind.
  apply main_generate_generating in Hgen.
  unfold scale_heatmaps, uniform_vertices.
  apply collect_map_Ok. intros row Hrow. apply In_seqZ in Hrow.
  apply collect_map_Ok. intros col Hcol. apply In_seqZ in Hcol.
  unfold scale_cell.
  pose proof (zero_max_zero_cells st Red row col Hgen HM ltac:(lia) ltac:(lia)) as Hr.
  pose proof (zero_max_zero_cells st Blue row col Hgen HM ltac:(lia) ltac:(lia)) as Hb.
  pose proof (zero_max_zero_cells st Green row col Hgen HM ltac:(lia) ltac:(lia)) as Hg.
  destruct st as [[[red green] blue] M]. cbn [channel snd] in *. subst M.
  rewrite Hr, Hb, Hg. cbn [bind]. unfold pixel.
  rewrite colorFromHeatmap_zero_max. reflexivity.
Qed.

Lemma main_generate_no_samples : main_generate [] [] [] = Ok start_channels.
Proof. reflexivity. Qed.

(** C4, as stated, fails: with no sample at all the maximum is 0, and
    [main] neither stops before rendering nor outputs zeros: the colour
    of the first pixel is NaN. *)
Lemma main_zero_max_is_not_guarded :
  ~ (forall redSamples blueSamples greenSamples st,
       main_generate redSamples blueSamples greenSamples = Ok st ->
       snd st = F32.of_int 0 ->
       (exists f, main_vertices redSamples blueSamples greenSamples = Err f) \/
       (exists vertices,
          main_vertices redSamples blueSamples greenSamples = Ok vertices /\
          vertices !! 3%nat = Some (F32.of_int 0))).
Proof.
  intros H.
  destruct (H [] [] [] start_channels main_generate_no_samples eq_refl)
    as [[f Hf] | (vs & Hvs & H3)];
    rewrite (main_vertices_zero_max [] [] [] _ main_generate_no_samples eq_refl) in *.
  - discriminate Hf.
  - inversion Hvs; subst. vm_compute in H3. discriminate H3.
Qed.

(** C4 (amended): when [maxHeatmapValue] is 0 after the three generation
    passes, [main] makes no check and does not fail: the normalization
    divides by zero without trapping, every colour component of every
    pixel becomes NaN (0 times an infinite scale), and that buffer is
    what goes to the renderer. *)
Theorem main_zero_max_renders_nan redSamples blueSamples greenSamples st :
  main_generate redSamples blueSamples greenSamples = Ok st ->
  snd st = F32.of_int 0 ->
  main_vertices redSamples blueSamples greenSamples = Ok (uniform_vertices S754_nan) /\
  colorFromHeatmap (F32.of_int 0) (F32.of_int 0) (F32.of_int 1) = S754_nan.
Proof.
  intros Hgen HM. split.
  - eapply main_vertices_zero_max; eauto.
  - reflexivity.
Qed.

Lemma main_zero_max_renders_nan_witness :
  main_vertices [mkComplex 0 0] [] [mkComplex 0.25 0] = Ok (uniform_vertices S754_nan) /\
  colorFromHeatmap (F32.of_int 0) (F32.of_int 0) (F32.of_int 1) = S754_nan.
Proof.
  apply (main_zero_max_renders_nan [mkComplex 0 0] [] [mkComplex 0.25 0] start_channels).
  - vm_compute. reflexivity.
  - reflexivity.
Defined.

(** C5, as stated, fails in its last part: with the maximum at 41 the
    cell that holds the maximum is normalised to 1 - 2^-24, not to the
    target 1 (the scale 1/41 is rounded down before the product). *)
Lemma colorFromHeatmap_max_is_not_target :
  ~ (forall M, 0 < M <= max_count ->
       colorFromHeatmap (F32.of_int M) (F32.of_int M) (F32.of_int 1) = F32.of_int 1).
Proof.
  intros H. specialize (H 41 ltac:(unfold max_count; lia)).
  vm_compute in H. discriminate H.
Qed.

(** C5 (amended): for every cell value v with 0 <= v <= M and global
    maximum 0 < M <= 2^24 and target maximum intensity 1.0, the
    normalizer returns v * (target / M), the quotient and then the
    product each rounded to single precision; every normalized cell
    value lies in [0, target maximum]; and the cell whose value equals
    GlobalMaxCount normalizes to the target maximum or to the float just
    below it, 1 - 2^-24. *)
Theorem colorFromHeatmap_normalized v M :
  0 <= v <= M -> 0 < M <= max_count ->
  let x := colorFromHeatmap (F32.of_int v) (F32.of_int M) (F32.of_int 1) in
  x = F32.mul (F32.of_int v) (F32.div (F32.of_int 1) (F32.of_int M)) /\
  F32.leb (F32.of_int 0) x = true /\ F32.leb x (F32.of_int 1) = true /\
  (v = M -> x = F32.of_int 1 \/ x = F32_pred_one).
Proof.
  intros Hv HM x. subst x.
  rewrite colorFromHeatmap_count by lia.
  change (F32.of_int 1) with F32.one. change (F32.of_int 0) with F32.zero.
  split; [reflexivity|]. split; [apply normalized_nonneg; lia|]. split.
  - destruct (Z.eq_dec v 0) as [-> | Hv0].
    + destruct (of_int_normal M HM) as (mb & Hb & _ & Hdb & HdM).
      destruct (F32_div_one mb (Zdigits2 M - 24) Hdb ltac:(lia))
        as (ms & es & q1 & Hs & _).
      rewrite Hb, Hs. reflexivity.
    + apply normalized_le_one; lia.
  - intros ->. destruct (normalized_max M HM) as [H | H]; rewrite H; auto.
Qed.

Lemma colorFromHeatmap_normalized_witness :
  let x := colorFromHeatmap (F32.of_int 41) (F32.of_int 41) (F32.of_int 1) in
  x = F32.mul (F32.of_int 41) (F32.div (F32.of_int 1) (F32.of_int 41)) /\
  F32.leb (F32.of_int 0) x = true /\ F32.leb x (F32.of_int 1) = true /\
  (41 = 41 -> x = F32.of_int 1 \/ x = F32_pred_one).
Proof.
  apply (colorFromHeatmap_normalized 41 41); unfold max_count; lia.
Defined.

(** * The coordinate mapper *)

Lemma colFromImaginary_rowFromReal imag minI maxI imageWidth :
  colFromImaginary imag minI maxI imageWidth = rowFromReal imag minI maxI imageWidth.
Proof. reflexivity. Qed.

(** C8, as stated, fails in both parts.  In the reference rectangle the
    largest double below maxR = 2 is sent to row 200 where the exact
    quotient truncates to 199; and in the rectangle [0, 97] the value
    maxR itself is sent to row 199, not to imageHeight = 200. *)
Lemma rowFromReal_rounding :
  ~ (forall real minR maxR imageHeight,
       (D2Q minR < D2Q maxR)%Q -> (D2Q minR <= D2Q real <= D2Q maxR)%Q ->
       rowFromReal real minR maxR imageHeight =
       Ok (Qtrunc ((D2Q real - D2Q minR) * inject_Z imageHeight
                   / (D2Q maxR - D2Q minR)))) /\
  ~ (forall minR maxR imageHeight,
       (D2Q minR < D2Q maxR)%Q ->
       rowFromReal maxR minR maxR imageHeight = Ok imageHeight).
Proof.
  split; intros H.
  - specialize (H 0x1.fffffffffffffp+0%float (-2)%float 2%float 200).
    vm_compute in H. specialize (H eq_refl).
    assert (Hc : Ok 200 = Ok 199).
    { apply H. split; intros Hx; discriminate Hx. }
    discriminate Hc.
  - specialize (H 0%float 97%float 200). vm_compute in H.
    specialize (H eq_refl). discriminate H.
Qed.

(** Outside spans of ordinary size the mapper is not even close to the
    exact quotient: in [-2^1023, 2^1023] the span overflows, the scale
    is 0 and every value is sent to row 0; in [0, 2^-1072] the scale
    overflows and the conversion to int is undefined. *)
Lemma rowFromReal_extreme_rectangles :
  rowFromReal 0x1p+1022 (-0x1p+1023) 0x1p+1023 200 = Ok 0 /\
  Qtrunc (exact_index 0x1p+1022 (-0x1p+1023) 0x1p+1023 200) = 150 /\
  rowFromReal 0x1p-1074 0 0x1p-1072 200 = Err BadIntCast /\
  Qtrunc (exact_index 0x1p-1074 0 0x1p-1072 200) = 50.
Proof. repeat split; vm_compute; reflexivity. Qed.

(** C8 (amended): for finite doubles minR < maxR whose span maxR - minR
    lies between 2^-990 and 2^1020, an image size 0 < imageHeight < 2^31
    and every double value in [minR, maxR], the mapper returns the
    integer part of the product (value - minR) * (imageHeight / (maxR -
    minR)) computed in double arithmetic, an index row with 0 <= row <=
    imageHeight, and symmetrically for columns.  That product is within
    imageHeight * 2^-50 of the exact x = (value - minR) * imageHeight /
    (maxR - minR): row is x truncated toward zero or a neighbour of it,
    and it is x truncated toward zero whenever x is not within
    imageHeight * 2^-50 of an integer.  The value minR produces 0 and
    a value exactly equal to maxR produces imageHeight or
    imageHeight - 1. *)
Theorem coordinate_mapper_accuracy (value minR maxR : double) (imageHeight : Z) :
  0 < imageHeight <= Int.max_int ->
  SFis_finite (Prim2SF value) = true -> SFis_finite (Prim2SF minR) = true ->
  SFis_finite (Prim2SF maxR) = true ->
  (D2Q minR <= D2Q value <= D2Q maxR)%Q ->
  (2 ^ (-990) <= D2Q maxR - D2Q minR <= 2 ^ 1020)%Q ->
  exists row,
    rowFromReal value minR maxR imageHeight = Ok row /\
    colFromImaginary value minR maxR imageHeight = Ok row /\
    row = Qtrunc (D2Q (mapper_product value minR maxR imageHeight)) /\
    0 <= row <= imageHeight /\
    (exact_index value minR maxR imageHeight - mapper_slack imageHeight
       <= D2Q (mapper_product value minR maxR imageHeight)
       <= exact_index value minR maxR imageHeight + mapper_slack imageHeight)%Q /\
    Z.abs (row - Qtrunc (exact_index value minR maxR imageHeight)) <= 1 /\
    ((inject_Z (Qtrunc (exact_index value minR maxR imageHeight))
        + mapper_slack imageHeight <= exact_index value minR maxR imageHeight)%Q ->
     (exact_index value minR maxR imageHeight + mapper_slack imageHeight
        < inject_Z (Qtrunc (exact_index value minR maxR imageHeight)) + 1)%Q ->
     row = Qtrunc (exact_index value minR maxR imageHeight)) /\
    (value = minR -> row = 0) /\
    (value = maxR -> row = imageHeight \/ row = imageHeight - 1).
Proof.
  intros HH Hfv Hfm HfM Hv Hw.
  assert (HH' : 0 < imageHeight < 2 ^ 31)
    by (unfold Int.max_int in HH; change (2 ^ 31) with 2147483648; lia).
  destruct (mapper_accuracy value minR maxR imageHeight HH' Hfv Hfm HfM Hv Hw)
    as (Hfin & Hp0 & Hacc).
  destruct (rowFromReal_value value minR maxR imageHeight HH' Hfv Hfm HfM Hv Hw)
    as [Hrow Hrange].
  destruct (mapper_slack_small imageHeight HH') as [Hs0 Hs1].
  assert (Hlt : (D2Q minR < D2Q maxR)%Q).
  { pose proof (Qpow2_pos (-990)). lra. }
  pose proof (proj1 (exact_index_range value minR maxR imageHeight ltac:(lia) Hlt) Hv)
    as [Hx0 Hx1].
  exists (Qfloor (D2Q (mapper_product value minR maxR imageHeight))).
  rewrite !Qtrunc_nonneg by assumption.
  change (colFromImaginary value minR maxR imageHeight)
    with (rowFromReal value minR maxR imageHeight).
  repeat split; try tauto.
  - apply (Qfloor_close _ _ (mapper_slack imageHeight)); [lra | exact Hacc].
  - intros H1 H2. apply (Qfloor_inner _ _ _ _ Hacc H1 H2).
  - intros ->. rewrite (exact_index_min minR maxR imageHeight Hlt) in Hacc.
    apply Qfloor_unique. change (inject_Z 0) with 0%Q. lra.
  - intros ->. rewrite (exact_index_max minR maxR imageHeight Hlt) in Hacc.
    assert (imageHeight - 1 <= Qfloor (D2Q (mapper_product maxR minR maxR imageHeight))).
    { apply Qfloor_lower. unfold Z.sub. rewrite inject_Z_plus.
      change (inject_Z (- (1))) with (- (1))%Q. lra. }
    lia.
Qed.

Lemma coordinate_mapper_accuracy_witness :
  exists row,
    rowFromReal 0.375 (-2) 2 200 = Ok row /\
    colFromImaginary 0.375 (-2) 2 200 = Ok row /\
    row = Qtrunc (D2Q (mapper_product 0.375 (-2) 2 200)) /\
    0 <= row <= 200 /\
    (exact_index 0.375 (-2) 2 200 - mapper_slack 200
       <= D2Q (mapper_product 0.375 (-2) 2 200)
       <= exact_index 0.375 (-2) 2 200 + mapper_slack 200)%Q /\
    Z.abs (row - Qtrunc (exact_index 0.375 (-2) 2 200)) <= 1 /\
    ((inject_Z (Qtrunc (exact_index 0.375 (-2) 2 200))
        + mapper_slack 200 <= exact_index 0.375 (-2) 2 200)%Q ->
     (exact_index 0.375 (-2) 2 200 + mapper_slack 200
        < inject_Z (Qtrunc (exact_index 0.375 (-2) 2 200)) + 1)%Q ->
     row = Qtrunc (exact_index 0.375 (-2) 2 200)) /\
    (0.375%float = (-2)%float -> row = 0) /\
    (0.375%float = 2%float -> row = 200 \/ row = 200 - 1).
Proof.
  apply (coordinate_mapper_accuracy 0.375 (-2) 2 200);
    [ vm_compute; split; [reflexivity | discriminate]
    | reflexivity | reflexivity | reflexivity
    | vm_compute; split; discriminate
    | vm_compute; split; discriminate ].
Defined.




(** * More on the trajectory sampler *)

(** Whatever the sampler returns, when it is not empty: fewer points than
    the budget, the iterates z_1 .. z_k in order, all of them inside the
    test [sqmagnitude <= 2.0] of the loop except the last one. *)
Theorem buddhabrotPoints_sound (c : Complex) (B : Z) (l : list Complex) :
  buddhabrotPoints c B = Ok l -> l <> [] ->
  Z.of_nat (length l) < B /\
  l = map (orbit c) (seq 1 (length l)) /\
  (forall i z, (S i < length l)%nat -> l !! i = Some z ->
     (sqmagnitude z <=? 2)%float = true) /\
  (exists z, last l = Some z /\ (sqmagnitude z <=? 2)%float = false).
Proof.
  intros H Hne. apply buddhabrotPoints_inv in H; [|exact Hne].
  destruct H as (k & Hk & HkB & Hl & Hbefore & Hlast).
  assert (Hlen : length l = k) by (rewrite Hl, length_map, length_seq; reflexivity).
  rewrite Hlen. split; [exact HkB|]. split; [exact Hl|]. split.
  - intros i z Hi Hz. rewrite Hl in Hz. apply lookup_orbit_prefix in Hz.
    destruct Hz as [_ ->]. apply Hbefore. lia.
  - destruct k as [|k]; [lia|]. exists (orbit c (S k)).
    split; [|exact Hlast]. rewrite Hl. apply last_orbit_prefix.
Qed.

Lemma buddhabrotPoints_sound_witness :
  Z.of_nat (length [mkComplex 1 0; mkComplex 2 0]) < RED_ITERS /\
  [mkComplex 1 0; mkComplex 2 0] =
    map (orbit (mkComplex 1 0)) (seq 1 (length [mkComplex 1 0; mkComplex 2 0])) /\
  (forall i z, (S i < length [mkComplex 1 0; mkComplex 2 0])%nat ->
     [mkComplex 1 0; mkComplex 2 0] !! i = Some z ->
     (sqmagnitude z <=? 2)%float = true) /\
  (exists z, last [mkComplex 1 0; mkComplex 2 0] = Some z /\
             (sqmagnitude z <=? 2)%float = false).
Proof.
  apply (buddhabrotPoints_sound (mkComplex 1 0) RED_ITERS).
  - reflexivity.
  - discriminate.
Defined.

(** The budgets that record nothing: a negative budget makes [reserve]
    throw, and with a budget of 0 or 1 the loop ends on [n == nIterations]
    for every sample point, so the result is always empty. *)
Theorem buddhabrotPoints_small_budget (c : Complex) (B : Z) :
  (B < 0 -> buddhabrotPoints c B = Err LengthError) /\
  (0 <= B <= 1 -> buddhabrotPoints c B = Ok []).
Proof.
  split.
  - intros HB. unfold buddhabrotPoints.
    replace (B <? 0) with true by (symmetry; apply Z.ltb_lt; lia). reflexivity.
  - intros HB. apply buddhabrotPoints_bounded; [lia|].
    intros j Hj. assert (j = 0%nat) as -> by lia. apply sqmagnitude_Complex0.
Qed.

(** Every recorded point except the last is a finite number: only the
    point that ends the loop can be infinite or NaN. *)
Theorem buddhabrotPoints_finite (c : Complex) (B : Z) (l : list Complex) :
  buddhabrotPoints c B = Ok l ->
  forall i z, (S i < length l)%nat -> l !! i = Some z -> Cis_finite z = true.
Proof.
  intros H i z Hi Hz. destruct l as [|z0 l]; [simpl in Hi; lia|].
  apply buddhabrotPoints_inv in H; [|discriminate].
  destruct H as (k & Hk & HkB & Hl & Hbefore & Hlast).
  assert (Hlen : length (z0 :: l) = k) by (rewrite Hl, length_map, length_seq; reflexivity).
  rewrite Hl in Hz. apply lookup_orbit_prefix in Hz. destruct Hz as [_ ->].
  apply le_two_finite, Hbefore. lia.
Qed.

Lemma buddhabrotPoints_finite_witness : Cis_finite (mkComplex 1 0) = true.
Proof.
  apply (buddhabrotPoints_finite (mkComplex 1 0) RED_ITERS
           [mkComplex 1 0; mkComplex 2 0] eq_refl 0%nat).
  - simpl. lia.
  - reflexivity.
Defined.

(** * The [Complex] kernel *)

Section Commutative.
Variables prec emax : Z.

Lemma SFadd_comm x y : SFadd prec emax x y = SFadd prec emax y x.
Proof.
  destruct x as [sx|sx| |sx mx ex], y as [sy|sy| |sy my ey]; simpl; auto;
    try (destruct sx, sy; reflexivity).
  rewrite (Z.min_comm ey ex), Z.add_comm. reflexivity.
Qed.
End Commutative.

Lemma double_mul_comm (x y : double) : (x * y = y * x)%float.
Proof. apply Prim2SF_inj. rewrite !mul_spec. apply SFmul_comm. Qed.

Lemma double_add_comm (x y : double) : (x + y = y + x)%float.
Proof. apply Prim2SF_inj. rewrite !add_spec. apply SFadd_comm. Qed.

(** [operator*] and [operator+] are commutative, exactly: rounding does
    not depend on the order of the operands. *)
Theorem Complex_commutative (a b : Complex) :
  Cmul a b = Cmul b a /\ Cadd a b = Cadd b a.
Proof.
  unfold Cmul, Cadd. split; f_equal.
  - now rewrite (double_mul_comm (_r a)), (double_mul_comm (_i a)).
  - rewrite (double_mul_comm (_r a)), (double_mul_comm (_i a)).
    apply double_add_comm.
  - apply double_add_comm.
  - apply double_add_comm.
Qed.

(** [sqmagnitude] is NaN exactly when a coordinate is NaN; otherwise it
    is a non-negative number or +infinity, never negative. *)
Theorem sqmagnitude_nonneg (z : Complex) :
  is_nan (sqmagnitude z) = Cis_nan z /\
  (sqmagnitude z <? 0)%float = false /\
  (Cis_nan z = false -> (0 <=? sqmagnitude z)%float = true).
Proof.
  split; [apply sqmagnitude_is_nan|].
  assert (Hs : Cis_nan z = false ->
               SFsign (Prim2SF (sqmagnitude z)) = Some false).
  { intros Hn. unfold Cis_nan in Hn. apply orb_false_iff in Hn.
    destruct Hn as [Hr Hi]. rewrite <- Prim2SF_is_nan in Hr, Hi.
    rewrite sqmagnitude_spec. apply SFadd_sign_false; now apply SFmul_self_sign. }
  destruct (Cis_nan z) eqn:Hn.
  - split; [|discriminate].
    rewrite ltb_spec. rewrite <- sqmagnitude_is_nan, <- Prim2SF_is_nan in Hn.
    destruct (Prim2SF (sqmagnitude z)); try discriminate. reflexivity.
  - specialize (Hs eq_refl). rewrite ltb_spec, leb_spec.
    change (Prim2SF 0) with (S754_zero false).
    destruct (Prim2SF (sqmagnitude z)) as [s|s| |s m e]; simpl in Hs;
      try discriminate; inversion Hs; subst; split; auto.
Qed.

(** * More on the heatmap and its generator *)

(** A freshly allocated heatmap has [height] rows of [width] cells, all
    0: a read inside gives 0, a read anywhere else is out of bounds. *)
Theorem AllocHeatmap_get (width height row col : Z) :
  0 <= width -> 0 <= height ->
  heatmap_get (AllocHeatmap width height) row col =
  if (0 <=? row) && (row <? height) && (0 <=? col) && (col <? width)
  then Ok (F32.of_int 0) else Err OutOfBounds.
Proof.
  intros Hw Hh. unfold heatmap_get, AllocHeatmap.
  destruct (row <? 0) eqn:Hr0; [apply Z.ltb_lt in Hr0 | apply Z.ltb_ge in Hr0].
  { replace (0 <=? row) with false by (symmetry; apply Z.leb_gt; lia). reflexivity. }
  replace (0 <=? row) with true by (symmetry; apply Z.leb_le; lia).
  destruct (col <? 0) eqn:Hc0; [apply Z.ltb_lt in Hc0 | apply Z.ltb_ge in Hc0].
  { replace (0 <=? col) with false by (symmetry; apply Z.leb_gt; lia).
    simpl. now rewrite andb_false_r. }
  replace (0 <=? col) with true by (symmetry; apply Z.leb_le; lia). simpl.
  destruct (row <? height) eqn:Hr; [apply Z.ltb_lt in Hr | apply Z.ltb_ge in Hr].
  - rewrite lookup_replicate_2 by lia. simpl.
    destruct (col <? width) eqn:Hc; [apply Z.ltb_lt in Hc | apply Z.ltb_ge in Hc].
    + now rewrite lookup_replicate_2 by lia.
    + rewrite (proj2 (lookup_ge_None _ _)); [reflexivity|].
      rewrite length_replicate. lia.
  - rewrite (proj2 (lookup_ge_None _ _)); [reflexivity|].
    rewrite length_replicate. lia.
Qed.

Lemma AllocHeatmap_get_witness :
  heatmap_get (AllocHeatmap IMAGE_WIDTH IMAGE_HEIGHT) 200 100 =
  if (0 <=? 200) && (200 <? IMAGE_HEIGHT) && (0 <=? 100) && (100 <? IMAGE_WIDTH)
  then Ok (F32.of_int 0) else Err OutOfBounds.
Proof.
  apply (AllocHeatmap_get IMAGE_WIDTH IMAGE_HEIGHT 200 100); unfold IMAGE_WIDTH, IMAGE_HEIGHT; lia.
Defined.

Lemma F32_incr_min n :
  0 <= n <= max_count ->
  F32.add (F32.of_int n) F32.one = F32.of_int (Z.min (n + 1) max_count).
Proof.
  intros Hn. destruct (Z.eq_dec n max_count) as [-> | Hne].
  - reflexivity.
  - rewrite Z.min_l by lia. apply F32_incr_count. lia.
Qed.

(** One trajectory point changes at most one cell: outside the rectangle
    nothing; inside, the cell that the mapper computes gets 1 more (and
    stays at 2^24 once it is there), every other cell keeps its value,
    and the maximum follows that cell. *)
Theorem accumulate_one_cell (imageWidth imageHeight : Z) (minimum maximum : Complex)
    (h : Heatmap) (M : HeatmapType) (point : Complex) (h' : Heatmap) (M' : HeatmapType) :
  heatmap_counts h ->
  accumulate imageWidth imageHeight minimum maximum (h, M) point = Ok (h', M') ->
  (in_rectangle minimum maximum point = false /\ h' = h /\ M' = M) \/
  (in_rectangle minimum maximum point = true /\
   exists row col n,
     rowFromReal (_r point) (_r minimum) (_r maximum) imageHeight = Ok row /\
     colFromImaginary (_i point) (_i minimum) (_i maximum) imageWidth = Ok col /\
     0 <= row /\ 0 <= col /\ 0 <= n <= max_count /\
     cell h (Z.to_nat row) (Z.to_nat col) = Some (F32.of_int n) /\
     cell h' (Z.to_nat row) (Z.to_nat col) = Some (F32.of_int (Z.min (n + 1) max_count)) /\
     (forall r c, (r, c) <> (Z.to_nat row, Z.to_nat col) -> cell h' r c = cell h r c) /\
     M' = fmax M (F32.of_int (Z.min (n + 1) max_count))).
Proof.
  intros Hh H. unfold accumulate in H.
  destruct (in_rectangle minimum maximum point) eqn:Hin.
  - right. split; [reflexivity|].
    apply bind_Ok in H. destruct H as (row & Hrow & H).
    apply bind_Ok in H. destruct H as (col & Hcol & H).
    apply bind_Ok in H. destruct H as (v & Hv & H).
    apply heatmap_get_Ok in Hv. destruct Hv as (Hr & Hc & Hv).
    destruct (Hh _ _ _ Hv) as (n & Hn & ->).
    rewrite F32_incr_min in H by exact Hn.
    inversion H; subst h' M'. clear H.
    exists row, col, n. repeat (split; [assumption|]).
    split; [|split; [|reflexivity]].
    + rewrite cell_heatmap_set by auto.
      destruct (decide _) as [_|Hne]; [now rewrite Hv | now destruct Hne].
    + intros r c Hne. rewrite cell_heatmap_set by auto.
      destruct (decide _) as [[-> ->]|]; [now destruct Hne | reflexivity].
  - left. inversion H. auto.
Qed.

Lemma accumulate_one_cell_witness :
  (in_rectangle MINIMUM MAXIMUM (mkComplex 1 0) = false /\
   heatmap_set (AllocHeatmap 4 4) 3 2 F32.one = AllocHeatmap 4 4 /\
   F32.one = F32.of_int 0) \/
  (in_rectangle MINIMUM MAXIMUM (mkComplex 1 0) = true /\
   exists row col n,
     rowFromReal 1 (-2) 2 4 = Ok row /\ colFromImaginary 0 (-2) 2 4 = Ok col /\
     0 <= row /\ 0 <= col /\ 0 <= n <= max_count /\
     cell (AllocHeatmap 4 4) (Z.to_nat row) (Z.to_nat col) = Some (F32.of_int n) /\
     cell (heatmap_set (AllocHeatmap 4 4) 3 2 F32.one) (Z.to_nat row) (Z.to_nat col) =
       Some (F32.of_int (Z.min (n + 1) max_count)) /\
     (forall r c, (r, c) <> (Z.to_nat row, Z.to_nat col) ->
        cell (heatmap_set (AllocHeatmap 4 4) 3 2 F32.one) r c =
        cell (AllocHeatmap 4 4) r c) /\
     F32.one = fmax (F32.of_int 0) (F32.of_int (Z.min (n + 1) max_count))).
Proof.
  apply (accumulate_one_cell 4 4 MINIMUM MAXIMUM (AllocHeatmap 4 4) (F32.of_int 0)
           (mkComplex 1 0)).
  - apply heatmap_counts_AllocHeatmap.
  - vm_compute. reflexivity.
Defined.

Lemma shape_heatmap_set h row col v : shape (heatmap_set h row col v) = shape h.
Proof.
  unfold shape, heatmap_set. revert h.
  induction (Z.to_nat row) as [|r IH]; intros [|cells h]; simpl; auto.
  - now rewrite length_insert.
  - f_equal. apply IH.
Qed.

Lemma accumulate_shape w ht mn mx st p st' :
  accumulate w ht mn mx st p = Ok st' -> shape (fst st') = shape (fst st).
Proof.
  rewrite accumulate_hit. intros H.
  apply bind_Ok in H. destruct H as ([[row col]|] & _ & H); simpl in H.
  - destruct st as [h M], st' as [h' M'].
    apply bump_Ok in H. destruct H as (v & _ & _ & _ & -> & _).
    apply shape_heatmap_set.
  - now inversion H.
Qed.

Lemma accumulate_points_shape w ht mn mx pts : forall st st',
  accumulate_points w ht mn mx st pts = Ok st' -> shape (fst st') = shape (fst st).
Proof.
  induction pts as [|p pts IH]; intros st st' H.
  - now inversion H.
  - rewrite accumulate_points_cons in H.
    apply bind_Ok in H. destruct H as (st1 & Hacc & H).
    rewrite (IH _ _ H). eapply accumulate_shape; eauto.
Qed.

(** [GenerateHeatmap] never changes the dimensions of the heatmap: the
    same rows, each of the same length, whatever the samples. *)
Theorem GenerateHeatmap_shape (imageWidth imageHeight : Z) (minimum maximum : Complex)
    (nIterations : Z) (samples : list Complex) :
  forall (o_heatmap : Heatmap) (o_maxHeatmapValue : HeatmapType) final,
    GenerateHeatmap o_heatmap imageWidth imageHeight minimum maximum nIterations
      samples o_maxHeatmapValue = Ok final ->
    shape (fst final) = shape o_heatmap.
Proof.
  induction samples as [|s samples IH]; intros h M final H.
  - now inversion H.
  - rewrite GenerateHeatmap_cons in H.
    apply bind_Ok in H. destruct H as (st1 & Hs & H).
    rewrite (IH _ _ _ H).
    unfold process_sample in Hs.
    apply bind_Ok in Hs. destruct Hs as (pts & _ & Hacc).
    apply (accumulate_points_shape _ _ _ _ _ _ _ Hacc).
Qed.

Lemma GenerateHeatmap_shape_witness :
  shape (fst ([[F32.of_int 0; F32.of_int 0; F32.of_int 0; F32.of_int 0];
               [F32.of_int 0; F32.of_int 0; F32.of_int 0; F32.of_int 1];
               [F32.of_int 0; F32.of_int 0; F32.of_int 1; F32.of_int 1];
               [F32.of_int 0; F32.of_int 0; F32.of_int 0; F32.of_int 1]], F32.of_int 1)) =
  shape (AllocHeatmap 4 4).
Proof.
  apply (GenerateHeatmap_shape 4 4 MINIMUM MAXIMUM 200 [mkComplex 1 1; mkComplex 0.5 0.5]
           (AllocHeatmap 4 4) (F32.of_int 0)).
  vm_compute. reflexivity.
Defined.

Lemma heatmap_le_refl h : heatmap_counts h -> heatmap_le h h.
Proof. intros Hh row col v Hv. exists v. split; auto. apply count_leb_refl; eauto. Qed.

Lemma heatmap_le_trans h1 h2 h3 :
  heatmap_counts h1 -> heatmap_counts h2 -> heatmap_counts h3 ->
  heatmap_le h1 h2 -> heatmap_le h2 h3 -> heatmap_le h1 h3.
Proof.
  intros H1 H2 H3 L12 L23 row col v Hv.
  destruct (L12 _ _ _ Hv) as (v2 & Hv2 & Hle2).
  destruct (L23 _ _ _ Hv2) as (v3 & Hv3 & Hle3).
  exists v3. split; auto.
  apply (count_leb_trans v v2 v3); auto;
    [apply (H1 _ _ _ Hv) | apply (H2 _ _ _ Hv2) | apply (H3 _ _ _ Hv3)].
Qed.

Lemma accumulate_grows w ht mn mx st p st' :
  heatmap_counts (fst st) -> is_count (snd st) ->
  accumulate w ht mn mx st p = Ok st' ->
  heatmap_le (fst st) (fst st') /\ F32.leb (snd st) (snd st') = true.
Proof.
  intros Hh HM H. rewrite accumulate_hit in H.
  apply bind_Ok in H. destruct H as ([[row col]|] & _ & H); simpl in H.
  - destruct st as [h M], st' as [h' M']. simpl in *.
    apply bump_Ok in H. destruct H as (v & Hr & Hc & Hv & -> & ->).
    split.
    + intros r c x Hx. rewrite cell_heatmap_set by auto.
      destruct (decide _) as [[-> ->]|].
      * rewrite Hx. rewrite Hv in Hx. inversion Hx; subst x.
        eexists. split; [reflexivity|]. apply count_incr_leb. apply (Hh _ _ _ Hv).
      * exists x. split; auto. apply count_leb_refl. apply (Hh _ _ _ Hx).
    + change (if F32.ltb M (F32.add v F32.one) then F32.add v F32.one else M)
        with (fmax M (F32.add v F32.one)).
      apply fmax_leb_l; auto. apply F32_incr_is_count. apply (Hh _ _ _ Hv).
  - inversion H; subst. split; [now apply heatmap_le_refl | now apply count_leb_refl].
Qed.

Lemma accumulate_points_grows w ht mn mx pts : forall st st',
  heatmap_counts (fst st) -> is_count (snd st) ->
  accumulate_points w ht mn mx st pts = Ok st' ->
  heatmap_counts (fst st') /\ is_count (snd st') /\
  heatmap_le (fst st) (fst st') /\ F32.leb (snd st) (snd st') = true.
Proof.
  induction pts as [|p pts IH]; intros st st' Hh HM H.
  - inversion H; subst. repeat split; auto.
    + now apply heatmap_le_refl.
    + now apply count_leb_refl.
  - rewrite accumulate_points_cons in H.
    apply bind_Ok in H. destruct H as (st1 & Hacc & H).
    destruct (accumulate_counts _ _ _ _ _ _ _ Hh HM Hacc) as [Hh1 HM1].
    destruct (accumulate_grows _ _ _ _ _ _ _ Hh HM Hacc) as [L1 M1].
    destruct (IH _ _ Hh1 HM1 H) as (Hh' & HM' & L2 & M2).
    repeat split; auto.
    + apply (heatmap_le_trans (fst st) (fst st1) (fst st')); auto.
    + apply (count_leb_trans (snd st) (snd st1) (snd st')); auto.
Qed.

(** Counts only grow: after [GenerateHeatmap] every cell holds at least
    what it held before, and so does [o_maxHeatmapValue]. *)
Theorem GenerateHeatmap_grows (o_heatmap : Heatmap) (imageWidth imageHeight : Z)
    (minimum maximum : Complex) (nIterations : Z) (samples : list Complex)
    (o_maxHeatmapValue : HeatmapType) (final : Heatmap * HeatmapType) :
  heatmap_counts o_heatmap -> is_count o_maxHeatmapValue ->
  GenerateHeatmap o_heatmap imageWidth imageHeight minimum maximum nIterations
    samples o_maxHeatmapValue = Ok final ->
  heatmap_le o_heatmap (fst final) /\
  F32.leb o_maxHeatmapValue (snd final) = true.
Proof.
  intros Hh HM H.
  destruct (Z_lt_ge_dec nIterations 0) as [Hneg | Hpos].
  - destruct samples as [|s samples].
    + inversion H; subst. split; [now apply heatmap_le_refl | now apply count_leb_refl].
    + rewrite GenerateHeatmap_cons in H. unfold process_sample, buddhabrotPoints in H.
      replace (nIterations <? 0) with true in H by (symmetry; apply Z.ltb_lt; lia).
      discriminate H.
  - rewrite GenerateHeatmap_concat in H by lia.
    destruct (accumulate_points_grows _ _ _ _ _ (o_heatmap, o_maxHeatmapValue) final Hh HM H)
      as (_ & _ & L & Hle).
    auto.
Qed.

Lemma GenerateHeatmap_grows_witness :
  heatmap_le (AllocHeatmap 4 4)
    (fst ([[F32.of_int 0; F32.of_int 0; F32.of_int 0; F32.of_int 0];
           [F32.of_int 0; F32.of_int 0; F32.of_int 0; F32.of_int 1];
           [F32.of_int 0; F32.of_int 0; F32.of_int 1; F32.of_int 1];
           [F32.of_int 0; F32.of_int 0; F32.of_int 0; F32.of_int 1]], F32.of_int 1)) /\
  F32.leb (F32.of_int 0)
    (snd ([[F32.of_int 0; F32.of_int 0; F32.of_int 0; F32.of_int 0];
           [F32.of_int 0; F32.of_int 0; F32.of_int 0; F32.of_int 1];
           [F32.of_int 0; F32.of_int 0; F32.of_int 1; F32.of_int 1];
           [F32.of_int 0; F32.of_int 0; F32.of_int 0; F32.of_int 1]], F32.of_int 1)) = true.
Proof.
  apply (GenerateHeatmap_grows (AllocHeatmap 4 4) 4 4 MINIMUM MAXIMUM 200
           [mkComplex 1 1; mkComplex 0.5 0.5] (F32.of_int 0)).
  - apply heatmap_counts_AllocHeatmap.
  - apply is_count_0.
  - vm_compute. reflexivity.
Defined.

(** Heatmap cells and the maximum are whole numbers between 0 and 2^24,
    held exactly, in every state of the generation passes of [main]. *)
Theorem generating_counts :
  (forall st, generating st -> all_counts st) /\
  (forall redSamples blueSamples greenSamples st,
     main_generate redSamples blueSamples greenSamples = Ok st -> all_counts st).
Proof.
  split.
  - intros st H. now apply generating_invariant.
  - intros rs bs gs st H. apply main_generate_generating in H.
    now apply generating_invariant.
Qed.

(** With a budget of 0 or 1 no sample ever contributes: [GenerateHeatmap]
    returns the heatmap and the maximum it was given, whatever the
    samples. *)
Theorem GenerateHeatmap_small_budget (o_heatmap : Heatmap) (imageWidth imageHeight : Z)
    (minimum maximum : Complex) (nIterations : Z) (samples : list Complex)
    (o_maxHeatmapValue : HeatmapType) :
  0 <= nIterations <= 1 ->
  GenerateHeatmap o_heatmap imageWidth imageHeight minimum maximum nIterations
    samples o_maxHeatmapValue = Ok (o_heatmap, o_maxHeatmapValue).
Proof.
  intros HB. revert o_heatmap o_maxHeatmapValue.
  induction samples as [|s samples IH]; intros h M; [reflexivity|].
  rewrite GenerateHeatmap_cons. unfold process_sample.
  rewrite (buddhabrotPoints_bounded s nIterations) by
    (try lia; intros j Hj; assert (j = 0%nat) as -> by lia; apply sqmagnitude_Complex0).
  simpl. apply IH.
Qed.

Lemma GenerateHeatmap_small_budget_witness :
  GenerateHeatmap (AllocHeatmap 10 10) 10 10 MINIMUM MAXIMUM 1 [mkComplex 2 2]
    (F32.of_int 0) = Ok (AllocHeatmap 10 10, F32.of_int 0).
Proof.
  apply (GenerateHeatmap_small_budget (AllocHeatmap 10 10) 10 10 MINIMUM MAXIMUM 1
           [mkComplex 2 2] (F32.of_int 0)).
  lia.
Defined.

Lemma SFleb_finite_l x y :
  SFleb x y = true -> SFis_finite y = true -> SFis_nan x = false /\ x <> S754_infinity false.
Proof.
  destruct x as [s|[]| |s m e], y as [s'|s'| |s' m' e']; try discriminate; auto;
    intros _ _; split; auto; discriminate.
Qed.

Lemma SFleb_finite_r x y :
  SFleb x y = true -> SFis_finite x = true -> SFis_nan y = false /\ y <> S754_infinity true.
Proof.
  destruct x as [s|s| |s m e], y as [s'|[]| |s' m' e']; try discriminate; auto;
    intros _ _; split; auto; discriminate.
Qed.

(** The filter of [GenerateHeatmap] keeps numbers only: a point with a
    NaN or infinite coordinate is never inside a finite rectangle, so it
    never reaches the mapper. *)
Theorem in_rectangle_finite (minimum maximum point : Complex) :
  Cis_finite minimum = true -> Cis_finite maximum = true ->
  in_rectangle minimum maximum point = true -> Cis_finite point = true.
Proof.
  unfold Cis_finite, in_rectangle. rewrite !andb_true_iff, !leb_spec.
  intros [Hmr Hmi] [HMr HMi] [[[H1 H2] H3] H4].
  destruct (SFleb_finite_l _ _ H1 HMr), (SFleb_finite_r _ _ H2 Hmr),
           (SFleb_finite_l _ _ H3 HMi), (SFleb_finite_r _ _ H4 Hmi).
  split.
  - destruct (Prim2SF (_r point)) as [s|[]| |s m e]; try discriminate; try reflexivity;
      congruence.
  - destruct (Prim2SF (_i point)) as [s|[]| |s m e]; try discriminate; try reflexivity;
      congruence.
Qed.

Lemma in_rectangle_finite_witness : Cis_finite (mkComplex 1 0) = true.
Proof.
  apply (in_rectangle_finite MINIMUM MAXIMUM (mkComplex 1 0)); reflexivity.
Defined.

(** * More on the normalizer *)

(** A cell that was never hit is rendered black, exactly 0, and a cell
    that was hit never is: its colour is a positive number. *)
Theorem colorFromHeatmap_zero_iff (v M : Z) :
  0 <= v <= M -> 0 < M <= max_count ->
  (v = 0 -> colorFromHeatmap (F32.of_int v) (F32.of_int M) (F32.of_int 1) = F32.of_int 0) /\
  (0 < v ->
   F32.ltb (F32.of_int 0) (colorFromHeatmap (F32.of_int v) (F32.of_int M) (F32.of_int 1))
   = true).
Proof.
  intros Hv HM. rewrite colorFromHeatmap_count by lia. split.
  - intros ->.
    destruct (of_int_normal M HM) as (mb & Hb & _ & Hdb & HdM).
    destruct (F32_div_one mb (Zdigits2 M - 24) Hdb ltac:(lia))
      as (ms & es & q1 & Hs & _).
    rewrite Hb, Hs. reflexivity.
  - intros Hv0.
    destruct (normalized_parts v M ltac:(lia) HM)
      as (ma & mb & ms & j & d & -> & _ & _ & _ & _ & Hj & _ & Hd & HdP & Hdv & HdM).
    rewrite (binary_round_aux_long false (ma * ms) _ (d - 24)) by lia.
    destruct (rne (Zpos (ma * ms)) (d - 24) <? 2 ^ 24); reflexivity.
Qed.

Lemma colorFromHeatmap_zero_iff_witness :
  (3 = 0 -> colorFromHeatmap (F32.of_int 3) (F32.of_int 7) (F32.of_int 1) = F32.of_int 0) /\
  (0 < 3 ->
   F32.ltb (F32.of_int 0) (colorFromHeatmap (F32.of_int 3) (F32.of_int 7) (F32.of_int 1))
   = true).
Proof.
  apply (colorFromHeatmap_zero_iff 3 7); unfold max_count; lia.
Defined.

(** A count is stored exactly. *)
Lemma SF2Q_of_int n : 0 <= n <= max_count -> (SF2Q (F32.of_int n) == inject_Z n)%Q.
Proof.
  intros Hn. destruct (Z.eq_dec n 0) as [-> | Hn0]; [reflexivity|].
  destruct (of_int_canonical n ltac:(lia)) as (m & -> & Hm).
  assert (Hd : 1 <= Zdigits2 n) by (destruct n; simpl; lia).
  rewrite SF2Q_finite_pos.
  rewrite <- (Qmult_1_r (inject_Z n)).
  change 1%Q with (2 ^ 0)%Q.
  apply Qle_antisym; apply (Qscale_le _ _ _ _ 23); try lia.
  - replace (Zdigits2 n - 24 + 23) with (Zdigits2 n - 1) by lia. simpl (0 + 23). lia.
  - replace (Zdigits2 n - 24 + 23) with (Zdigits2 n - 1) by lia. simpl (0 + 23). lia.
Qed.

(** The counts that are powers of two, and the scale they give. *)
Lemma of_int_pow2 k :
  0 <= k <= 24 -> F32.of_int (2 ^ k) = S754_finite false 8388608 (k - 23).
Proof.
  intros Hk.
  assert (Hd : forallb (fun k => Z.eqb (Zdigits2 (2 ^ k)) (k + 1)) (seqZ 0 25) = true)
    by (vm_compute; reflexivity).
  apply (forallb_seqZ _ 0 25 k) in Hd; [|lia]. apply Z.eqb_eq in Hd.
  destruct (of_int_normal (2 ^ k)) as (m & -> & Hm & _).
  { unfold max_count. split; [apply Z.pow_pos_nonneg; lia|].
    change 16777216 with (2 ^ 24). apply Z.pow_le_mono_r; lia. }
  rewrite Hd in *. replace (k + 1 - 1) with k in Hm by lia.
  assert (Hp : 0 < 2 ^ k) by (apply Z.pow_pos_nonneg; lia).
  f_equal; [|lia]. change (2 ^ 23) with 8388608 in Hm. nia.
Qed.

Lemma scale_pow2 k :
  0 <= k <= 24 ->
  F32.div F32.one (S754_finite false 8388608 (k - 23)) = S754_finite false 8388608 (-23 - k).
Proof.
  intros Hk.
  destruct (F32_div_one 8388608 (k - 23) eq_refl ltac:(lia))
    as (ms & es & q1 & -> & Hds & Hes & Hq).
  pose proof (Zdigits2_bounds ms) as Hms. rewrite Hds in Hms.
  change (2 ^ (24 - 1)) with 8388608 in Hms. change (2 ^ 24) with 16777216 in Hms.
  change (2 ^ 48) with 281474976710656 in Hq.
  destruct Hes as [[-> <-] | [-> <-]]; [lia|].
  f_equal; lia.
Qed.

Lemma mul_pow2_scale ma ea k :
  Zdigits2 (Zpos ma) = 24 -> -23 <= ea <= 1 -> 0 <= k <= 24 ->
  F32.mul (S754_finite false ma ea) (S754_finite false 8388608 (-23 - k)) =
  S754_finite false ma (ea - k).
Proof.
  intros Hd He Hk. unfold F32.mul, SFmul. simpl xorb.
  replace (Zpos (ma * 8388608)) with (Zpos ma * 2 ^ 23)
    by (change (2 ^ 23) with 8388608; lia).
  rewrite binary_round_aux_shift;
    [| lia | rewrite Hd, fexp32 by lia; lia | unfold F32.emax, F32.prec; lia].
  f_equal. lia.
Qed.

(** When the maximum is a power of two the normalisation is exact: the
    colour of a count v is the number v / 2^k, and the maximum itself is
    sent to 1. *)
Theorem colorFromHeatmap_power_of_two (k v : Z) :
  0 <= k <= 24 -> 0 <= v <= 2 ^ k ->
  (SF2Q (colorFromHeatmap (F32.of_int v) (F32.of_int (2 ^ k)) (F32.of_int 1)) ==
   inject_Z v / inject_Z (2 ^ k))%Q /\
  (v = 2 ^ k ->
   colorFromHeatmap (F32.of_int v) (F32.of_int (2 ^ k)) (F32.of_int 1) = F32.of_int 1).
Proof.
  intros Hk Hv.
  assert (Hp : 0 < 2 ^ k) by (apply Z.pow_pos_nonneg; lia).
  assert (HM : 2 ^ k <= max_count).
  { unfold max_count. change 16777216 with (2 ^ 24). apply Z.pow_le_mono_r; lia. }
  rewrite colorFromHeatmap_count by lia.
  rewrite (of_int_pow2 k Hk), (scale_pow2 k Hk).
  split.
  - destruct (Z.eq_dec v 0) as [-> | Hv0].
    + change (F32.of_int 0) with (S754_zero false). simpl SF2Q.
      unfold Qdiv. now rewrite Qmult_0_l.
    + destruct (of_int_normal v ltac:(lia)) as (ma & Ha & _ & Hda & Hdv).
      pose proof (SF2Q_of_int v ltac:(lia)) as HQ.
      rewrite Ha in *. rewrite mul_pow2_scale by (auto; lia).
      rewrite SF2Q_finite_pos in *.
      replace (Zdigits2 v - 24 - k) with (Zdigits2 v - 24 + - k) by lia.
      rewrite Qpow2_add, Qmult_assoc, HQ, Qpower_opp, <- two_Qpower by lia.
      reflexivity.
  - intros ->. rewrite (of_int_pow2 k Hk), mul_pow2_scale by (auto; lia).
    replace (k - 23 - k) with (-23) by lia. reflexivity.
Qed.

Lemma colorFromHeatmap_power_of_two_witness :
  (SF2Q (colorFromHeatmap (F32.of_int 5) (F32.of_int (2 ^ 3)) (F32.of_int 1)) ==
   inject_Z 5 / inject_Z (2 ^ 3))%Q /\
  (5 = 2 ^ 3 ->
   colorFromHeatmap (F32.of_int 5) (F32.of_int (2 ^ 3)) (F32.of_int 1) = F32.of_int 1).
Proof.
  apply (colorFromHeatmap_power_of_two 3 5); simpl; lia.
Defined.

(** * The order of the colours *)

Lemma rne_mono P P' n : 0 < n -> 0 <= P <= P' -> rne P n <= rne P' n.
Proof.
  intros Hn HP.
  assert (H2 : 0 < 2 ^ n) by (apply Z.pow_pos_nonneg; lia).
  pose proof (Z.div_le_mono P P' (2 ^ n) H2 ltac:(lia)) as Hq.
  pose proof (Z.div_mod P (2 ^ n) ltac:(lia)) as E1.
  pose proof (Z.div_mod P' (2 ^ n) ltac:(lia)) as E2.
  pose proof (Z.mod_pos_bound P (2 ^ n) H2) as B1.
  pose proof (Z.mod_pos_bound P' (2 ^ n) H2) as B2.
  destruct (rne_spec P n Hn ltac:(lia)) as [(-> & R1 & V1) | (-> & R1 & V1)];
    destruct (rne_spec P' n Hn ltac:(lia)) as [(-> & R2 & V2) | (-> & R2 & V2)];
    try lia.
  destruct (Z.eq_dec (P / 2 ^ n) (P' / 2 ^ n)) as [Heq | Hne]; [|lia].
  exfalso. rewrite Heq in *.
  assert (Hr : P mod 2 ^ n <= P' mod 2 ^ n) by nia.
  assert (He : 2 * (P mod 2 ^ n) = 2 ^ n) by lia.
  assert (He' : 2 * (P' mod 2 ^ n) = 2 ^ n) by lia.
  rewrite (V1 He) in V2. specialize (V2 He'). discriminate.
Qed.

Lemma F32_leb_finite m1 e1 m2 e2 :
  e1 < e2 \/ (e1 = e2 /\ Zpos m1 <= Zpos m2) ->
  F32.leb (S754_finite false m1 e1) (S754_finite false m2 e2) = true.
Proof.
  intros H. unfold F32.leb, SFleb, SFcompare.
  destruct H as [H | [-> H]].
  - now replace (e1 ?= e2) with Lt by (symmetry; apply Z.compare_lt_iff; lia).
  - rewrite Z.compare_refl, Pos.compare_cont_spec. simpl.
    destruct (Pos.compare_spec m1 m2); auto. lia.
Qed.

Lemma pow2_lt_inv a b : 0 <= b -> 2 ^ a < 2 ^ b -> a < b.
Proof.
  intros Hb H. destruct (Z_lt_ge_dec a b); auto.
  assert (2 ^ b <= 2 ^ a) by (apply Z.pow_le_mono_r; lia). lia.
Qed.

(** Rounding to single precision keeps the order. *)
Lemma round_mono P e n P' e' n' :
  0 < n -> Zdigits2 (Zpos P) = 24 + n -> -125 <= 24 + n + e -> e + n + 1 <= 104 ->
  0 < n' -> Zdigits2 (Zpos P') = 24 + n' -> -125 <= 24 + n' + e' -> e' + n' + 1 <= 104 ->
  e <= e' -> Zpos P <= Zpos P' * 2 ^ (e' - e) ->
  F32.leb (binary_round_aux F32.prec F32.emax false (Zpos P) e loc_Exact)
          (binary_round_aux F32.prec F32.emax false (Zpos P') e' loc_Exact) = true.
Proof.
  intros Hn Hd Hlo Hhi Hn' Hd' Hlo' Hhi' He HP.
  rewrite (binary_round_aux_long false P e n), (binary_round_aux_long false P' e' n') by lia.
  pose proof (Zdigits2_bounds P) as B. rewrite Hd in B.
  pose proof (Zdigits2_bounds P') as B'. rewrite Hd' in B'.
  replace (24 + n - 1) with (23 + n) in B by lia.
  replace (24 + n' - 1) with (23 + n') in B' by lia.
  assert (Hk : 0 < 2 ^ (e' - e)) by (apply Z.pow_pos_nonneg; lia).
  assert (HE : e + n <= e' + n').
  { assert (Hlt : 2 ^ (23 + n) < 2 ^ (24 + n' + (e' - e))).
    { rewrite (Z.pow_add_r 2 (24 + n')) by lia. nia. }
    apply pow2_lt_inv in Hlt; lia. }
  assert (Hr : 2 ^ 23 <= rne (Zpos P) n <= 2 ^ 24).
  { assert (H2 : 0 < 2 ^ n) by (apply Z.pow_pos_nonneg; lia).
    rewrite !Z.pow_add_r in B by lia.
    assert (2 ^ 23 <= Zpos P / 2 ^ n < 2 ^ 24)
      by (split; [apply Z.div_le_lower_bound | apply Z.div_lt_upper_bound]; lia).
    destruct (rne_spec (Zpos P) n Hn ltac:(lia)) as [(-> & _) | (-> & _)]; lia. }
  assert (Hr' : 2 ^ 23 <= rne (Zpos P') n' <= 2 ^ 24).
  { assert (H2 : 0 < 2 ^ n') by (apply Z.pow_pos_nonneg; lia).
    rewrite !Z.pow_add_r in B' by lia.
    assert (2 ^ 23 <= Zpos P' / 2 ^ n' < 2 ^ 24)
      by (split; [apply Z.div_le_lower_bound | apply Z.div_lt_upper_bound]; lia).
    destruct (rne_spec (Zpos P') n' Hn' ltac:(lia)) as [(-> & _) | (-> & _)]; lia. }
  assert (Hsame : e + n = e' + n' -> rne (Zpos P) n <= rne (Zpos P') n').
  { intros Heq. rewrite <- (rne_scale (Zpos P') n' (e' - e)) by lia.
    replace (n' + (e' - e)) with n by lia. apply rne_mono; lia. }
  change (2 ^ 23) with 8388608 in *. change (2 ^ 24) with 16777216 in *.
  destruct (Z.ltb_spec (rne (Zpos P) n) 16777216) as [H1 | H1];
    destruct (Z.ltb_spec (rne (Zpos P') n') 16777216) as [H1' | H1'];
    apply F32_leb_finite.
  - destruct (Z.eq_dec (e + n) (e' + n')) as [Heq | Hne]; [right | left; lia].
    split; auto. specialize (Hsame Heq). rewrite !Z2Pos.id by lia. exact Hsame.
  - left. lia.
  - destruct (Z.eq_dec (e + n) (e' + n')) as [Heq | Hne].
    + specialize (Hsame Heq). lia.
    + destruct (Z.eq_dec (e + n + 1) (e' + n')) as [Heq1 | Hne1]; [right | left; lia].
      split; auto. rewrite Z2Pos.id by lia. lia.
  - destruct (Z.eq_dec (e + n) (e' + n')) as [Heq | Hne]; [right | left]; lia.
Qed.

(** The scale 1/M, once for all the cells. *)
Lemma scale_parts M :
  0 < M <= max_count ->
  exists ms j,
    F32.div F32.one (F32.of_int M) = S754_finite false ms (-23 - Zdigits2 M + j) /\
    Zdigits2 (Zpos ms) = 24 /\ (j = 0 \/ j = 1).
Proof.
  intros HM.
  destruct (of_int_normal M HM) as (mb & Hb & Hvb & Hdb & HdM).
  destruct (F32_div_one mb (Zdigits2 M - 24) Hdb ltac:(lia))
    as (ms & es & q1 & Hs & Hds & Hes & Hq).
  rewrite Hb, Hs.
  destruct Hes as [[-> _] | [-> _]]; [exists ms, 0 | exists ms, 1];
    (split; [f_equal; lia | auto]).
Qed.

(** A cell that holds more is never given a darker colour. *)
Theorem colorFromHeatmap_monotone (v v' M : Z) :
  0 <= v <= v' -> v' <= M -> 0 < M <= max_count ->
  F32.leb (colorFromHeatmap (F32.of_int v) (F32.of_int M) (F32.of_int 1))
          (colorFromHeatmap (F32.of_int v') (F32.of_int M) (F32.of_int 1)) = true.
Proof.
  intros Hv Hv' HM. rewrite !colorFromHeatmap_count by lia.
  destruct (Z.eq_dec v 0) as [-> | Hv0].
  { assert (H0 : F32.mul (F32.of_int 0) (F32.div F32.one (F32.of_int M)) = F32.zero).
    { destruct (scale_parts M HM) as (ms & j & -> & _). reflexivity. }
    rewrite H0. apply normalized_nonneg; lia. }
  destruct (scale_parts M HM) as (ms & j & -> & Hds & Hj).
  destruct (of_int_normal M HM) as (_ & _ & _ & _ & HdM).
  destruct (of_int_normal v ltac:(lia)) as (ma & -> & Hva & Hda & Hdv).
  destruct (of_int_normal v' ltac:(lia)) as (ma' & -> & Hva' & Hda' & Hdv').
  pose proof (Zdigits2_mono v v' ltac:(lia)) as Hmono.
  unfold F32.mul, SFmul. simpl xorb.
  assert (Hle : Zpos ma <= Zpos ma' * 2 ^ (Zdigits2 v' - Zdigits2 v)).
  { assert (Hp : 0 < 2 ^ (Zdigits2 v - 1)) by (apply Z.pow_pos_nonneg; lia).
    apply (Z.mul_le_mono_pos_r _ _ (2 ^ (Zdigits2 v - 1))); [exact Hp|].
    rewrite <- Z.mul_assoc, <- Z.pow_add_r by lia.
    replace (Zdigits2 v' - Zdigits2 v + (Zdigits2 v - 1)) with (Zdigits2 v' - 1) by lia.
    change (2 ^ 23) with 8388608 in *. lia. }
  assert (Hd : exists d, (d = 47 \/ d = 48) /\ Zdigits2 (Zpos (ma * ms)) = d)
    by (destruct (Zdigits2_product ma ms Hda Hds); eauto).
  assert (Hd' : exists d, (d = 47 \/ d = 48) /\ Zdigits2 (Zpos (ma' * ms)) = d)
    by (destruct (Zdigits2_product ma' ms Hda' Hds); eauto).
  destruct Hd as (d & Hd & HdP), Hd' as (d' & Hd' & HdP').
  apply (round_mono _ _ (d - 24) _ _ (d' - 24)); try lia.
  replace (Zdigits2 v' - 24 + (-23 - Zdigits2 M + j) -
           (Zdigits2 v - 24 + (-23 - Zdigits2 M + j)))
    with (Zdigits2 v' - Zdigits2 v) by lia.
  rewrite !Pos2Z.inj_mul. nia.
Qed.

Lemma colorFromHeatmap_monotone_witness :
  F32.leb (colorFromHeatmap (F32.of_int 3) (F32.of_int 7) (F32.of_int 1))
          (colorFromHeatmap (F32.of_int 5) (F32.of_int 7) (F32.of_int 1)) = true.
Proof.
  apply (colorFromHeatmap_monotone 3 5 7); unfold max_count; lia.
Defined.

(** * The vertex buffer of [main] *)

Lemma scale_cell_vertex st row col :
  generating st -> 0 <= row < IMAGE_HEIGHT -> 0 <= col < IMAGE_WIDTH ->
  scale_cell st row col = Ok (vertex st row col).
Proof.
  intros Hgen Hrow Hcol.
  assert (Hget : forall ch, exists v, heatmap_get (channel ch st) row col = Ok v).
  { intros ch. destruct (generating_full_size st Hgen ch (Z.to_nat row) (Z.to_nat col))
      as [v Hv]; [unfold IMAGE_HEIGHT in *; lia | unfold IMAGE_WIDTH in *; lia |].
    exists v. apply heatmap_get_Ok. repeat split; auto; lia. }
  destruct (Hget Red) as (r & Hr), (Hget Green) as (g & Hg), (Hget Blue) as (b & Hb).
  destruct st as [[[red green] blue] M]. cbn [channel] in *.
  unfold scale_cell, vertex, cell_value. rewrite Hr, Hb, Hg. reflexivity.
Qed.

Lemma length_flat_map_const {A B : Type} (f : A -> list B) (l : list A) n :
  (forall x, In x l -> length (f x) = n) -> length (flat_map f l) = (length l * n)%nat.
Proof.
  induction l as [|a l IH]; intros H; [reflexivity|].
  simpl. rewrite length_app, (H a) by (left; reflexivity).
  rewrite IH by (intros x Hx; apply H; right; exact Hx). reflexivity.
Qed.

(** Once the three heatmaps are generated the normalisation loop cannot
    fault: it reads allocated cells only, and pushes six floats for each
    of the 200 x 200 pixels, row by row: 240000 floats. *)
Theorem main_vertices_layout redSamples blueSamples greenSamples st :
  main_generate redSamples blueSamples greenSamples = Ok st ->
  main_vertices redSamples blueSamples greenSamples =
    Ok (flat_map (fun row => flat_map (vertex st row) (seqZ 0 IMAGE_WIDTH))
          (seqZ 0 IMAGE_HEIGHT)) /\
  Z.of_nat (length (flat_map (fun row => flat_map (vertex st row) (seqZ 0 IMAGE_WIDTH))
                      (seqZ 0 IMAGE_HEIGHT))) = 6 * IMAGE_WIDTH * IMAGE_HEIGHT.
Proof.
  intros Hgen. split.
  - unfold main_vertices. rewrite Hgen. simpl bind.
    apply main_generate_generating in Hgen. unfold scale_heatmaps.
    apply collect_map_Ok. intros row Hrow. apply In_seqZ in Hrow.
    apply collect_map_Ok. intros col Hcol. apply In_seqZ in Hcol.
    apply scale_cell_vertex; auto; lia.
  - rewrite (length_flat_map_const _ _ (Z.to_nat IMAGE_WIDTH * 6)).
    + rewrite length_seqZ, !Nat2Z.inj_mul, !Z2Nat.id by (unfold IMAGE_WIDTH, IMAGE_HEIGHT; lia).
      change (Z.of_nat 6) with 6. ring.
    + intros row _. rewrite (length_flat_map_const _ _ 6).
      * now rewrite length_seqZ.
      * intros col _. now destruct st as [[[red green] blue] M].
Qed.

Lemma main_vertices_layout_witness :
  main_vertices [] [] [] =
    Ok (flat_map (fun row => flat_map (vertex start_channels row) (seqZ 0 IMAGE_WIDTH))
          (seqZ 0 IMAGE_HEIGHT)) /\
  Z.of_nat (length (flat_map (fun row => flat_map (vertex start_channels row)
                                         (seqZ 0 IMAGE_WIDTH))
                      (seqZ 0 IMAGE_HEIGHT))) = 6 * IMAGE_WIDTH * IMAGE_HEIGHT.
Proof.
  apply (main_vertices_layout [] [] [] start_channels). reflexivity.
Defined.

Lemma cell_value_generating st ch row col :
  generating st -> 0 <= row < IMAGE_HEIGHT -> 0 <= col < IMAGE_WIDTH ->
  cell (channel ch st) (Z.to_nat row) (Z.to_nat col) =
  Some (cell_value (channel ch st) row col).
Proof.
  intros Hgen Hrow Hcol.
  destruct (generating_full_size st Hgen ch (Z.to_nat row) (Z.to_nat col))
    as [v Hv]; [unfold IMAGE_HEIGHT in *; lia | unfold IMAGE_WIDTH in *; lia |].
  unfold cell_value.
  rewrite (proj2 (heatmap_get_Ok _ row col v)) by (repeat split; auto; lia).
  exact Hv.
Qed.

(** What the renderer is given for each pixel: a position inside the
    clip square [-1, 1] x [-1, 1] with z = 0, and, as soon as one point
    was counted, three colour components inside [0, 1]. *)
Theorem main_vertices_in_range redSamples blueSamples greenSamples st row col :
  main_generate redSamples blueSamples greenSamples = Ok st ->
  0 <= row < IMAGE_HEIGHT -> 0 <= col < IMAGE_WIDTH ->
  exists x y r g b,
    vertex st row col = [x; y; F32.of_int 0; r; g; b] /\
    in_clip x = true /\ in_clip y = true /\
    (snd st <> F32.of_int 0 ->
     in_unit r = true /\ in_unit g = true /\ in_unit b = true).
Proof.
  intros Hgen Hrow Hcol. apply main_generate_generating in Hgen.
  assert (Hx : forallb (fun c => in_clip (F32.opp (mapX (F32.of_int c))))
                 (seqZ 0 IMAGE_WIDTH) = true) by (vm_compute; reflexivity).
  assert (Hy : forallb (fun r => in_clip (F32.opp (mapY (F32.of_int r))))
                 (seqZ 0 IMAGE_HEIGHT) = true) by (vm_compute; reflexivity).
  apply (forallb_seqZ _ _ _ col) in Hx; [|lia].
  apply (forallb_seqZ _ _ _ row) in Hy; [|lia].
  pose proof (cell_value_generating st Red row col Hgen Hrow Hcol) as Hr.
  pose proof (cell_value_generating st Green row col Hgen Hrow Hcol) as Hg.
  pose proof (cell_value_generating st Blue row col Hgen Hrow Hcol) as Hb.
  pose proof (fun ch v H Hne => generating_normalized st ch (Z.to_nat row) (Z.to_nat col) v
                                  Hgen Hne H) as Hnorm.
  destruct st as [[[red green] blue] M]. cbn [channel snd vertex] in *.
  do 5 eexists. split; [reflexivity|]. split; [exact Hx|]. split; [exact Hy|].
  intros Hne. unfold in_unit.
  destruct (Hnorm Red _ Hr Hne) as [-> ->].
  destruct (Hnorm Green _ Hg Hne) as [-> ->].
  destruct (Hnorm Blue _ Hb Hne) as [-> ->].
  auto.
Qed.

Lemma main_vertices_in_range_witness :
  exists x y r g b,
    vertex (heatmap_set (AllocHeatmap IMAGE_WIDTH IMAGE_HEIGHT) 150 150 (F32.of_int 1),
            AllocHeatmap IMAGE_WIDTH IMAGE_HEIGHT, AllocHeatmap IMAGE_WIDTH IMAGE_HEIGHT,
            F32.of_int 1) 150 150
      = [x; y; F32.of_int 0; r; g; b] /\
    in_clip x = true /\ in_clip y = true /\
    (snd (heatmap_set (AllocHeatmap IMAGE_WIDTH IMAGE_HEIGHT) 150 150 (F32.of_int 1),
          AllocHeatmap IMAGE_WIDTH IMAGE_HEIGHT, AllocHeatmap IMAGE_WIDTH IMAGE_HEIGHT,
          F32.of_int 1) <> F32.of_int 0 ->
     in_unit r = true /\ in_unit g = true /\ in_unit b = true).
Proof.
  apply (main_vertices_in_range [mkComplex 1 1] [] []).
  - vm_compute. reflexivity.
  - unfold IMAGE_HEIGHT. lia.
  - unfold IMAGE_WIDTH. lia.
Defined.

(** [mapX] and [mapY] send the pixel coordinates 0 .. 200 to [-1, 1] in
    strictly increasing order, from exactly -1 at 0 to exactly 1 at 200:
    two different columns (or rows) never share a position. *)
Theorem mapX_mapY_increasing (a b : Z) :
  0 <= a -> a < b -> b <= IMAGE_WIDTH ->
  F32.ltb (mapX (F32.of_int a)) (mapX (F32.of_int b)) = true /\
  F32.ltb (mapY (F32.of_int a)) (mapY (F32.of_int b)) = true /\
  mapX (F32.of_int 0) = F32.of_int (-1) /\ mapX (F32.of_int IMAGE_WIDTH) = F32.of_int 1 /\
  mapY (F32.of_int 0) = F32.of_int (-1) /\ mapY (F32.of_int IMAGE_HEIGHT) = F32.of_int 1.
Proof.
  intros Ha Hab Hb.
  assert (H : forallb (fun a => forallb (fun b =>
                implb (a <? b)
                  (F32.ltb (mapX (F32.of_int a)) (mapX (F32.of_int b)) &&
                   F32.ltb (mapY (F32.of_int a)) (mapY (F32.of_int b))))
                (seqZ 0 (IMAGE_WIDTH + 1))) (seqZ 0 (IMAGE_WIDTH + 1)) = true)
    by (vm_compute; reflexivity).
  apply (forallb_seqZ _ _ _ a) in H; [|lia]. cbv beta in H.
  apply (forallb_seqZ _ _ _ b) in H; [|lia]. cbv beta in H.
  replace (a <? b) with true in H by (symmetry; apply Z.ltb_lt; lia).
  apply andb_true_iff in H. destruct H as [Hx Hy].
  split; [exact Hx|]. split; [exact Hy|]. repeat split; reflexivity.
Qed.

Lemma mapX_mapY_increasing_witness :
  F32.ltb (mapX (F32.of_int 0)) (mapX (F32.of_int 1)) = true /\
  F32.ltb (mapY (F32.of_int 0)) (mapY (F32.of_int 1)) = true /\
  mapX (F32.of_int 0) = F32.of_int (-1) /\ mapX (F32.of_int IMAGE_WIDTH) = F32.of_int 1 /\
  mapY (F32.of_int 0) = F32.of_int (-1) /\ mapY (F32.of_int IMAGE_HEIGHT) = F32.of_int 1.
Proof.
  apply (mapX_mapY_increasing 0 1); unfold IMAGE_WIDTH; lia.
Defined.

(** * More on the coordinate mapper *)

Section Degenerate.
Variables prec emax : Z.

Lemma SFsub_self x :
  SFis_finite x = true -> SFsub prec emax x x = S754_zero false.
Proof.
  destruct x as [s|s| |s m e]; try discriminate; intros _; simpl.
  - now destruct s.
  - now rewrite Z.sub_diag.
Qed.

Lemma SFdiv_zero_r x :
  match SFdiv prec emax x (S754_zero false) with
  | S754_nan | S754_infinity _ => True
  | _ => False
  end.
Proof. now destruct x as [s|s| |s m e]. Qed.

Lemma SFmul_not_finite x q :
  match q with S754_nan | S754_infinity _ => True | _ => False end ->
  SFis_finite (SFmul prec emax x q) = false.
Proof.
  destruct q as [s|s| |s m e]; try contradiction; intros _;
    now destruct x as [sx|sx| |sx mx ex].
Qed.
End Degenerate.

(** With a degenerate rectangle (minR = maxR) the mapper divides by
    zero: for every value the product is infinite or NaN, and the cast to
    [int] is undefined. *)
Theorem rowFromReal_degenerate (value m : double) (imageHeight : Z) :
  SFis_finite (Prim2SF m) = true ->
  rowFromReal value m m imageHeight = Err BadIntCast /\
  colFromImaginary value m m imageHeight = Err BadIntCast.
Proof.
  intros Hm.
  assert (H : rowFromReal value m m imageHeight = Err BadIntCast).
  { unfold rowFromReal, int_of_double.
    rewrite mul_spec, div_spec, (sub_spec m m).
    unfold SF64sub. rewrite SFsub_self by exact Hm.
    pose proof (SFdiv_zero_r prec emax (Prim2SF (double_of_int imageHeight))) as Hq.
    pose proof (SFmul_not_finite prec emax (Prim2SF (value - m)) _ Hq) as Hp.
    unfold SF64mul, SF64div.
    destruct (SFmul _ _ _ _) as [s|s| |s mm e]; try discriminate; reflexivity. }
  split; exact H.
Qed.

Lemma rowFromReal_degenerate_witness :
  rowFromReal 1 1 1 IMAGE_HEIGHT = Err BadIntCast /\
  colFromImaginary 1 1 1 IMAGE_HEIGHT = Err BadIntCast.
Proof.
  apply (rowFromReal_degenerate 1 1 IMAGE_HEIGHT). reflexivity.
Defined.

(** * The fractal tree *)

Section TreeProperties.
Variables cos sin : double -> double.

Lemma tree_calls_app fuel : forall vertices x1 y1 x2 y2 angle n,
  Tree.tree_calls cos sin fuel vertices x1 y1 x2 y2 angle n =
  vertices ++ Tree.tree_calls cos sin fuel [] x1 y1 x2 y2 angle n.
Proof.
  induction fuel as [|fuel IH]; intros vs x1 y1 x2 y2 a n; cbn [Tree.tree_calls];
    unfold Tree.push_back; cbn [app].
  - destruct (n <=? 0); now rewrite <- !app_assoc.
  - destruct (n <=? 0); [now rewrite <- !app_assoc|].
    rewrite (IH (Tree.tree_calls _ _ _ _ _ _ _ _ _ _)).
    rewrite (IH ((((vs ++ _) ++ _) ++ _) ++ _)).
    rewrite (IH (Tree.tree_calls _ _ _ [_; _; _; _] _ _ _ _ _ _)).
    rewrite (IH [_; _; _; _]).
    now rewrite <- !app_assoc.
Qed.

Lemma tree_calls_length fuel : forall vertices x1 y1 x2 y2 angle n,
  (Z.to_nat n <= fuel)%nat ->
  Z.of_nat (length (Tree.tree_calls cos sin fuel vertices x1 y1 x2 y2 angle n)) =
  Z.of_nat (length vertices) + 4 * (2 ^ (Z.max n 0 + 1) - 1).
Proof.
  induction fuel as [|fuel IH]; intros vs x1 y1 x2 y2 a n Hn; cbn [Tree.tree_calls];
    unfold Tree.push_back.
  - assert (n <= 0) by lia.
    replace (n <=? 0) with true by (symmetry; apply Z.leb_le; lia).
    rewrite !length_app. simpl. rewrite Z.max_r by lia. simpl. lia.
  - destruct (Z.leb_spec n 0) as [Hle | Hgt].
    + rewrite !length_app. simpl. rewrite Z.max_r by lia. simpl. lia.
    + rewrite !IH by lia. rewrite !length_app. simpl length.
      rewrite (Z.max_l n 0), (Z.max_l (n - 1) 0) by lia.
      replace (n + 1) with (Z.succ (n - 1 + 1)) by lia.
      rewrite Z.pow_succ_r by lia. lia.
Qed.

(** More fuel than the depth changes nothing. *)
Lemma tree_calls_fuel fuel : forall fuel' vertices x1 y1 x2 y2 angle n,
  (Z.to_nat n <= fuel)%nat -> (Z.to_nat n <= fuel')%nat ->
  Tree.tree_calls cos sin fuel vertices x1 y1 x2 y2 angle n =
  Tree.tree_calls cos sin fuel' vertices x1 y1 x2 y2 angle n.
Proof.
  induction fuel as [|fuel IH]; intros [|fuel'] vs x1 y1 x2 y2 a n H H';
    cbn [Tree.tree_calls];
    destruct (Z.leb_spec n 0) as [Hle | Hgt]; try reflexivity; try lia.
  rewrite !(IH fuel') by lia. reflexivity.
Qed.

(** [tree] with depth n appends one segment (four floats) for each node
    of the complete binary tree of depth n: 4 * (2^(n+1) - 1) floats, and
    a single segment when n <= 0.  In [main] that makes
    [points] = 8188 for the depth 10, whatever [cos] and [sin] return. *)
Theorem tree_length (vertices : list F32.t) (x1 y1 x2 y2 angle : F32.t) (n : Z) :
  Z.of_nat (length (Tree.tree cos sin vertices x1 y1 x2 y2 angle n)) =
    Z.of_nat (length vertices) + 4 * (2 ^ (Z.max n 0 + 1) - 1) /\
  Tree.points cos sin = 8188.
Proof.
  split.
  - apply tree_calls_length. lia.
  - unfold Tree.points, Tree.main_vertices, Tree.tree.
    rewrite tree_calls_length by lia. reflexivity.
Qed.

(** [tree] only appends: what was in [vertices] stays in front, and what
    is appended does not depend on it.  For n > 0 the appended floats are
    the segment itself, then the whole left subtree, then the whole right
    subtree, both starting from the end point (x2, y2) of the segment. *)
Theorem tree_preorder (vertices : list F32.t) (x1 y1 x2 y2 angle : F32.t) (n : Z) :
  Tree.tree cos sin vertices x1 y1 x2 y2 angle n =
    vertices ++ Tree.tree cos sin [] x1 y1 x2 y2 angle n /\
  (n <= 0 ->
   Tree.tree cos sin [] x1 y1 x2 y2 angle n =
     [Tree.mapX x1; Tree.mapY y1; Tree.mapX x2; Tree.mapY y2]) /\
  (0 < n ->
   exists xl yl xr yr,
     Tree.tree cos sin [] x1 y1 x2 y2 angle n =
       [Tree.mapX x1; Tree.mapY y1; Tree.mapX x2; Tree.mapY y2]
       ++ Tree.tree cos sin [] x2 y2 xl yl angle (n - 1)
       ++ Tree.tree cos sin [] x2 y2 xr yr angle (n - 1)).
Proof.
  split; [apply tree_calls_app|]. split.
  - intros Hn. unfold Tree.tree.
    replace (Z.to_nat n) with 0%nat by lia. cbn [Tree.tree_calls].
    now replace (n <=? 0) with true by (symmetry; apply Z.leb_le; lia).
  - intros Hn. unfold Tree.tree.
    replace (Z.to_nat n) with (S (Z.to_nat (n - 1))) by lia.
    cbn [Tree.tree_calls]. unfold Tree.push_back. cbn [app].
    replace (n <=? 0) with false by (symmetry; apply Z.leb_gt; lia).
    do 4 eexists.
    rewrite tree_calls_app.
    rewrite (tree_calls_app _ [_; _; _; _]).
    rewrite <- app_assoc. reflexivity.
Qed.
End TreeProperties.

Lemma segments_app l1 : forall k l2,
  length l1 = (4 * k)%nat -> segments (l1 ++ l2) = segments l1 ++ segments l2.
Proof.
  intros k. revert l1. induction k as [|k IH]; intros l1 l2 Hl.
  - destruct l1; [reflexivity | discriminate].
  - destruct l1 as [|a [|b [|c [|d rest]]]]; try (simpl in Hl; lia).
    simpl. f_equal. apply IH. simpl in Hl. lia.
Qed.

Lemma connected_node s0 L1 L2 :
  connected L1 -> connected L2 ->
  (forall s, L1 !! 0%nat = Some s -> seg_start s = seg_end s0) ->
  (forall s, L2 !! 0%nat = Some s -> seg_start s = seg_end s0) ->
  connected (s0 :: L1 ++ L2).
Proof.
  intros C1 C2 H1 H2 i s Hs. rewrite lookup_cons in Hs.
  destruct (decide (i < length L1)%nat) as [Hi | Hi].
  - rewrite lookup_app_l in Hs by exact Hi.
    destruct i as [|i].
    + exists 0%nat, s0. split; [lia|]. split; [reflexivity|]. symmetry. now apply H1.
    + destruct (C1 i s Hs) as (j & s' & Hj & Hs' & He).
      exists (S j), s'. split; [lia|]. split; [|exact He].
      rewrite lookup_cons, lookup_app_l; [exact Hs'|].
      apply lookup_lt_Some in Hs'. exact Hs'.
  - rewrite lookup_app_r in Hs by lia.
    destruct (i - length L1)%nat as [|k] eqn:Hk.
    + exists 0%nat, s0. split; [lia|]. split; [reflexivity|]. symmetry. now apply H2.
    + destruct (C2 k s Hs) as (j & s' & Hj & Hs' & He).
      exists (S (length L1 + j)), s'. split; [lia|]. split; [|exact He].
      rewrite lookup_cons, lookup_app_r by lia.
      replace (length L1 + j - length L1)%nat with j by lia. exact Hs'.
Qed.

Section TreeConnected.
Variables cos sin : double -> double.

Lemma tree_calls_multiple fuel x1 y1 x2 y2 angle n :
  (Z.to_nat n <= fuel)%nat ->
  exists k, length (Tree.tree_calls cos sin fuel [] x1 y1 x2 y2 angle n) = (4 * k)%nat.
Proof.
  intros Hn. exists (Z.to_nat (2 ^ (Z.max n 0 + 1) - 1)).
  pose proof (tree_calls_length cos sin fuel [] x1 y1 x2 y2 angle n Hn) as H.
  assert (0 < 2 ^ (Z.max n 0 + 1)) by (apply Z.pow_pos_nonneg; lia).
  simpl length in H. lia.
Qed.

Lemma tree_calls_connected fuel : forall x1 y1 x2 y2 angle n,
  (Z.to_nat n <= fuel)%nat ->
  segments (Tree.tree_calls cos sin fuel [] x1 y1 x2 y2 angle n) !! 0%nat =
    Some (Tree.mapX x1, Tree.mapY y1, Tree.mapX x2, Tree.mapY y2) /\
  connected (segments (Tree.tree_calls cos sin fuel [] x1 y1 x2 y2 angle n)).
Proof.
  induction fuel as [|fuel IH]; intros x1 y1 x2 y2 a n Hn; cbn [Tree.tree_calls];
    unfold Tree.push_back; cbn [app].
  - replace (n <=? 0) with true by (symmetry; apply Z.leb_le; lia).
    split; [reflexivity|]. intros i s Hs. destruct i; discriminate.
  - destruct (Z.leb_spec n 0) as [Hle | Hgt].
    + split; [reflexivity|]. intros i s Hs. destruct i; discriminate.
    + rewrite tree_calls_app.
      rewrite (tree_calls_app _ _ _ [_; _; _; _]).
      rewrite <- app_assoc. cbn [app segments].
      match goal with
      | |- context [segments (Tree.tree_calls cos sin fuel [] ?a1 ?b1 ?c1 ?d1 ?e1 ?n1 ++
                              Tree.tree_calls cos sin fuel [] ?a2 ?b2 ?c2 ?d2 ?e2 ?n2)] =>
          destruct (tree_calls_multiple fuel a1 b1 c1 d1 e1 n1 ltac:(lia)) as [k Hk];
          rewrite (segments_app _ k _ Hk);
          destruct (IH a1 b1 c1 d1 e1 n1 ltac:(lia)) as [Hh1 Hc1];
          destruct (IH a2 b2 c2 d2 e2 n2 ltac:(lia)) as [Hh2 Hc2]
      end.
      split; [reflexivity|].
      apply connected_node; auto.
      * intros s Hs. rewrite Hh1 in Hs. now inversion Hs.
      * intros s Hs. rewrite Hh2 in Hs. now inversion Hs.
Qed.

(** The drawing is connected: the first segment of [tree] is the one it
    is given, and every other segment starts exactly at the end point of
    a segment appended before it. *)
Theorem tree_connected (x1 y1 x2 y2 angle : F32.t) (n : Z) :
  segments (Tree.tree cos sin [] x1 y1 x2 y2 angle n) !! 0%nat =
    Some (Tree.mapX x1, Tree.mapY y1, Tree.mapX x2, Tree.mapY y2) /\
  connected (segments (Tree.tree cos sin [] x1 y1 x2 y2 angle n)).
Proof. apply tree_calls_connected. lia. Qed.
End TreeConnected.

(** * The symmetry of the iteration *)

Lemma SFsame_sym a b : SFsame a b -> SFsame b a.
Proof. intros [-> | (s & s' & -> & ->)]; [now left | right; eauto]. Qed.

Lemma SFsame_trans a b c : SFsame a b -> SFsame b c -> SFsame a c.
Proof.
  intros [-> | (s & s' & -> & ->)] [<- | (t & t' & Ht & ->)]; try (now left).
  - right; eauto.
  - right; eauto.
  - right; eauto.
Qed.

Lemma SFopp_same a b : SFsame a b -> SFsame (SFopp a) (SFopp b).
Proof. intros [-> | (s & s' & -> & ->)]; [now left | right; simpl; eauto]. Qed.

Section Opposite.
Variables prec emax : Z.

Lemma binary_round_aux_opp s m e l :
  binary_round_aux prec emax (negb s) m e l = SFopp (binary_round_aux prec emax s m e l).
Proof.
  unfold binary_round_aux.
  destruct (shr_fexp prec emax m e l) as [mrs e'].
  destruct (shr_fexp prec emax _ e' loc_Exact) as [mrs' e''].
  destruct (shr_m mrs'); auto. now destruct (e'' <=? emax - prec).
Qed.

Lemma binary_round_opp s m e :
  binary_round prec emax (negb s) m e = SFopp (binary_round prec emax s m e).
Proof.
  unfold binary_round. destruct (shl_align _ _ _). apply binary_round_aux_opp.
Qed.

Lemma SFmul_opp_r x y : SFmul prec emax x (SFopp y) = SFopp (SFmul prec emax x y).
Proof.
  destruct x as [sx|sx| |sx mx ex], y as [sy|sy| |sy my ey]; simpl; auto;
    try (destruct sx, sy; reflexivity).
  destruct sx, sy; simpl;
    first [apply (binary_round_aux_opp false) | apply (binary_round_aux_opp true)].
Qed.

Lemma SFmul_opp_l x y : SFmul prec emax (SFopp x) y = SFopp (SFmul prec emax x y).
Proof. now rewrite SFmul_comm, SFmul_opp_r, SFmul_comm. Qed.

Lemma SFmul_opp_opp x y : SFmul prec emax (SFopp x) (SFopp y) = SFmul prec emax x y.
Proof.
  rewrite SFmul_opp_l, SFmul_opp_r.
  generalize (SFmul prec emax x y). intros [s|s| |s m e]; simpl; now rewrite ?negb_involutive.
Qed.

Lemma binary_normalize_opp m e :
  SFsame (binary_normalize prec emax (- m) e false)
         (SFopp (binary_normalize prec emax m e false)).
Proof.
  destruct m as [|p|p]; simpl.
  - right. eauto.
  - left. apply (binary_round_opp false).
  - left. change false with (negb true). apply binary_round_opp.
Qed.

Lemma SFadd_opp x y :
  SFsame (SFadd prec emax (SFopp x) (SFopp y)) (SFopp (SFadd prec emax x y)).
Proof.
  destruct x as [sx|sx| |sx mx ex], y as [sy|sy| |sy my ey]; simpl;
    try (now left);
    try (destruct sx, sy; simpl;
         first [now left | right; do 2 eexists; split; reflexivity]).
  assert (H : forall s X, cond_Zopp (negb s) X = - cond_Zopp s X)
    by (intros [] X; simpl; lia).
  rewrite !H, <- Z.opp_add_distr. apply binary_normalize_opp.
Qed.
End Opposite.

Lemma Csame_trans a b c : Csame a b -> Csame b c -> Csame a c.
Proof.
  unfold Csame. rewrite !same_double_spec. intros [H1 H2] [H3 H4].
  split; eapply SFsame_trans; eauto.
Qed.

Lemma Csame_refl a : Csame a a.
Proof. split; apply same_double_refl. Qed.

(** One step of the iteration on the mirror image. *)
Lemma step_conj c z : Csame (step (Cconj c) (Cconj z)) (Cconj (step c z)).
Proof.
  unfold step, Cmul, Cadd, Cconj, Csame. cbn [_r _i].
  rewrite !same_double_spec. split.
  - left. f_equal. f_equal. f_equal. apply Prim2SF_inj.
    rewrite !mul_spec, !opp_spec. apply SFmul_opp_opp.
  - rewrite !opp_spec, !add_spec, !mul_spec, !opp_spec.
    unfold SF64add, SF64mul. rewrite SFmul_opp_r, SFmul_opp_l.
    eapply SFsame_trans; [|apply SFadd_opp].
    apply SFadd_same; [apply SFadd_opp | apply SFsame_refl].
Qed.

Lemma orbit_conj c j : Csame (orbit (Cconj c) j) (Cconj (orbit c j)).
Proof.
  induction j as [|j IH].
  - split; [left; reflexivity | right; split; reflexivity].
  - change (orbit (Cconj c) (S j)) with (step (Cconj c) (orbit (Cconj c) j)).
    change (orbit c (S j)) with (step c (orbit c j)).
    eapply Csame_trans; [apply step_same, IH | apply step_conj].
Qed.

Lemma sqmagnitude_conj z : sqmagnitude (Cconj z) = sqmagnitude z.
Proof.
  unfold sqmagnitude, Cconj. cbn [_r _i]. f_equal.
  apply Prim2SF_inj. rewrite !mul_spec, !opp_spec. apply SFmul_opp_opp.
Qed.

Lemma guard_conj c j :
  (sqmagnitude (orbit (Cconj c) j) <=? 2)%float = (sqmagnitude (orbit c j) <=? 2)%float.
Proof.
  rewrite (same_double_leb _ _ 2 (sqmagnitude_same _ _ (orbit_conj c j))).
  now rewrite sqmagnitude_conj.
Qed.

(** The sampler is symmetric in the real axis: the trajectory of the
    mirror image of c is, point by point, the mirror image of the
    trajectory of c (up to the sign of a zero coordinate), and it is
    empty when that of c is. *)
Theorem buddhabrotPoints_conj (c : Complex) (B : Z) (l : list Complex) :
  buddhabrotPoints c B = Ok l ->
  exists l', buddhabrotPoints (Cconj c) B = Ok l' /\ Forall2 Csame l' (map Cconj l).
Proof.
  intros H. destruct l as [|z l].
  - exists []. split; [|constructor].
    assert (HB : 0 <= B).
    { unfold buddhabrotPoints in H. destruct (Z.ltb_spec B 0); [discriminate | lia]. }
    pose proof (buddhabrotPoints_trajectory B (Cconj c) HB) as Hc.
    destruct (trajectory B (Cconj c)) as [|z' l'] eqn:Ht; [exact Hc|]. exfalso.
    apply buddhabrotPoints_inv in Hc; [|discriminate].
    destruct Hc as (k & Hk & HkB & _ & Hbefore & Hlast).
    rewrite (buddhabrotPoints_escaping c B k) in H; auto.
    + destruct k; [lia | discriminate H].
    + intros j Hj. rewrite <- guard_conj. now apply Hbefore.
    + now rewrite <- guard_conj.
  - apply buddhabrotPoints_inv in H; [|discriminate].
    destruct H as (k & Hk & HkB & Hl & Hbefore & Hlast).
    exists (map (orbit (Cconj c)) (seq 1 k)). split.
    + apply buddhabrotPoints_escaping; auto.
      * intros j Hj. rewrite guard_conj. now apply Hbefore.
      * now rewrite guard_conj.
    + rewrite Hl, map_map. clear. generalize 1%nat.
      induction k as [|k IH]; intros a; simpl; constructor; auto.
      apply orbit_conj.
Qed.

Lemma buddhabrotPoints_conj_witness :
  exists l', buddhabrotPoints (Cconj (mkComplex 1 1)) RED_ITERS = Ok l' /\
             Forall2 Csame l' (map Cconj [mkComplex 1 1; mkComplex 1 3]).
Proof.
  apply (buddhabrotPoints_conj (mkComplex 1 1) RED_ITERS). reflexivity.
Defined.

(** * What the filter guarantees to the mapper *)

(** Of two doubles, the one with the smaller exponent is the smaller. *)
Lemma canonical_exponent_lt s1 m1 e1 s2 m2 e2 :
  valid_binary (S754_finite s1 m1 e1) = true ->
  valid_binary (S754_finite s2 m2 e2) = true ->
  e1 < e2 -> Zpos m1 < Zpos m2 * 2 ^ (e2 - e1).
Proof.
  intros H1 H2 He.
  destruct (valid_finite _ _ _ H1) as [Hc1 _].
  destruct (valid_finite _ _ _ H2) as [Hc2 _].
  pose proof (Zdigits2_bounds m1) as [_ B1].
  pose proof (Zdigits2_bounds m2) as [B2 _].
  assert (Hd1 : Zdigits2 (Zpos m1) <= 53) by (unfold fexp, emin, emax, prec in *; lia).
  assert (Hd2 : Zdigits2 (Zpos m2) = 53) by (unfold fexp, emin, emax, prec in *; lia).
  rewrite Hd2 in B2. change (2 ^ (53 - 1)) with 4503599627370496 in B2.
  assert (Zpos m1 < 2 ^ 53).
  { eapply Z.lt_le_trans; [exact B1|]. apply Z.pow_le_mono_r; lia. }
  change (2 ^ 53) with 9007199254740992 in *.
  assert (2 ^ 1 <= 2 ^ (e2 - e1)) by (apply Z.pow_le_mono_r; lia).
  change (2 ^ 1) with 2 in *. nia.
Qed.

(** The comparison of doubles is the comparison of their values. *)
Lemma SFleb_Qle x y :
  valid_binary x = true -> valid_binary y = true ->
  SFis_finite x = true -> SFis_finite y = true ->
  SFleb x y = true -> (SF2Q x <= SF2Q y)%Q.
Proof.
  intros Hvx Hvy Hfx Hfy.
  destruct x as [sx | sx | | sx mx ex]; try discriminate;
    destruct y as [sy | sy | | sy my ey]; try discriminate;
    unfold SFleb; cbn [SFcompare].
  - destruct sy; [discriminate|]. intros _. rewrite SF2Q_finite_pos. cbn [SF2Q].
    apply Qmult_le_0_compat; [discriminate | apply Qlt_le_weak, Qpow2_pos].
  - destruct sx; [|discriminate]. intros _.
    change true with (negb false). rewrite SF2Q_negb, SF2Q_finite_pos. cbn [SF2Q].
    assert (0 <= inject_Z (Zpos mx) * 2 ^ ex)%Q
      by (apply Qmult_le_0_compat; [discriminate | apply Qlt_le_weak, Qpow2_pos]).
    lra.
  - rewrite !SF2Q_cond_Zopp.
    destruct sx, sy; cbn [cond_Zopp].
    + (* both negative *)
      destruct (Z.compare_spec ex ey) as [-> | Hlt | Hgt]; try discriminate.
      * intros H. apply (Qscale_le _ _ _ _ (- ey)); try lia.
        rewrite Z.add_opp_diag_r. change (2 ^ 0) with 1.
        change (Pos.compare_cont Eq mx my) with (Pos.compare mx my) in H.
        destruct (Pos.compare_spec mx my); try discriminate; lia.
      * intros _. apply (Qscale_le _ _ _ _ (- ey)); try lia.
        rewrite Z.add_opp_diag_r. change (2 ^ 0) with 1.
        pose proof (canonical_exponent_lt _ _ _ _ _ _ Hvy Hvx ltac:(lia)).
        replace (ex + - ey) with (ex - ey) by lia. lia.
    + intros _.
      assert (Hx : (0 <= inject_Z (Zpos mx) * 2 ^ ex)%Q)
        by (apply Qmult_le_0_compat; [discriminate | apply Qlt_le_weak, Qpow2_pos]).
      assert (Hy : (0 <= inject_Z (Zpos my) * 2 ^ ey)%Q)
        by (apply Qmult_le_0_compat; [discriminate | apply Qlt_le_weak, Qpow2_pos]).
      change (Z.neg mx) with (- Zpos mx). rewrite inject_Z_opp.
      revert Hx Hy.
      generalize (inject_Z (Zpos mx)) (inject_Z (Zpos my)) (2 ^ ex)%Q (2 ^ ey)%Q.
      intros. lra.
    + discriminate.
    + destruct (Z.compare_spec ex ey) as [-> | Hlt | Hgt]; try discriminate.
      * intros H. apply (Qscale_le _ _ _ _ (- ey)); try lia.
        rewrite Z.add_opp_diag_r. change (2 ^ 0) with 1.
        change (Pos.compare_cont Eq mx my) with (Pos.compare mx my) in H.
        destruct (Pos.compare_spec mx my); try discriminate; lia.
      * intros _. apply (Qscale_le _ _ _ _ (- ex)); try lia.
        rewrite Z.add_opp_diag_r. change (2 ^ 0) with 1.
        pose proof (canonical_exponent_lt _ _ _ _ _ _ Hvx Hvy ltac:(lia)).
        replace (ey + - ex) with (ey - ex) by lia. lia.
Qed.

Lemma leb_Qle x y :
  SFis_finite (Prim2SF x) = true -> SFis_finite (Prim2SF y) = true ->
  (x <=? y)%float = true -> (D2Q x <= D2Q y)%Q.
Proof.
  intros Hx Hy H. rewrite leb_spec in H.
  apply SFleb_Qle; auto using Prim2SF_valid.
Qed.

(** A double between two finite doubles is finite. *)
Lemma leb_between_finite lo x hi :
  SFis_finite (Prim2SF lo) = true -> SFis_finite (Prim2SF hi) = true ->
  (x <=? hi)%float = true -> (lo <=? x)%float = true ->
  SFis_finite (Prim2SF x) = true.
Proof.
  intros Hlo Hhi H1 H2. rewrite leb_spec in H1, H2.
  destruct (SFleb_finite_l _ _ H1 Hhi) as [_ Hp].
  destruct (SFleb_finite_r _ _ H2 Hlo) as [Hn Hm].
  destruct (Prim2SF x) as [s|[]| |s m e]; try reflexivity; try discriminate; congruence.
Qed.

(** A point that passes the filter has coordinates for which both casts
    of the mapper are defined. *)
Lemma in_rectangle_indices imageWidth imageHeight minimum maximum point :
  0 < imageWidth <= Int.max_int -> 0 < imageHeight <= Int.max_int ->
  Cis_finite minimum = true -> Cis_finite maximum = true ->
  (2 ^ (-990) <= D2Q (_r maximum) - D2Q (_r minimum) <= 2 ^ 1020)%Q ->
  (2 ^ (-990) <= D2Q (_i maximum) - D2Q (_i minimum) <= 2 ^ 1020)%Q ->
  in_rectangle minimum maximum point = true ->
  exists row col,
    rowFromReal (_r point) (_r minimum) (_r maximum) imageHeight = Ok row /\
    colFromImaginary (_i point) (_i minimum) (_i maximum) imageWidth = Ok col /\
    0 <= row <= imageHeight /\ 0 <= col <= imageWidth.
Proof.
  intros HW HH Hm HM Hr Hi Hin.
  unfold Cis_finite in Hm, HM. apply andb_true_iff in Hm, HM.
  destruct Hm as [Hmr Hmi], HM as [HMr HMi].
  unfold in_rectangle in Hin. rewrite !andb_true_iff in Hin.
  destruct Hin as [[[H1 H2] H3] H4].
  pose proof (leb_between_finite _ _ _ Hmr HMr H1 H2) as Hpr.
  pose proof (leb_between_finite _ _ _ Hmi HMi H3 H4) as Hpi.
  assert (HW' : 0 < imageWidth < 2 ^ 31)
    by (unfold Int.max_int in HW; change (2 ^ 31) with 2147483648; lia).
  assert (HH' : 0 < imageHeight < 2 ^ 31)
    by (unfold Int.max_int in HH; change (2 ^ 31) with 2147483648; lia).
  destruct (rowFromReal_value (_r point) (_r minimum) (_r maximum) imageHeight)
    as [Hrow Hrow']; auto.
  { split; apply leb_Qle; auto. }
  destruct (rowFromReal_value (_i point) (_i minimum) (_i maximum) imageWidth)
    as [Hcol Hcol']; auto.
  { split; apply leb_Qle; auto. }
  do 2 eexists. split; [exact Hrow|]. split; [exact Hcol|]. split; assumption.
Qed.

Lemma accumulate_fault imageWidth imageHeight minimum maximum st point f :
  0 < imageWidth <= Int.max_int -> 0 < imageHeight <= Int.max_int ->
  Cis_finite minimum = true -> Cis_finite maximum = true ->
  (2 ^ (-990) <= D2Q (_r maximum) - D2Q (_r minimum) <= 2 ^ 1020)%Q ->
  (2 ^ (-990) <= D2Q (_i maximum) - D2Q (_i minimum) <= 2 ^ 1020)%Q ->
  accumulate imageWidth imageHeight minimum maximum st point = Err f ->
  f = OutOfBounds.
Proof.
  intros HW HH Hm HM Hr Hi. unfold accumulate. destruct st as [h M].
  destruct (in_rectangle minimum maximum point) eqn:Hin; [|discriminate].
  destruct (in_rectangle_indices imageWidth imageHeight minimum maximum point)
    as (row & col & -> & -> & _); auto.
  cbn [bind]. unfold heatmap_get.
  destruct ((row <? 0) || (col <? 0)); cbn [bind]; [congruence|].
  destruct (h !! Z.to_nat row) as [cells|]; cbn [bind]; [|congruence].
  destruct (cells !! Z.to_nat col); cbn [bind]; congruence.
Qed.

Lemma accumulate_points_fault imageWidth imageHeight minimum maximum pts :
  0 < imageWidth <= Int.max_int -> 0 < imageHeight <= Int.max_int ->
  Cis_finite minimum = true -> Cis_finite maximum = true ->
  (2 ^ (-990) <= D2Q (_r maximum) - D2Q (_r minimum) <= 2 ^ 1020)%Q ->
  (2 ^ (-990) <= D2Q (_i maximum) - D2Q (_i minimum) <= 2 ^ 1020)%Q ->
  forall st f,
    accumulate_points imageWidth imageHeight minimum maximum st pts = Err f ->
    f = OutOfBounds.
Proof.
  intros HW HH Hm HM Hr Hi.
  induction pts as [|p pts IH]; intros st f; [discriminate|].
  rewrite accumulate_points_cons.
  destruct (accumulate imageWidth imageHeight minimum maximum st p) as [st'|f'] eqn:Ha;
    cbn [bind].
  - apply IH.
  - intros Hf. inversion Hf; subst.
    exact (accumulate_fault _ _ _ _ _ _ _ HW HH Hm HM Hr Hi Ha).
Qed.

(** The filter protects the casts of the mapper.  For a rectangle with
    finite corners whose sides are between 2^-990 and 2^1020 long and an
    image whose sizes are positive ints, every point that passes the
    filter of [GenerateHeatmap] gets a defined row and column, with
    0 <= row <= imageHeight and 0 <= col <= imageWidth; so
    [GenerateHeatmap] never converts a NaN, an infinity or a number
    outside the ints: it ends normally, or with the length error of a
    negative nIterations, or with a heatmap access out of bounds. *)
Theorem GenerateHeatmap_casts_defined (imageWidth imageHeight : Z)
    (minimum maximum : Complex) (nIterations : Z) :
  0 < imageWidth <= Int.max_int -> 0 < imageHeight <= Int.max_int ->
  Cis_finite minimum = true -> Cis_finite maximum = true ->
  (2 ^ (-990) <= D2Q (_r maximum) - D2Q (_r minimum) <= 2 ^ 1020)%Q ->
  (2 ^ (-990) <= D2Q (_i maximum) - D2Q (_i minimum) <= 2 ^ 1020)%Q ->
  (forall point,
     in_rectangle minimum maximum point = true ->
     exists row col,
       rowFromReal (_r point) (_r minimum) (_r maximum) imageHeight = Ok row /\
       colFromImaginary (_i point) (_i minimum) (_i maximum) imageWidth = Ok col /\
       0 <= row <= imageHeight /\ 0 <= col <= imageWidth) /\
  (forall samples o_heatmap o_maxHeatmapValue f,
     GenerateHeatmap o_heatmap imageWidth imageHeight minimum maximum nIterations
       samples o_maxHeatmapValue = Err f ->
     f = OutOfBounds \/ (f = LengthError /\ nIterations < 0)).
Proof.
  intros HW HH Hm HM Hr Hi. split.
  - intros point. now apply in_rectangle_indices.
  - induction samples as [|s samples IH]; intros h M f; [discriminate|].
    rewrite GenerateHeatmap_cons. unfold process_sample at 1.
    unfold buddhabrotPoints.
    destruct (Z.ltb_spec nIterations 0) as [Hneg | Hpos]; cbn [bind].
    + intros Hf. inversion Hf; subst. right. split; [reflexivity | exact Hneg].
    + destruct (buddhabrot_loop _ _ _ _ _ _) as [[n z] toReturn].
      assert (Hpts : forall pts,
        bind (accumulate_points imageWidth imageHeight minimum maximum (h, M) pts)
          (fun st' => GenerateHeatmap (fst st') imageWidth imageHeight minimum maximum
                        nIterations samples (snd st')) = Err f ->
        f = OutOfBounds \/ (f = LengthError /\ nIterations < 0)).
      { intros pts.
        destruct (accumulate_points imageWidth imageHeight minimum maximum (h, M) pts)
          as [st'|f'] eqn:Ha; cbn [bind].
        - apply IH.
        - intros Hf. inversion Hf; subst. left.
          exact (accumulate_points_fault _ _ _ _ _ HW HH Hm HM Hr Hi _ _ Ha). }
      destruct (n =? nIterations); cbn [bind]; apply Hpts.
Qed.

Lemma GenerateHeatmap_casts_defined_witness :
  (forall point,
     in_rectangle MINIMUM MAXIMUM point = true ->
     exists row col,
       rowFromReal (_r point) (_r MINIMUM) (_r MAXIMUM) IMAGE_HEIGHT = Ok row /\
       colFromImaginary (_i point) (_i MINIMUM) (_i MAXIMUM) IMAGE_WIDTH = Ok col /\
       0 <= row <= IMAGE_HEIGHT /\ 0 <= col <= IMAGE_WIDTH) /\
  (forall samples o_heatmap o_maxHeatmapValue f,
     GenerateHeatmap o_heatmap IMAGE_WIDTH IMAGE_HEIGHT MINIMUM MAXIMUM 200
       samples o_maxHeatmapValue = Err f ->
     f = OutOfBounds \/ (f = LengthError /\ 200 < 0)).
Proof.
  apply (GenerateHeatmap_casts_defined IMAGE_WIDTH IMAGE_HEIGHT MINIMUM MAXIMUM 200);
    [ vm_compute; split; [reflexivity | discriminate]
    | vm_compute; split; [reflexivity | discriminate]
    | reflexivity | reflexivity
    | vm_compute; split; discriminate
    | vm_compute; split; discriminate ].
Defined.
